(** * KoBERTScore: a shallow embedding of [KoBERTScore/score.py]

    The development follows the layout of the Python module.

    - Numbers.  A torch float is modelled as [scalar := option R]: [Some x]
      is the finite real [x], [None] stands for a non-finite float ([nan],
      [inf], [-inf]).  Rounding is not modelled ("within floating
      tolerance" reads as equality of reals), and neither is the range of
      the float type: the arithmetic on [Some] values is that of the reals.
      Two consequences are kept out of the statements below.  First, a
      finite row whose sum of squares underflows or overflows in [float32]
      is not normalised by the code as it is here, so the statements on
      unit norms and on the values of the cosines are made for rows within
      [Rows.in_range].  Second, the three non-finite floats are collapsed,
      which is right for the scores (every operation of the module maps a
      [nan] operand to [nan], and a row with an infinite entry has only
      [nan] cosines) but not for the entries of a stored row ([x / inf] is
      [0]), so the statements on the contents of the store are made for
      tensors of finite entries.
    - Tensors are nested lists.  Elementwise operations are written with
      [map2]; they agree with torch on operands of equal shape, which is
      what the statements below assume (torch raises or broadcasts
      otherwise).
    - Exceptions are the [Raise] results of [res].
    - [Tensor.div_] mutates its receiver, so the embedding tensors live in
      a store and the functions that touch them are written in a
      state-and-exception monad [M]. *)

From Stdlib Require Import String Ascii.
From Stdlib Require Import List ZArith Reals Lra Lia Bool Arith.
Import ListNotations.

Set Implicit Arguments.

(** ** Python results and exceptions *)

Module Py.

Inductive exn : Type :=
| ValueError | NameError | RuntimeError | IndexError
| ZeroDivisionError | FileNotFoundError.

Inductive res (A : Type) : Type :=
| Ok (a : A)
| Raise (e : exn).
Arguments Ok {A} a.
Arguments Raise {A} e.

Definition rbind {A B} (c : res A) (k : A -> res B) : res B :=
  match c with
  | Ok a => k a
  | Raise e => Raise e
  end.

Fixpoint mapM {A B} (f : A -> res B) (l : list A) : res (list B) :=
  match l with
  | [] => Ok []
  | x :: l' => rbind (f x) (fun y => rbind (mapM f l') (fun ys => Ok (y :: ys)))
  end.

Fixpoint map2 {A B C} (f : A -> B -> C) (l : list A) (l' : list B) : list C :=
  match l, l' with
  | x :: t, y :: t' => f x y :: map2 f t t'
  | _, _ => []
  end.

(** [seq[i]] for a Python sequence and an [int] index: a negative index
    counts from the end, an index out of range raises [IndexError]. *)
Definition py_index {A} (l : list A) (i : Z) : res A :=
  let n := Z.of_nat (length l) in
  let j := if (i <? 0)%Z then (i + n)%Z else i in
  if ((0 <=? j) && (j <? n))%Z
  then match nth_error l (Z.to_nat j) with
       | Some x => Ok x
       | None => Raise IndexError
       end
  else Raise IndexError.

(** [seq[b:e]] for [0 <= b], [0 <= e]: clipped to the sequence. *)
Definition py_slice {A} (l : list A) (b e : nat) : list A :=
  firstn (e - b) (skipn b l).

End Py.
Import Py.

(** ** Floats *)

Module Scalar.

Definition scalar : Type := option R.

Definition sadd (a b : scalar) : scalar :=
  match a, b with Some x, Some y => Some (x + y)%R | _, _ => None end.

Definition ssub (a b : scalar) : scalar :=
  match a, b with Some x, Some y => Some (x - y)%R | _, _ => None end.

Definition smul (a b : scalar) : scalar :=
  match a, b with Some x, Some y => Some (x * y)%R | _, _ => None end.

(** [x / 0] is [nan] or infinite, hence [None]. *)
Definition sdiv (a b : scalar) : scalar :=
  match a, b with
  | Some x, Some y => if Req_dec_T y 0 then None else Some (x / y)%R
  | _, _ => None
  end.

Definition ssqrt (a : scalar) : scalar :=
  match a with Some x => Some (sqrt x) | None => None end.

(** [torch.max] propagates [nan]. *)
Definition smax (a b : scalar) : scalar :=
  match a, b with Some x, Some y => Some (Rmax x y) | _, _ => None end.

(** [t.sum()] of a one-dimensional tensor. *)
Definition ssum (l : list scalar) : scalar :=
  fold_right sadd (Some 0%R) l.

Definition Rsum (l : list R) : R := fold_right Rplus 0%R l.

End Scalar.
Import Scalar.

(** ** Tensors *)

Module Tensor.

(** (K) vectors, (K, D) matrices, (B, K, D) batches. *)
Definition vec : Type := list scalar.
Definition mat : Type := list vec.
Definition tensor3 : Type := list mat.

Definition lift1 (v : list R) : vec := map (@Some R) v.
Definition lift2 (m : list (list R)) : mat := map lift1 m.
Definition lift3 (t : list (list (list R))) : tensor3 := map lift2 t.

(** [torch.norm(embeds, dim=-1)] on one row: the L2 norm. *)
Definition norm (row : vec) : scalar :=
  ssqrt (ssum (map (fun x => smul x x) row)).

(** [embeds / torch.norm(embeds, dim=-1).unsqueeze(-1)]: every entry of a
    row divided by the norm of that row. *)
Definition div_norm_row (row : vec) : vec :=
  map (fun x => sdiv x (norm row)) row.

Definition div_norm (t : tensor3) : tensor3 :=
  map (map div_norm_row) t.

Definition dot (u v : vec) : scalar := ssum (map2 smul u v).

(** [a @ c.T] for one batch entry: entry [i][j] is the dot product of
    row [i] of [a] and row [j] of [c]. *)
Definition matmul_t (a c : mat) : mat :=
  map (fun u => map (fun v => dot u v) c) a.

(** [torch.bmm(r, c.permute(0, 2, 1))]: the batch sizes must agree. *)
Definition bmm_permute (r c : tensor3) : res tensor3 :=
  if Nat.eqb (length r) (length c)
  then Ok (map2 matmul_t r c)
  else Raise RuntimeError.

(** [max] of a non-empty one-dimensional tensor; torch refuses to reduce
    a dimension of size zero. *)
Definition max_vec (v : vec) : res scalar :=
  match v with
  | [] => Raise IndexError
  | x :: v' => Ok (fold_left smax v' x)
  end.

(** [t.max(dim=2)] values of a (B, K_i, K_r) tensor: (B, K_i). *)
Definition max_dim2 (t : tensor3) : res mat :=
  mapM (mapM max_vec) t.

(** [m.max(dim=0)] values of a (K_i, K_r) matrix: the elementwise maximum
    of its rows. *)
Definition max_rows (m : mat) : res vec :=
  match m with
  | [] => Raise IndexError
  | r :: m' => Ok (fold_left (map2 smax) m' r)
  end.

(** [t.max(dim=1)] values of a (B, K_i, K_r) tensor: (B, K_r). *)
Definition max_dim1 (t : tensor3) : res mat :=
  mapM max_rows t.

(** [(m * w).sum(axis=1) / w.sum(axis=1)] on one batch entry. *)
Definition weighted_mean (m : vec) (w : list R) : scalar :=
  sdiv (ssum (map2 smul m (lift1 w))) (ssum (lift1 w)).

End Tensor.
Import Tensor.

(** ** The tensor store *)

Module Store.

Definition loc : Type := nat.
Definition heap : Type := list tensor3.

Definition read (l : loc) (h : heap) : tensor3 := nth l h [].

Fixpoint write (l : loc) (t : tensor3) (h : heap) : heap :=
  match h, l with
  | [], _ => []
  | _ :: h', O => t :: h'
  | x :: h', S l' => x :: write l' t h'
  end.

(** State and exceptions. *)
Definition M (A : Type) : Type := heap -> res (A * heap).

Definition ret {A} (a : A) : M A := fun h => Ok (a, h).

Definition bind {A B} (c : M A) (k : A -> M B) : M B :=
  fun h => match c h with
           | Ok (a, h') => k a h'
           | Raise e => Raise e
           end.

Definition lift {A} (r : res A) : M A :=
  fun h => match r with Ok a => Ok (a, h) | Raise e => Raise e end.

(** A new tensor object. *)
Definition alloc (t : tensor3) : M loc :=
  fun h => Ok (length h, h ++ [t]).

Definition load (l : loc) : M tensor3 := fun h => Ok (read l h, h).

Definition store (l : loc) (t : tensor3) : M unit :=
  fun h => Ok (tt, write l t h).

End Store.
Import Store.

Declare Scope py_scope.
Delimit Scope py_scope with py.
Notation "x <- c ;; k" := (bind c (fun x => k))
  (at level 61, c at next level, right associativity) : py_scope.
Notation "c ;;; k" := (bind c (fun _ => k))
  (at level 61, right associativity) : py_scope.

(** ** The collaborators of [score.py]

    The tokenizer and the encoder come from [transformers]; they are
    values the functions below receive. *)

Module Transformers.

(** What the module uses of a [BertTokenizer]: [encode s] is the id
    sequence of one sentence, special tokens included and unpadded;
    [len] is [len(tokenizer)]. *)
Record BertTokenizer : Type := {
  encode : string -> list Z;
  cls_token_id : Z;
  sep_token_id : Z;
  pad_token_id : Z;
  len : nat
}.

(** The padded batch: every sentence is right-padded to the longest of
    the batch; the attention mask is 1 on the tokens of the sentence and 0
    on the padding. *)
Definition pad_batch (tok : BertTokenizer) (input_sents : list string)
  : list (list Z) * list (list Z) :=
  let enc := map (encode tok) input_sents in
  let K := fold_right Nat.max 0%nat (map (@length Z) enc) in
  (map (fun s => s ++ repeat (pad_token_id tok) (K - length s)) enc,
   map (fun s => repeat 1%Z (length s) ++ repeat 0%Z (K - length s)) enc).

(** [batch_encode_plus(input_sents, padding=True)]: the [input_ids] and
    the [attention_mask] of the padded batch.  The tokenizer refuses an
    empty list of sentences with [ValueError]. *)
Definition batch_encode_plus (tok : BertTokenizer) (input_sents : list string)
  : res (list (list Z) * list (list Z)) :=
  match input_sents with
  | [] => Raise ValueError
  | _ :: _ => Ok (pad_batch tok input_sents)
  end.

(** What the module uses of a [BertModel]: [forward n ids mask] runs the
    embedding layer and the first [n] encoder layers and returns the
    [n + 1] hidden states, each of shape (B, K, D); [n_layer] is the
    length of [encoder.layer]. *)
Record BertModel : Type := {
  n_layer : nat;
  forward : nat -> list (list Z) -> list (list Z) -> list (list (list (list R)))
}.

(** [bert_model(input_ids, attention_mask=..., output_hidden_states=True)],
    third component. *)
Definition hidden_states (m : BertModel) (ids mask : list (list Z)) :=
  forward m (n_layer m) ids mask.

(** What [__init__] and its helpers read from outside. *)
Record World : Type := {
  tokenizer_from_pretrained : string -> res BertTokenizer;
  model_from_pretrained : string -> res BertModel;
  (** the lines of the file at a path *)
  open_lines : string -> res (list string);
  (** [float(line.strip())] *)
  py_float : string -> res R
}.

End Transformers.
Import Transformers.

(** ** [score.py] *)

Module Score.

Local Open Scope py_scope.

(** [ids == c], elementwise. *)
Definition eq_id (ids : list (list Z)) (c : Z) : list (list bool) :=
  map (map (fun x => Z.eqb x c)) ids.

(** [torch.where(cond, x, y)], elementwise on equal shapes. *)
Definition where_ (cond : list (list bool)) (x y : list (list Z)) : list (list Z) :=
  map2 (fun c (xy : list Z * list Z) =>
          map2 (fun (ci : bool) (ab : Z * Z) => if ci then fst ab else snd ab)
                         c (combine (fst xy) (snd xy)))
       cond (combine x y).

Definition sents_to_tensor (bert_tokenizer : BertTokenizer) (input_sents : list string)
  : res (list (list Z) * list (list Z) * list (list Z)) :=
  rbind (batch_encode_plus bert_tokenizer input_sents) (fun inputs =>
  let padded_input_ids := fst inputs in
  let attention_mask := snd inputs in
  let zero_mask := map (map (fun _ => 0%Z)) attention_mask in
  let token_mask :=
    where_ (eq_id padded_input_ids (cls_token_id bert_tokenizer)) zero_mask attention_mask in
  let token_mask :=
    where_ (eq_id padded_input_ids (sep_token_id bert_tokenizer)) zero_mask token_mask in
  Ok (padded_input_ids, attention_mask, token_mask)).

(** The hidden state of the chosen layer is a new tensor object.  (The
    [output_layer_index == 'all'] branch is for a [str] argument, which
    [bert_score] and [BERTScore] never pass.) *)
Definition bert_forwarding (bert_model : BertModel) (input_ids attention_mask : list (list Z))
  (output_layer_index : Z) : M loc :=
  let hs := hidden_states bert_model input_ids attention_mask in
  t <- lift (py_index hs output_layer_index) ;;
  alloc (lift3 t).

(** The inner [normalize]: [embeds.div_(...)] overwrites the tensor it is
    given and returns that same object. *)
Definition normalize (embeds : loc) : M loc :=
  t <- load embeds ;;
  store embeds (div_norm t) ;;;
  ret embeds.

Definition compute_pairwise_cosine (refer_embeds candi_embeds : loc) : M tensor3 :=
  refer_embeds <- normalize refer_embeds ;;
  candi_embeds <- normalize candi_embeds ;;
  r <- load refer_embeds ;;
  c <- load candi_embeds ;;
  lift (bmm_permute r c).

(** [idf_embed(ids).squeeze(dim=2)]: a table lookup per id; an id outside
    the table raises. *)
Definition apply_idf (ids : list (list Z)) (idf_embed : list R) : res (list (list R)) :=
  mapM (mapM (fun id =>
    if (id <? 0)%Z then Raise IndexError
    else match nth_error idf_embed (Z.to_nat id) with
         | Some w => Ok w
         | None => Raise IndexError
         end)) ids.

(** [(scores - base) / (1 - base)] for [scores] a tensor, which is how
    [compute_RPF] calls it: elementwise, and a zero divisor gives
    non-finite entries. *)
Definition rescaling (scores : mat) (base : R) : mat :=
  map (map (fun s => sdiv (ssub s (Some base)) (Some (1 - base)%R))) scores.

(** [(scores - base) / (1 - base)] for [scores] a Python [float], which
    the docstring also admits: Python's own division raises
    [ZeroDivisionError] on a zero divisor. *)
Definition rescaling_float (scores : scalar) (base : R) : res scalar :=
  if Req_dec_T (1 - base)%R 0%R then Raise ZeroDivisionError
  else Ok (sdiv (ssub scores (Some base)) (Some (1 - base)%R)).

(** [2 * (R * P) / (R + P)] *)
Definition f1 (r p : scalar) : scalar :=
  sdiv (smul (Some 2%R) (smul r p)) (sadd r p).

Definition compute_RPF (refer_embeds candi_embeds : loc)
  (refer_weight_mask candi_weight_mask : list (list R))
  (refer_ids candi_ids : option (list (list Z)))
  (idf : option (list R)) (rescale_base : R)
  : M (vec * vec * vec) :=
  pairwise_cosine <- compute_pairwise_cosine refer_embeds candi_embeds ;;
  R_max <- lift (max_dim2 pairwise_cosine) ;;
  P_max <- lift (max_dim1 pairwise_cosine) ;;
  masks <- lift (match idf, refer_ids, candi_ids with
                 | Some idf, Some refer_ids, Some candi_ids =>
                     rbind (apply_idf refer_ids idf) (fun rw =>
                     rbind (apply_idf candi_ids idf) (fun cw => Ok (rw, cw)))
                 | _, _, _ => Ok (refer_weight_mask, candi_weight_mask)
                 end) ;;
  let refer_weight_mask := fst masks in
  let candi_weight_mask := snd masks in
  let R_max := rescaling R_max rescale_base in
  let P_max := rescaling P_max rescale_base in
  let R := map2 weighted_mean R_max refer_weight_mask in
  let P := map2 weighted_mean P_max candi_weight_mask in
  let F := map2 f1 R P in
  ret (R, P, F).

(** An integer mask used as a float weight. *)
Definition to_float (m : list (list Z)) : list (list R) := map (map IZR) m.

Definition bert_score (bert_tokenizer : BertTokenizer) (bert_model : BertModel)
  (references candidates : list string)
  (idf : option (list R)) (output_layer_index : Z) (rescale_base : R)
  : M (vec * vec * vec) :=
  (* tokenization *)
  refer <- lift (sents_to_tensor bert_tokenizer references) ;;
  let '(refer_ids, refer_attention_mask, refer_weight_mask) := refer in
  candi <- lift (sents_to_tensor bert_tokenizer candidates) ;;
  let '(candi_ids, candi_attention_mask, candi_weight_mask) := candi in
  (* BERT embedding *)
  refer_embeds <- bert_forwarding bert_model refer_ids refer_attention_mask output_layer_index ;;
  candi_embeds <- bert_forwarding bert_model candi_ids candi_attention_mask output_layer_index ;;
  (* Compute bert RPF *)
  compute_RPF refer_embeds candi_embeds
    (to_float refer_weight_mask) (to_float candi_attention_mask)
    (Some refer_ids) (Some candi_ids)
    idf rescale_base.

(** [layer[:last_layer]] keeps this many of [n] layers. *)
Definition slice_to (n : nat) (last_layer : Z) : nat :=
  if (last_layer <? 0)%Z then Z.to_nat (Z.of_nat n + last_layer)
  else Nat.min (Z.to_nat last_layer) n.

Definition truncate_bert_layers (encoder : BertModel) (last_layer : Z) : BertModel :=
  {| n_layer := slice_to (n_layer encoder) last_layer;
     forward := forward encoder |}.

Definition load_model (w : World) (model_name_or_path : string) (best_layer : Z)
  : res (BertTokenizer * BertModel) :=
  rbind (tokenizer_from_pretrained w model_name_or_path) (fun tokenizer =>
  rbind (model_from_pretrained w model_name_or_path) (fun encoder =>
  let encoder := if (0 <? best_layer)%Z
                 then truncate_bert_layers encoder best_layer else encoder in
  Ok (tokenizer, encoder))).

(** The weight column of the [Embedding]: one float per line of the file. *)
Definition load_idf (w : World) (path : string) : res (list R) :=
  rbind (open_lines w path) (fun f => mapM (py_float w) f).

End Score.
Import Score.

(** ** class [BERTScore] *)

Module BERTScore.

Local Open Scope py_scope.

Record self : Type := {
  tokenizer : BertTokenizer;
  encoder : BertModel;
  rescale_base : R;
  idf : option (list R)
}.

(** Names bound where the message of the [ValueError] is evaluated: the
    arguments of [__init__] and the globals of the module. *)
Definition init_locals : list string :=
  ["self"; "model_name_or_path"; "best_layer"; "idf_path"; "rescale_base"]%string.

Definition module_globals : list string :=
  ["math"; "torch"; "F"; "BertModel"; "BertTokenizer"; "tqdm";
   "bert_score"; "sents_to_tensor"; "bert_forwarding"; "compute_RPF";
   "compute_pairwise_cosine"; "apply_idf"; "rescaling"; "BERTScore";
   "load_model"; "truncate_bert_layers"; "load_idf"]%string.

(** Evaluating a bare name. *)
Definition name_lookup (x : string) : res unit :=
  if existsb (String.eqb x) (init_locals ++ module_globals)
  then Ok tt else Raise NameError.

(** The argument of [ValueError(...)]: the f-string reads [len(tokenizer)]
    and then [self.idf.weight.size()[0]]. *)
Definition mismatch_message : res unit :=
  rbind (name_lookup "tokenizer") (fun _ =>
  rbind (name_lookup "self") (fun _ => Ok tt)).

Definition __init__ (w : World) (model_name_or_path : string) (best_layer : Z)
  (idf_path : option string) (rescale_base : R) : res self :=
  rbind (load_model w model_name_or_path best_layer) (fun te =>
  let tokenizer := fst te in
  let encoder := snd te in
  match idf_path with
  | Some idf_path =>
      rbind (load_idf w idf_path) (fun idf =>
      if negb (Nat.eqb (len tokenizer) (length idf))
      then rbind mismatch_message (fun _ => Raise ValueError)
      else Ok {| tokenizer := tokenizer; encoder := encoder;
                 rescale_base := rescale_base; idf := Some idf |})
  | None =>
      Ok {| tokenizer := tokenizer; encoder := encoder;
            rescale_base := rescale_base; idf := None |}
  end).

(** Whether the scores [bert_score] computes for this object require
    grad.  [self.idf] is the [Embedding] built by [load_idf]; its weight
    is a trainable parameter, and [compute_RPF] runs outside
    [torch.no_grad()], so the scores require grad exactly when there is a
    table. *)
Definition requires_grad (s : self) : bool :=
  match idf s with Some _ => true | None => false end.

(** [t.numpy()]: refused for a tensor that requires grad. *)
Definition numpy (requires_grad : bool) (t : vec) : res vec :=
  if requires_grad then Raise RuntimeError else Ok t.

(** The body of the [for] loop of [score], run over the remaining steps,
    [F] being the list built so far. *)
Fixpoint score_loop (s : self) (references candidates : list string)
  (batch_size n_examples : nat) (steps : list nat) (F : vec) : M vec :=
  match steps with
  | [] => ret F
  | step :: steps' =>
      let b := (step * batch_size)%nat in
      let e := Nat.min ((step + 1) * batch_size) n_examples in
      let refer_batch := py_slice references b e in
      let candi_batch := py_slice candidates b e in
      rpf <- bert_score (tokenizer s) (encoder s) refer_batch candi_batch
                        (idf s) (-1)%Z (rescale_base s) ;;
      let F_batch := snd rpf in
      F_list <- lift (numpy (requires_grad s) F_batch) ;;
      score_loop s references candidates batch_size n_examples steps' (F ++ F_list)
  end.

(** [math.ceil(n_examples / batch_size)] *)
Definition n_batch (n_examples : nat) (batch_size : Z) : res Z :=
  if (batch_size =? 0)%Z then Raise ZeroDivisionError
  else Ok (- ((- Z.of_nat n_examples) / batch_size))%Z.

(** [verbose] only selects the progress bar. *)
Definition score (s : self) (references candidates : list string)
  (batch_size : Z) (verbose : bool) : M vec :=
  let n_examples := length references in
  n <- lift (n_batch n_examples batch_size) ;;
  score_loop s references candidates (Z.to_nat batch_size) n_examples
             (seq 0 (Z.to_nat n)) [].

Definition __call__ (s : self) (references candidates : list string)
  (batch_size : Z) (verbose : bool) : M vec :=
  score s references candidates batch_size verbose.

End BERTScore.

(** ** The reference definition of the scores (section 4.3 of the design)

    Written with explicit indices, independently of the list code above. *)

Module Reference.

(** [similarity[b,i,j]] *)
Definition at3 (sim : tensor3) (b i j : nat) : scalar :=
  nth j (nth i (nth b sim []) []) None.

(** [weight[b,i]] *)
Definition at2 (w : list (list R)) (b i : nat) : scalar :=
  Some (nth i (nth b w []) 0%R).

(** Maximum of [f 0 .. f n]. *)
Fixpoint max_over (n : nat) (f : nat -> scalar) : scalar :=
  match n with
  | O => f O
  | S n' => smax (max_over n' f) (f n)
  end.

(** Sum of [f 0 .. f (n - 1)]. *)
Fixpoint sum_over (n : nat) (f : nat -> scalar) : scalar :=
  match n with
  | O => Some 0%R
  | S n' => sadd (sum_over n' f) (f n')
  end.

(** [rescaled = (score - base) / (1 - base)] *)
Definition rescaled (base : R) (score : scalar) : scalar :=
  sdiv (ssub score (Some base)) (Some (1 - base)%R).

(** [RecallMax[b,i] = max over j of similarity[b,i,j]], [j] ranging over the
    [K_r] candidate positions. *)
Definition RecallMax (sim : tensor3) (K_r : nat) (b i : nat) : scalar :=
  max_over (K_r - 1) (fun j => at3 sim b i j).

(** [PrecisionMax[b,j] = max over i of similarity[b,i,j]], [i] ranging over
    the [K_i] reference positions. *)
Definition PrecisionMax (sim : tensor3) (K_i : nat) (b j : nat) : scalar :=
  max_over (K_i - 1) (fun i => at3 sim b i j).

(** [Recall[b] = sum_i (RecallMax[b,i] * W[b,i]) / sum_i W[b,i]] *)
Definition Recall (sim : tensor3) (W : list (list R)) (base : R) (K_i K_r : nat) (b : nat)
  : scalar :=
  sdiv (sum_over K_i (fun i => smul (rescaled base (RecallMax sim K_r b i)) (at2 W b i)))
       (sum_over K_i (fun i => at2 W b i)).

(** [Precision[b] = sum_j (PrecisionMax[b,j] * W[b,j]) / sum_j W[b,j]] *)
Definition Precision (sim : tensor3) (W : list (list R)) (base : R) (K_i K_r : nat) (b : nat)
  : scalar :=
  sdiv (sum_over K_r (fun j => smul (rescaled base (PrecisionMax sim K_i b j)) (at2 W b j)))
       (sum_over K_r (fun j => at2 W b j)).

(** [F1[b] = 2 * Recall[b] * Precision[b] / (Recall[b] + Precision[b])] *)
Definition F1 (r p : scalar) : scalar :=
  sdiv (smul (smul (Some 2%R) r) p) (sadd r p).

(** The weight masks [compute_RPF] aggregates with: the IDF lookups when a
    table and both id tensors are given, the masks passed in otherwise. *)
Definition WeightMasks (refer_weight_mask candi_weight_mask : list (list R))
  (refer_ids candi_ids : option (list (list Z))) (idf : option (list R))
  (W_ref W_cand : list (list R)) : Prop :=
  match idf, refer_ids, candi_ids with
  | Some t, Some ri, Some ci => apply_idf ri t = Ok W_ref /\ apply_idf ci t = Ok W_cand
  | _, _, _ => W_ref = refer_weight_mask /\ W_cand = candi_weight_mask
  end.

(** The content mask: 1 exactly where the attention mask is 1 and the id is
    neither marker. *)
Definition ContentMask (tok : BertTokenizer) (ids mask : list (list Z)) (b i : nat) : Z :=
  let id := nth i (nth b ids []) 0%Z in
  if ((nth i (nth b mask []) 0 =? 1) && negb (id =? cls_token_id tok)
      && negb (id =? sep_token_id tok))%Z
  then 1%Z else 0%Z.

End Reference.

(** ** What the scores assume of the tokenizer and the encoder *)

Module Shape.

(** The tokenizer gives every sentence at least one token (BERT always
    adds the two markers). *)
Definition tokenizer_ok (tok : BertTokenizer) : Prop :=
  forall s, encode tok s <> [].

(** The encoder returns, in every hidden state, one vector per position of
    its input. *)
Definition encoder_ok (m : BertModel) : Prop :=
  forall n ids mask t, In t (forward m n ids mask) ->
    length t = length ids /\
    forall b, (b < length ids)%nat -> length (nth b t []) = length (nth b ids []).

(** The encoder embeds a token from the attended tokens of its own
    sentence only, which is what the attention mask is for: in the same
    layer of two runs, two rows that hold the same [k] tokens, attended,
    followed by unattended padding of any length, get equal embeddings at
    these [k] positions, whatever the other rows of the two batches. *)
Definition encoder_ignores_padding (m : BertModel) : Prop :=
  forall n idx ids mask ids' mask' t t' b b' k,
    py_index (forward m n ids mask) idx = Ok t ->
    py_index (forward m n ids' mask') idx = Ok t' ->
    (b < length ids)%nat -> (b' < length ids')%nat ->
    firstn k (nth b ids []) = firstn k (nth b' ids' []) ->
    nth b mask [] = repeat 1%Z k ++ repeat 0%Z (length (nth b ids []) - k) ->
    nth b' mask' [] = repeat 1%Z k ++ repeat 0%Z (length (nth b' ids' []) - k) ->
    forall i, (i < k)%nat -> nth i (nth b t []) [] = nth i (nth b' t' []) [].

(** The length every sentence of the batch is padded to. *)
Definition padded_length (tok : BertTokenizer) (sents : list string) : nat :=
  fold_right Nat.max 0%nat (map (@length Z) (map (encode tok) sents)).

End Shape.

(** ** A small tokenizer, encoder and file system

    Used to run the functions on concrete sentences. *)

Module Toy.

Local Open Scope R_scope.

(** One id per character: [a] is 3, any other character 4; 0 pads, 1 and 2
    are the begin and end markers. *)
Definition char_id (c : ascii) : Z :=
  if Ascii.eqb c "a"%char then 3%Z else 4%Z.

Definition tok : BertTokenizer :=
  {| encode := fun s => (1 :: map char_id (list_ascii_of_string s) ++ [2])%Z;
     cls_token_id := 1; sep_token_id := 2; pad_token_id := 0;
     len := 5 |}.

(** A position-independent embedding table of unit vectors. *)
Definition emb (id : Z) : list R :=
  if (id =? 0)%Z then [1; 0]
  else if (id =? 3)%Z then [4/5; 3/5]
  else [0; 1].

Definition model : BertModel :=
  {| n_layer := 1;
     forward := fun n ids _ => repeat (map (map emb) ids) (n + 1) |}.

(** One file, [idf.txt], of two lines. *)
Definition world : World :=
  {| tokenizer_from_pretrained := fun _ => Ok tok;
     model_from_pretrained := fun _ => Ok model;
     open_lines := fun p => if String.eqb p "idf.txt" then Ok ["1.0"; "2.0"]%string
                            else Raise FileNotFoundError;
     py_float := fun s => if String.eqb s "1.0" then Ok 1
                          else if String.eqb s "2.0" then Ok 2
                          else Raise ValueError |}.

Definition scorer : BERTScore.self :=
  {| BERTScore.tokenizer := tok; BERTScore.encoder := model;
     BERTScore.rescale_base := 0; BERTScore.idf := None |}.

(** The same with a table of five weights: no weight on the padding and
    the markers, 1 on [a], 2 on any other character. *)
Definition scorer_idf : BERTScore.self :=
  {| BERTScore.tokenizer := tok; BERTScore.encoder := model;
     BERTScore.rescale_base := 0; BERTScore.idf := Some [0; 0; 0; 1; 2] |}.

End Toy.

(** ** Pure readings of the stateful functions *)

Module Pure.

(** The value of a computation, the final store dropped. *)
Definition run {A} (c : M A) (h : heap) : res A :=
  match c h with
  | Ok (a, _) => Ok a
  | Raise e => Raise e
  end.

(** [max] of a vector known to be non-empty. *)
Definition vmax (v : vec) : scalar :=
  match v with
  | [] => None
  | x :: v' => fold_left smax v' x
  end.

(** Elementwise [max] of the rows of a matrix known to be non-empty. *)
Definition cmax (m : mat) : vec :=
  match m with
  | [] => []
  | r :: m' => fold_left (map2 smax) m' r
  end.

(** What [compute_RPF] does once the pairwise tensor is there. *)
Definition RPF_of (pairwise_cosine : tensor3)
  (refer_weight_mask candi_weight_mask : list (list R))
  (refer_ids candi_ids : option (list (list Z)))
  (idf : option (list R)) (rescale_base : R) : res (vec * vec * vec) :=
  rbind (max_dim2 pairwise_cosine) (fun R_max =>
  rbind (max_dim1 pairwise_cosine) (fun P_max =>
  rbind (match idf, refer_ids, candi_ids with
         | Some idf, Some refer_ids, Some candi_ids =>
             rbind (apply_idf refer_ids idf) (fun rw =>
             rbind (apply_idf candi_ids idf) (fun cw => Ok (rw, cw)))
         | _, _, _ => Ok (refer_weight_mask, candi_weight_mask)
         end) (fun masks =>
  let R := map2 weighted_mean (rescaling R_max rescale_base) (fst masks) in
  let P := map2 weighted_mean (rescaling P_max rescale_base) (snd masks) in
  Ok (R, P, map2 f1 R P)))).

(** Dot product of real vectors. *)
Definition Rdot (u v : list R) : R := Rsum (map2 Rmult u v).

(** What [sents_to_tensor] returns for a batch the tokenizer accepts. *)
Definition tensors (tok : BertTokenizer) (sents : list string)
  : list (list Z) * list (list Z) * list (list Z) :=
  let inputs := pad_batch tok sents in
  let zero_mask := map (map (fun _ => 0%Z)) (snd inputs) in
  let token_mask :=
    where_ (eq_id (fst inputs) (cls_token_id tok)) zero_mask (snd inputs) in
  let token_mask :=
    where_ (eq_id (fst inputs) (sep_token_id tok)) zero_mask token_mask in
  (fst inputs, snd inputs, token_mask).

End Pure.
Import Pure.

(** ** Rows before and after normalisation *)

Module Rows.

Definition nonzero (v : list R) : Prop := Exists (fun x => x <> 0%R) v.
Definition allzero (v : list R) : Prop := Forall (fun x => x = 0%R) v.

(** Row [i] of entry [b]. *)
Definition row {A} (t : list (list (list A))) (b i : nat) : list A :=
  nth i (nth b t []) [].

(** The range of the norm.  The embeddings are [float32] tensors (what
    [BertModel.from_pretrained] loads).  [torch.norm] squares the entries
    of a row and sums the squares; in [float32] that sum is neither
    flushed to zero nor infinite when it lies between [2^-100] and
    [2^100], and a row is in range when it does. *)
Definition sq_min : R := (/ 2 ^ 100)%R.
Definition sq_max : R := (2 ^ 100)%R.

Definition in_range (v : list R) : Prop := (sq_min <= Rdot v v <= sq_max)%R.


(** The range of an IDF weight: zero, or between [2^-50] and [2^50], so
    that [float32] holds the weight, and the sum of a row of such weights,
    without underflow or overflow. *)
Definition weight_in_range (w : R) : Prop :=
  w = 0%R \/ (/ 2 ^ 50 <= w <= 2 ^ 50)%R.

(** [t'] holds, row by row, what normalising [t] leaves: a row in range
    now has L2 norm 1, an all-zero row is [nan] throughout. *)
Definition normalised_from (t : list (list (list R))) (t' : tensor3) : Prop :=
  forall b i,
    (in_range (row t b i) -> norm (row t' b i) = Some 1%R) /\
    (allzero (row t b i) -> row t' b i = map (fun _ => None) (row t b i)).


(** The real vector [v] scaled to unit length. *)
Definition unit_of (v : list R) : list R :=
  map (fun x => (x / sqrt (Rdot v v))%R) v.

End Rows.
Import Rows.

(** ** The aggregation the design describes for the case without IDF

    As [bert_score], with the ContentMask as WeightMask on both sides. *)

Module ContentWeighted.

Local Open Scope py_scope.

Definition bert_score (bert_tokenizer : BertTokenizer) (bert_model : BertModel)
  (references candidates : list string) (output_layer_index : Z) (rescale_base : R)
  : M (vec * vec * vec) :=
  refer <- lift (sents_to_tensor bert_tokenizer references) ;;
  let '(refer_ids, refer_attention_mask, refer_content_mask) := refer in
  candi <- lift (sents_to_tensor bert_tokenizer candidates) ;;
  let '(candi_ids, candi_attention_mask, candi_content_mask) := candi in
  refer_embeds <- bert_forwarding bert_model refer_ids refer_attention_mask output_layer_index ;;
  candi_embeds <- bert_forwarding bert_model candi_ids candi_attention_mask output_layer_index ;;
  compute_RPF refer_embeds candi_embeds
    (to_float refer_content_mask) (to_float candi_content_mask)
    None None None rescale_base.

End ContentWeighted.

(** ** Uniform weighting of every position

    As [bert_score] without a table, every position of both sides carrying
    weight 1, padding and markers included. *)

Module Uniform.

Local Open Scope py_scope.

Definition ones (ids : list (list Z)) : list (list R) :=
  map (map (fun _ => 1%R)) ids.

Definition bert_score (bert_tokenizer : BertTokenizer) (bert_model : BertModel)
  (references candidates : list string) (output_layer_index : Z) (rescale_base : R)
  : M (vec * vec * vec) :=
  refer <- lift (sents_to_tensor bert_tokenizer references) ;;
  let '(refer_ids, refer_attention_mask, _) := refer in
  candi <- lift (sents_to_tensor bert_tokenizer candidates) ;;
  let '(candi_ids, candi_attention_mask, _) := candi in
  refer_embeds <- bert_forwarding bert_model refer_ids refer_attention_mask output_layer_index ;;
  candi_embeds <- bert_forwarding bert_model candi_ids candi_attention_mask output_layer_index ;;
  compute_RPF refer_embeds candi_embeds (ones refer_ids) (ones candi_ids)
    None None None rescale_base.

(** Every id of the sentence, and the padding id, has an entry in a
    table of [n] weights. *)
Definition in_table (n : nat) (id : Z) : Prop := (0 <= id < Z.of_nat n)%Z.

Definition covers (tok : BertTokenizer) (n : nat) (sents : list string) : Prop :=
  in_table n (pad_token_id tok) /\
  Forall (fun s => Forall (in_table n) (encode tok s)) sents.

End Uniform.

(** ** Tensor shapes *)

Module Dims.

(** [w] is a (B, K) matrix. *)
Definition shape2 {A} (B K : nat) (w : list (list A)) : Prop :=
  length w = B /\ Forall (fun r => length r = K) w.

(** [t] is a (B, K1, K2) tensor. *)
Definition shape3 {A} (B K1 K2 : nat) (t : list (list (list A))) : Prop :=
  length t = B /\ Forall (shape2 K1 K2) t.

End Dims.
Import Dims.

(** ** A second small world, whose tokenizer has as many entries as
    [idf.txt] has lines *)

Module Toy2.

Definition tok : BertTokenizer :=
  {| encode := encode Toy.tok;
     cls_token_id := 1; sep_token_id := 2; pad_token_id := 0;
     len := 2 |}.

Definition world : World :=
  {| tokenizer_from_pretrained := fun _ => Ok tok;
     model_from_pretrained := model_from_pretrained Toy.world;
     open_lines := fun p => if String.eqb p "bad.txt" then Ok ["1.0"; "x"]%string
                            else open_lines Toy.world p;
     py_float := py_float Toy.world |}.

End Toy2.

(** * Properties *)

Local Open Scope R_scope.

(** ** Tactics for concrete runs *)

Ltac unfold_model :=
  cbv -[Rplus Rmult Rminus Rdiv Rinv Ropp Rmax sqrt Req_dec_T IZR Rle_dec].

Ltac solve_real :=
  unfold Rmax in *; repeat (destruct (Rle_dec _ _)); try lra.

Ltac no_rmax a := lazymatch a with context [Rmax] => fail | _ => idtac end.

(** One step on the unfolded term: the norm of a unit vector, a test
    against zero, or a [max] of two closed expressions. *)
Ltac eval_step :=
  match goal with
  | |- context [sqrt ?e] =>
      let H := fresh in
      assert (H : sqrt e = 1) by (replace e with 1 by lra; apply sqrt_1);
      rewrite !H; clear H
  | |- context [Req_dec_T ?a ?b] =>
      no_rmax a;
      let E := fresh "E" in
      destruct (Req_dec_T a b) as [E|E];
      [ try (exfalso; clear -E; lra) | try (exfalso; apply E; clear E; lra) ];
      clear E; cbv beta iota
  | |- context [Rmax ?a ?b] =>
      no_rmax a; no_rmax b;
      first [ rewrite (Rmax_left a b) by lra | rewrite (Rmax_right a b) by lra ]
  end.

Ltac same_value :=
  repeat match goal with
  | |- Ok _ = Ok _ => apply f_equal
  | |- (_, _) = (_, _) => apply f_equal2
  | |- _ :: _ = _ :: _ => apply f_equal2
  | |- Some _ = Some _ => apply f_equal
  | |- @nil _ = @nil _ => reflexivity
  | |- @None _ = @None _ => reflexivity
  end;
  try solve_real.

Ltac eval_model := unfold_model; repeat eval_step; same_value.

(** ** Scalars *)

Lemma sdiv_fin (x y : R) : y <> 0 -> sdiv (Some x) (Some y) = Some (x / y).
Proof.
  intros H. unfold sdiv. destruct (Req_dec_T y 0); [contradiction | reflexivity].
Qed.

Lemma sdiv_zero (a : scalar) : sdiv a (Some 0) = None.
Proof.
  destruct a as [x|]; simpl; [|reflexivity].
  destruct (Req_dec_T 0 0) as [_|N]; [reflexivity | now destruct N].
Qed.

Lemma sadd_assoc (a b c : scalar) : sadd a (sadd b c) = sadd (sadd a b) c.
Proof. destruct a, b, c; simpl; try reflexivity. f_equal. lra. Qed.

Lemma sadd_0_l (a : scalar) : sadd (Some 0) a = a.
Proof. destruct a; simpl; try reflexivity. f_equal. lra. Qed.

Lemma ssum_lift1 (v : list R) : ssum (lift1 v) = Some (Rsum v).
Proof.
  unfold ssum, lift1.
  induction v as [|x v IH]; simpl; [reflexivity|].
  rewrite IH. reflexivity.
Qed.

Lemma ssum_app (l : list scalar) (x : scalar) : ssum (l ++ [x]) = sadd (ssum l) x.
Proof.
  unfold ssum.
  induction l as [|y l IH]; simpl.
  - destruct x; simpl; try reflexivity. f_equal. lra.
  - rewrite IH. apply sadd_assoc.
Qed.

(** ** Lists *)

Lemma map2_length {A B C} (f : A -> B -> C) l l' :
  length (map2 f l l') = Nat.min (length l) (length l').
Proof.
  revert l'. induction l as [|x l IH]; intros [|y l']; simpl; auto.
Qed.

Lemma map2_nth {A B C} (f : A -> B -> C) l l' b da db dc :
  (b < length l)%nat -> (b < length l')%nat ->
  nth b (map2 f l l') dc = f (nth b l da) (nth b l' db).
Proof.
  revert l' b. induction l as [|x l IH]; intros [|y l'] b Hl Hl'; simpl in *; try lia.
  destruct b; [reflexivity|]. apply IH; lia.
Qed.

Lemma nth_map_map {A B} (f : A -> B) (l : list (list A)) (b : nat) :
  nth b (map (map f) l) [] = map f (nth b l []).
Proof. exact (map_nth (map f) l [] b). Qed.

Lemma mapM_ok {A B} (f : A -> res B) (g : A -> B) (l : list A) :
  (forall x, In x l -> f x = Ok (g x)) -> mapM f l = Ok (map g l).
Proof.
  induction l as [|x l IH]; intros H; simpl; [reflexivity|].
  rewrite H by (simpl; auto). simpl. rewrite IH by (intros; apply H; simpl; auto).
  reflexivity.
Qed.

Lemma mapM_length {A B} (f : A -> res B) (l : list A) (l' : list B) :
  mapM f l = Ok l' -> length l' = length l.
Proof.
  revert l'. induction l as [|x l IH]; intros l' H; simpl in H.
  - inversion H. reflexivity.
  - destruct (f x); simpl in H; [|discriminate].
    destruct (mapM f l); simpl in H; [|discriminate].
    inversion H. simpl. f_equal. now apply IH.
Qed.

Lemma shape3_nth {A} (B K1 K2 : nat) (t : list (list (list A))) (b : nat) :
  shape3 B K1 K2 t -> (b < B)%nat -> shape2 K1 K2 (nth b t []).
Proof.
  intros [Hl Hf] Hb. rewrite Forall_nth in Hf. apply Hf. lia.
Qed.

Lemma shape2_nth {A} (B K : nat) (w : list (list A)) (b : nat) :
  shape2 B K w -> (b < B)%nat -> length (nth b w []) = K.
Proof.
  intros [Hl Hf] Hb. rewrite Forall_nth in Hf. apply Hf. lia.
Qed.

(** ** The store *)

Lemma write_length l t h : length (write l t h) = length h.
Proof.
  revert l. induction h as [|x h IH]; intros [|l]; simpl; auto.
Qed.

Lemma read_write_same l t h : (l < length h)%nat -> read l (write l t h) = t.
Proof.
  unfold read. revert l. induction h as [|x h IH]; intros [|l] H; simpl in *; try lia.
  - reflexivity.
  - apply IH. lia.
Qed.

Lemma read_write_other l l' t h : l <> l' -> read l (write l' t h) = read l h.
Proof.
  unfold read. revert l l'.
  induction h as [|x h IH]; intros [|l] [|l'] H; simpl;
    try reflexivity; try congruence.
  apply IH. congruence.
Qed.

Lemma compute_pairwise_cosine_eq (re ce : loc) (h : heap) :
  compute_pairwise_cosine re ce h =
  let h1 := write re (div_norm (read re h)) h in
  let h2 := write ce (div_norm (read ce h1)) h1 in
  match bmm_permute (read re h2) (read ce h2) with
  | Ok pc => Ok (pc, h2)
  | Raise e => Raise e
  end.
Proof. reflexivity. Qed.

Lemma compute_RPF_eq re ce wr wc rids cids idf base (h : heap) :
  compute_RPF re ce wr wc rids cids idf base h =
  match compute_pairwise_cosine re ce h with
  | Ok (pc, h') =>
      match RPF_of pc wr wc rids cids idf base with
      | Ok v => Ok (v, h')
      | Raise e => Raise e
      end
  | Raise e => Raise e
  end.
Proof.
  unfold compute_RPF, RPF_of, bind at 1.
  destruct (compute_pairwise_cosine re ce h) as [[pc h']|e]; [|reflexivity].
  unfold bind, lift, ret.
  destruct (max_dim2 pc); simpl; [|reflexivity].
  destruct (max_dim1 pc); simpl; [|reflexivity].
  destruct idf as [t|]; [destruct rids as [ri|]; [destruct cids as [ci|]|]|]; simpl;
    try reflexivity.
  destruct (apply_idf ri t); simpl; [|reflexivity].
  destruct (apply_idf ci t); simpl; reflexivity.
Qed.

(** ** Real vectors and normalisation *)

Lemma Rdot_cons x u y v : Rdot (x :: u) (y :: v) = x * y + Rdot u v.
Proof. reflexivity. Qed.

Lemma Rdot_self_nonneg (v : list R) : 0 <= Rdot v v.
Proof.
  induction v as [|x v IH]; [unfold Rdot; simpl; lra|].
  rewrite Rdot_cons. nra.
Qed.

Lemma Rdot_self_pos (v : list R) : Exists (fun x => x <> 0) v -> 0 < Rdot v v.
Proof.
  induction 1 as [x v H | x v H IH]; rewrite Rdot_cons.
  - pose proof (Rdot_self_nonneg v). nra.
  - nra.
Qed.

Lemma Rdot_self_zero (v : list R) : Forall (fun x => x = 0) v -> Rdot v v = 0.
Proof.
  induction 1 as [|x v H _ IH]; [reflexivity|].
  rewrite Rdot_cons, IH, H. lra.
Qed.

Lemma Rdot_nil_l (v : list R) : Rdot [] v = 0.
Proof. reflexivity. Qed.

Lemma Rdot_nil_r (u : list R) : Rdot u [] = 0.
Proof. destruct u; reflexivity. Qed.

(** Half of the Cauchy-Schwarz bound, enough for unit vectors. *)
Lemma Rdot_le_squares (u v : list R) : 2 * Rdot u v <= Rdot u u + Rdot v v.
Proof.
  revert v. induction u as [|x u IH]; intros [|y v].
  - rewrite Rdot_nil_l. lra.
  - pose proof (Rdot_self_nonneg (y :: v)). rewrite !Rdot_nil_l. lra.
  - pose proof (Rdot_self_nonneg (x :: u)). rewrite !Rdot_nil_r. lra.
  - rewrite !Rdot_cons. specialize (IH v).
    pose proof (Rle_0_sqr (x - y)) as Hsq. unfold Rsqr in Hsq. nra.
Qed.

Lemma Rdot_unit_le_1 (u v : list R) : Rdot u u = 1 -> Rdot v v = 1 -> Rdot u v <= 1.
Proof. intros Hu Hv. pose proof (Rdot_le_squares u v). lra. Qed.

Lemma Rdot_scale (u v : list R) (n m : R) :
  n <> 0 -> m <> 0 ->
  Rdot (map (fun x => x / n) u) (map (fun x => x / m) v) = Rdot u v / (n * m).
Proof.
  intros Hn Hm. revert v. induction u as [|x u IH]; intros [|y v];
    try (unfold Rdot; simpl; field; auto).
  simpl map. rewrite !Rdot_cons, IH. field. auto.
Qed.

Lemma dot_lift1 (u v : list R) : dot (lift1 u) (lift1 v) = Some (Rdot u v).
Proof.
  unfold dot, ssum, Rdot, Rsum, lift1.
  revert v. induction u as [|x u IH]; intros [|y v]; simpl; try reflexivity.
  rewrite IH. reflexivity.
Qed.

Lemma norm_lift1 (v : list R) : norm (lift1 v) = Some (sqrt (Rdot v v)).
Proof.
  unfold norm.
  assert (E : ssum (map (fun x => smul x x) (lift1 v)) = Some (Rdot v v)).
  { unfold ssum, Rdot, Rsum, lift1.
    induction v as [|x v IH]; simpl; [reflexivity|]. rewrite IH. reflexivity. }
  rewrite E. reflexivity.
Qed.

(** A row with a non-zero entry is divided by its positive norm. *)
Lemma div_norm_row_fin (v : list R) :
  Exists (fun x => x <> 0) v ->
  div_norm_row (lift1 v) = lift1 (map (fun x => x / sqrt (Rdot v v)) v).
Proof.
  intros H. unfold div_norm_row. rewrite norm_lift1.
  assert (Hn : sqrt (Rdot v v) <> 0).
  { pose proof (sqrt_lt_R0 _ (Rdot_self_pos H)). lra. }
  unfold lift1. rewrite !map_map. apply map_ext. intros x. now apply sdiv_fin.
Qed.

(** An all-zero row has norm 0: every entry becomes [0/0]. *)
Lemma div_norm_row_zero (v : list R) :
  Forall (fun x => x = 0) v ->
  div_norm_row (lift1 v) = map (fun _ => None) v.
Proof.
  intros H. unfold div_norm_row. rewrite norm_lift1, (Rdot_self_zero H), sqrt_0.
  unfold lift1. rewrite map_map. apply map_ext. intros x. apply sdiv_zero.
Qed.

Lemma Rdot_normalised (v : list R) :
  Exists (fun x => x <> 0) v ->
  Rdot (map (fun x => x / sqrt (Rdot v v)) v) (map (fun x => x / sqrt (Rdot v v)) v) = 1.
Proof.
  intros H. pose proof (Rdot_self_pos H) as Hp.
  pose proof (sqrt_lt_R0 _ Hp) as Hs.
  rewrite Rdot_scale by lra. rewrite sqrt_sqrt by lra. field. lra.
Qed.

(** After the division a non-zero row has unit L2 norm. *)
Lemma norm_div_norm_row (v : list R) :
  Exists (fun x => x <> 0) v -> norm (div_norm_row (lift1 v)) = Some 1.
Proof.
  intros H. rewrite (div_norm_row_fin H), norm_lift1, (Rdot_normalised H), sqrt_1.
  reflexivity.
Qed.

(** ** [compute_pairwise_cosine] and the store *)

Lemma row_div_norm_lift3 (t : list (list (list R))) (b i : nat) :
  row (div_norm (lift3 t)) b i = div_norm_row (lift1 (row t b i)).
Proof.
  unfold row, div_norm, lift3, lift2. rewrite map_map.
  assert (E : nth b (map (fun x => map div_norm_row (map lift1 x)) t) [] =
              map div_norm_row (map lift1 (nth b t []))).
  { exact (map_nth (fun x => map div_norm_row (map lift1 x)) t [] b). }
  unfold vec in *. rewrite E, map_map.
  exact (map_nth (fun x => div_norm_row (lift1 x)) (nth b t []) [] i).
Qed.

Lemma sq_min_pos : 0 < sq_min.
Proof. unfold sq_min. apply Rinv_0_lt_compat, pow_lt. lra. Qed.

Lemma sq_max_large : 1024 <= sq_max.
Proof.
  unfold sq_max. replace (2 ^ 100) with (2 ^ 10 * 2 ^ 90) by (rewrite <- pow_add; reflexivity).
  assert (1 <= 2 ^ 90) by (apply pow_R1_Rle; lra).
  assert (E : 2 ^ 10 = 1024) by (simpl; lra). rewrite E. lra.
Qed.

Lemma sq_min_small : sq_min <= / 1024.
Proof.
  unfold sq_min. apply Rinv_le_contravar; [lra | apply sq_max_large].
Qed.

(** Rows whose sum of squares is between 1/1024 and 1024 are well within
    range. *)
Lemma in_range_between (v : list R) : / 1024 <= Rdot v v <= 1024 -> in_range v.
Proof.
  intros [H1 H2]. pose proof sq_min_small. pose proof sq_max_large.
  unfold in_range. lra.
Qed.

Lemma in_range_unit (v : list R) : Rdot v v = 1 -> in_range v.
Proof. intros H. apply in_range_between. rewrite H. lra. Qed.

Lemma weight_in_range_between (w : R) : / 1024 <= w <= 1024 -> weight_in_range w.
Proof.
  intros [H1 H2]. right.
  assert (L : 1024 <= 2 ^ 50).
  { replace (2 ^ 50) with (2 ^ 10 * 2 ^ 40) by (rewrite <- pow_add; reflexivity).
    assert (1 <= 2 ^ 40) by (apply pow_R1_Rle; lra).
    assert (E : 2 ^ 10 = 1024) by (simpl; lra). rewrite E. lra. }
  assert (S : / 2 ^ 50 <= / 1024) by (apply Rinv_le_contravar; lra).
  lra.
Qed.

Lemma zero_or_nonzero (v : list R) : allzero v \/ nonzero v.
Proof.
  induction v as [|x v [IH|IH]].
  - left. constructor.
  - destruct (Req_dec_T x 0) as [E|E].
    + left. now constructor.
    + right. now apply Exists_cons_hd.
  - right. now apply Exists_cons_tl.
Qed.

Lemma in_range_nonzero (v : list R) : in_range v -> nonzero v.
Proof.
  intros [H _]. destruct (zero_or_nonzero v) as [Z|N]; [|exact N].
  rewrite (Rdot_self_zero Z) in H. pose proof sq_min_pos. lra.
Qed.

Lemma normalised_from_div_norm (t : list (list (list R))) :
  normalised_from t (div_norm (lift3 t)).
Proof.
  intros b i. rewrite row_div_norm_lift3. split.
  - intros H. apply norm_div_norm_row. now apply in_range_nonzero.
  - apply div_norm_row_zero.
Qed.


Lemma div_norm_length (t : tensor3) : length (div_norm t) = length t.
Proof. apply length_map. Qed.

(** The final store of [compute_pairwise_cosine] on two distinct tensors. *)
Lemma compute_pairwise_cosine_store (h : heap) (re ce : loc) :
  (re < length h)%nat -> (ce < length h)%nat -> re <> ce ->
  length (read re h) = length (read ce h) ->
  exists pc h',
    compute_pairwise_cosine re ce h = Ok (pc, h') /\
    pc = map2 matmul_t (div_norm (read re h)) (div_norm (read ce h)) /\
    read re h' = div_norm (read re h) /\
    read ce h' = div_norm (read ce h) /\
    forall l, l <> re -> l <> ce -> read l h' = read l h.
Proof.
  intros Hre Hce Hne Hlen.
  rewrite compute_pairwise_cosine_eq. cbv zeta.
  set (h1 := write re (div_norm (read re h)) h).
  set (h2 := write ce (div_norm (read ce h1)) h1).
  assert (E1 : read ce h1 = read ce h) by (apply read_write_other; auto).
  assert (Er : read re h2 = div_norm (read re h)).
  { unfold h2. rewrite read_write_other by auto. now apply read_write_same. }
  assert (Ec : read ce h2 = div_norm (read ce h)).
  { unfold h2. rewrite read_write_same by (unfold h1; now rewrite write_length).
    now rewrite E1. }
  rewrite Er, Ec. unfold bmm_permute.
  rewrite !div_norm_length, Hlen, Nat.eqb_refl.
  eexists _, h2. repeat split; auto.
  intros l Hl1 Hl2. unfold h2, h1. now rewrite !read_write_other by auto.
Qed.

Lemma length_lift3 (t : list (list (list R))) : length (lift3 t) = length t.
Proof. unfold lift3. apply length_map. Qed.



(** C7, counterexample.  An all-zero embedding row is [nan] after the
    call, and so is every cosine computed from it. *)
Lemma zero_row_becomes_nan :
  compute_pairwise_cosine 0%nat 1%nat [lift3 [[[0; 0]]]; lift3 [[[1; 0]]]] =
  Ok ([[[None]]], [[[[None; None]]]; [[[Some 1; Some 0]]]]).
Proof.
  unfold_model.
  assert (H0 : sqrt (0 * 0 + (0 * 0 + 0)) = 0) by
    (replace (0 * 0 + (0 * 0 + 0)) with 0 by lra; apply sqrt_0).
  assert (H1 : sqrt (1 * 1 + (0 * 0 + 0)) = 1) by
    (replace (1 * 1 + (0 * 0 + 0)) with 1 by lra; apply sqrt_1).
  rewrite !H0, !H1. repeat eval_step. same_value.
Qed.

Lemma at3_matmul (A C : tensor3) (b i j : nat) :
  (b < length A)%nat -> (b < length C)%nat ->
  (i < length (nth b A []))%nat -> (j < length (nth b C []))%nat ->
  Reference.at3 (map2 matmul_t A C) b i j = dot (row A b i) (row C b j).
Proof.
  intros Ha Hc Hi Hj. unfold Reference.at3, row.
  rewrite (map2_nth matmul_t A C [] [] []) by assumption.
  unfold matmul_t.
  rewrite (nth_indep _ [] ((fun u => map (fun v => dot u v) (nth b C [])) []))
    by (rewrite length_map; exact Hi).
  rewrite (map_nth (fun u => map (fun v => dot u v) (nth b C [])) (nth b A []) [] i).
  rewrite (nth_indep _ None ((fun v => dot (nth i (nth b A []) []) v) []))
    by (rewrite length_map; exact Hj).
  exact (map_nth (fun v => dot (nth i (nth b A []) []) v) (nth b C []) [] j).
Qed.

Lemma length_div_norm_row (v : vec) : length (div_norm_row v) = length v.
Proof. apply length_map. Qed.

(** The dot product with a row that is [nan] throughout is [nan]. *)
Lemma dot_nan_l (A : Type) (l : list A) (v : vec) :
  l <> [] -> v <> [] -> dot (map (fun _ => None) l) v = None.
Proof. destruct l, v; try congruence. reflexivity. Qed.

Lemma dot_nan_r (A : Type) (l : list A) (u : vec) :
  l <> [] -> u <> [] -> dot u (map (fun _ => None) l) = None.
Proof.
  destruct l, u as [|x u]; try congruence. intros _ _.
  unfold dot. simpl. destruct x; reflexivity.
Qed.

Lemma length_row_div_norm_lift3 (t : list (list (list R))) (b i : nat) :
  length (row (div_norm (lift3 t)) b i) = length (row t b i).
Proof.
  rewrite row_div_norm_lift3, length_div_norm_row. unfold lift1. apply length_map.
Qed.

Lemma length_nth_div_norm_lift3 (t : list (list (list R))) (b : nat) :
  length (nth b (div_norm (lift3 t)) []) = length (nth b t []).
Proof.
  unfold div_norm, lift3, lift2. rewrite map_map.
  transitivity (length (map (fun r => div_norm_row (lift1 r)) (nth b t []))).
  - f_equal.
    transitivity (nth b (map (fun x => map (fun r => div_norm_row (lift1 r)) x) t) []).
    + f_equal. apply map_ext. intros x. now rewrite map_map.
    + exact (map_nth (fun x => map (fun r => div_norm_row (lift1 r)) x) t [] b).
  - apply length_map.
Qed.

(** C7, as the code has it.  After [compute_pairwise_cosine] on two
    tensors of finite entries, shaped (B, K_i, D) and (B, K_r, D) with
    [0 < D]: every row that was in range has L2 norm 1; every row that was
    all zero is [nan] in each entry, the norm not being floored, and every
    cosine computed from such a row is [nan]. *)
Theorem normalised_rows_unit_or_nan (h : heap) (re ce : loc)
  (tr tc : list (list (list R))) (B K_i K_r D : nat) :
  (re < length h)%nat -> (ce < length h)%nat -> re <> ce ->
  read re h = lift3 tr -> read ce h = lift3 tc ->
  shape3 B K_i D tr -> shape3 B K_r D tc -> (0 < D)%nat ->
  exists pc h',
    compute_pairwise_cosine re ce h = Ok (pc, h') /\
    normalised_from tr (read re h') /\
    normalised_from tc (read ce h') /\
    forall b i j, (b < B)%nat -> (i < K_i)%nat -> (j < K_r)%nat ->
      allzero (row tr b i) \/ allzero (row tc b j) ->
      Reference.at3 pc b i j = None.
Proof.
  intros Hre Hce Hne Hr Hc Sr Sc HD.
  assert (Lr : length tr = B) by apply Sr.
  assert (Lc : length tc = B) by apply Sc.
  assert (Hl : length (read re h) = length (read ce h)).
  { rewrite Hr, Hc, !length_lift3. lia. }
  destruct (compute_pairwise_cosine_store h Hre Hce Hne Hl)
    as (pc & h' & Hrun & Epc & Er & Ec & _).
  exists pc, h'. rewrite Er, Ec, Hr, Hc.
  split; [exact Hrun|]. split; [apply normalised_from_div_norm|].
  split; [apply normalised_from_div_norm|].
  intros b i j Hb Hi Hj Hz. rewrite Epc, Hr, Hc.
  pose proof (shape3_nth Sr Hb) as Sbr. pose proof (shape3_nth Sc Hb) as Sbc.
  assert (Lbr : length (nth b tr []) = K_i) by apply Sbr.
  assert (Lbc : length (nth b tc []) = K_r) by apply Sbc.
  assert (Dr : length (row tr b i) = D) by (apply (shape2_nth Sbr Hi)).
  assert (Dc : length (row tc b j) = D) by (apply (shape2_nth Sbc Hj)).
  rewrite at3_matmul
    by (rewrite ?div_norm_length, ?length_lift3, ?length_nth_div_norm_lift3; lia).
  assert (Nr : row (div_norm (lift3 tr)) b i <> []).
  { intros E. apply (f_equal (@length _)) in E.
    rewrite length_row_div_norm_lift3, Dr in E. simpl in E. lia. }
  assert (Nc : row (div_norm (lift3 tc)) b j <> []).
  { intros E. apply (f_equal (@length _)) in E.
    rewrite length_row_div_norm_lift3, Dc in E. simpl in E. lia. }
  destruct Hz as [Hz|Hz].
  - rewrite (row_div_norm_lift3 tr), (div_norm_row_zero Hz).
    apply dot_nan_l; [|exact Nc]. intros E. rewrite E in Dr. simpl in Dr. lia.
  - rewrite (row_div_norm_lift3 tc), (div_norm_row_zero Hz).
    apply dot_nan_r; [|exact Nr]. intros E. rewrite E in Dc. simpl in Dc. lia.
Qed.

Lemma normalised_rows_unit_or_nan_witness :
  exists pc h',
    compute_pairwise_cosine 0%nat 1%nat [lift3 [[[3; 4]; [0; 0]]]; lift3 [[[1; 0]]]] = Ok (pc, h') /\
    normalised_from [[[3; 4]; [0; 0]]] (read 0%nat h') /\
    normalised_from [[[1; 0]]] (read 1%nat h') /\
    forall b i j, (b < 1)%nat -> (i < 2)%nat -> (j < 1)%nat ->
      allzero (row [[[3; 4]; [0; 0]]] b i) \/ allzero (row [[[1; 0]]] b j) ->
      Reference.at3 pc b i j = None.
Proof.
  apply (@normalised_rows_unit_or_nan
           [lift3 [[[3; 4]; [0; 0]]]; lift3 [[[1; 0]]]] 0%nat 1%nat
           [[[3; 4]; [0; 0]]] [[[1; 0]]] 1%nat 2%nat 1%nat 2%nat);
    try (simpl; lia); try reflexivity; try discriminate;
    repeat (split || constructor).
Defined.

(** ** Runs on the small tokenizer and encoder

    Token ids: [a] is [1; 3; 2], [c] is [1; 4; 2]; the embeddings of 1, 2
    and 4 are (0, 1), that of 3 is (4/5, 3/5), that of the padding id 0 is
    (1, 0). *)

Section Runs.

Local Open Scope string_scope.

Lemma run_a_c :
  run (bert_score Toy.tok Toy.model ["a"] ["c"] None (-1) 0) [] =
  Ok ([Some (3/5)], [Some 1], [Some (3/4)]).
Proof. eval_model. Qed.

Lemma run_c_a :
  run (bert_score Toy.tok Toy.model ["c"] ["a"] None (-1) 0) [] =
  Ok ([Some 1], [Some (13/15)], [Some (13/14)]).
Proof. eval_model. Qed.

Lemma run_c_a_content :
  run (ContentWeighted.bert_score Toy.tok Toy.model ["c"] ["a"] (-1) 0) [] =
  Ok ([Some 1], [Some (3/5)], [Some (3/4)]).
Proof. eval_model. Qed.


(** C1.  Without an IDF table the candidate side is aggregated with the
    attention mask, not the ContentMask: for reference [c] and candidate
    [a] the precision is the average 13/15 of PrecisionMax over the begin
    marker, the token and the end marker, where the ContentMask average is
    3/5 (recall is 1 either way). *)
Theorem precision_aggregates_over_attention_mask :
  run (bert_score Toy.tok Toy.model ["c"] ["a"] None (-1) 0) [] =
    Ok ([Some 1], [Some (13/15)], [Some (13/14)]) /\
  run (ContentWeighted.bert_score Toy.tok Toy.model ["c"] ["a"] (-1) 0) [] =
    Ok ([Some 1], [Some (3/5)], [Some (3/4)]).
Proof. split; [apply run_c_a | apply run_c_a_content]. Qed.

(** C5.  Swapping the lists does not swap recall and precision: for
    ([a], [c]) the scores are R = 3/5, P = 1, F = 3/4; for ([c], [a]) they
    are R = 1, P = 13/15, F = 13/14. *)
Theorem swap_changes_scores :
  run (bert_score Toy.tok Toy.model ["a"] ["c"] None (-1) 0) [] =
    Ok ([Some (3/5)], [Some 1], [Some (3/4)]) /\
  run (bert_score Toy.tok Toy.model ["c"] ["a"] None (-1) 0) [] =
    Ok ([Some 1], [Some (13/15)], [Some (13/14)]).
Proof. split; [apply run_a_c | apply run_c_a]. Qed.

(** C3.  The pair ([a], [c]) scores 8/9 when it shares a batch with
    ([a], [cc]), whose longer candidate pads [c] by one position, and 3/4
    when it is scored alone. *)
Theorem batch_size_changes_scores :
  run (BERTScore.score Toy.scorer ["a"; "a"] ["c"; "cc"] 2 true) [] =
    Ok [Some (8/9); Some (3/4)] /\
  run (BERTScore.score Toy.scorer ["a"; "a"] ["c"; "cc"] 1 true) [] =
    Ok [Some (3/4); Some (3/4)].
Proof. split; eval_model. Qed.


(** C6, counterexample.  The empty sentence scored against itself: both
    token sequences are the two markers, the reference ContentMask is all
    zero, and recall and F1 are not numbers. *)
Lemma identical_empty_sentences_not_one :
  run (bert_score Toy.tok Toy.model [""] [""] None (-1) 0) [] =
  Ok ([None], [Some 1], [None]).
Proof. eval_model. Qed.

(** C6, a second run.  With a table that gives weight to the padding id,
    the identical pair ([a], [a]) no longer has recall 1 once its batch
    pads the reference: the two padding positions of the reference carry
    weight and have no equal on the candidate side. *)
Lemma identical_pair_weighted_padding :
  run (bert_score Toy.tok Toy.model ["a"; "ccc"] ["a"; "c"] (Some [1; 1; 1; 1; 1]) (-1) 0) [] =
  Ok ([Some (23/25); Some 1], [Some 1; Some 1], [Some (23/24); Some 1]).
Proof. eval_model. Qed.

(** C9, counterexample.  One reference against two candidates: no error,
    the second candidate is never looked at. *)
Lemma unequal_lengths_no_error :
  length ["c"] <> length ["a"; "c"] /\
  run (BERTScore.score Toy.scorer ["c"] ["a"; "c"] 128 true) [] = Ok [Some (13/14)].
Proof. split; [discriminate | eval_model]. Qed.

(** C8.  Two IDF lines against a vocabulary of five: the constructor stops
    with [NameError], raised while the message of the intended
    [ValueError] is built. *)
Theorem idf_size_mismatch_raises_NameError :
  BERTScore.__init__ Toy.world "bert" (-1) (Some "idf.txt") 0 = Raise NameError.
Proof. reflexivity. Qed.

End Runs.

(** ** [BERTScore.score] and the lengths of its lists *)

Lemma py_slice_firstn {A} (l : list A) (n b e : nat) :
  (e <= n)%nat -> py_slice (firstn n l) b e = py_slice l b e.
Proof.
  intros H. unfold py_slice.
  rewrite skipn_firstn_comm, firstn_firstn.
  f_equal. lia.
Qed.

(** One turn of the loop of [score]. *)
Lemma score_loop_cons (s : BERTScore.self) (references candidates : list string)
  (bs n : nat) (step : nat) (steps : list nat) (F : vec) (h : heap) :
  BERTScore.score_loop s references candidates bs n (step :: steps) F h =
  match bert_score (BERTScore.tokenizer s) (BERTScore.encoder s)
          (py_slice references (step * bs) (Nat.min ((step + 1) * bs) n))
          (py_slice candidates (step * bs) (Nat.min ((step + 1) * bs) n))
          (BERTScore.idf s) (-1) (BERTScore.rescale_base s) h with
  | Raise e => Raise e
  | Ok (rpf, h1) =>
      if BERTScore.requires_grad s then Raise RuntimeError
      else BERTScore.score_loop s references candidates bs n steps (F ++ snd rpf) h1
  end.
Proof.
  cbn [BERTScore.score_loop]. unfold bind at 1.
  destruct (bert_score _ _ _ _ _ _ _ h) as [[rpf h1]|e]; [|reflexivity].
  unfold bind, lift, BERTScore.numpy. destruct (BERTScore.requires_grad s); reflexivity.
Qed.

Lemma score_loop_firstn (s : BERTScore.self) (references candidates : list string)
  (batch_size : nat) (steps : list nat) (F : vec) (h : heap) :
  BERTScore.score_loop s references candidates batch_size (length references) steps F h =
  BERTScore.score_loop s references (firstn (length references) candidates)
    batch_size (length references) steps F h.
Proof.
  revert F h. induction steps as [|step steps IH]; intros F h; [reflexivity|].
  rewrite !score_loop_cons.
  rewrite py_slice_firstn by apply Nat.le_min_r.
  destruct (bert_score _ _ _ _ _ _ _ h) as [[rpf h']|e]; [|reflexivity].
  destruct (BERTScore.requires_grad s); [reflexivity|].
  apply IH.
Qed.

(** C9, as the code has it.  [score] never compares the two lengths: the
    number of examples is the number of references, and candidates beyond
    it are not read.  Scoring against a longer candidate list is scoring
    against its first [len(references)] entries, result and final store
    alike. *)
Theorem score_ignores_surplus_candidates (s : BERTScore.self)
  (references candidates : list string) (batch_size : Z) (verbose : bool) (h : heap) :
  BERTScore.score s references candidates batch_size verbose h =
  BERTScore.score s references (firstn (length references) candidates)
    batch_size verbose h.
Proof.
  unfold BERTScore.score, bind, lift.
  destruct (BERTScore.n_batch (length references) batch_size); [|reflexivity].
  apply score_loop_firstn.
Qed.

(** ** [bert_score] as a pure function of its arguments *)

Lemma read_app (h l : heap) (k : nat) : read (length h + k)%nat (h ++ l) = read k l.
Proof.
  unfold read. rewrite app_nth2 by lia. f_equal. lia.
Qed.

Lemma write_app (h l : heap) (k : nat) (t : tensor3) :
  write (length h + k)%nat t (h ++ l) = h ++ write k t l.
Proof.
  induction h as [|x h IH]; simpl; [reflexivity|].
  destruct l as [|y l]; simpl.
  - rewrite app_nil_r in *. simpl in IH. now rewrite IH.
  - now rewrite IH.
Qed.

Lemma read_app_0 (h l : heap) : read (length h) (h ++ l) = read 0%nat l.
Proof. rewrite <- (read_app h l 0). f_equal. lia. Qed.

Lemma read_app_1 (h l : heap) : read (S (length h)) (h ++ l) = read 1%nat l.
Proof. rewrite <- (read_app h l 1). f_equal. lia. Qed.

Lemma write_app_0 (h l : heap) t : write (length h) t (h ++ l) = h ++ write 0%nat t l.
Proof. rewrite <- (write_app h l 0). f_equal. lia. Qed.

Lemma write_app_1 (h l : heap) t : write (S (length h)) t (h ++ l) = h ++ write 1%nat t l.
Proof. rewrite <- (write_app h l 1). f_equal. lia. Qed.

Lemma read_write_two (a b : tensor3) :
  read 0%nat [a; b] = a /\ read 1%nat [a; b] = b /\
  (forall t, write 0%nat t [a; b] = [t; b]) /\
  (forall t, write 1%nat t [a; b] = [a; t]).
Proof. repeat split. Qed.

(** Normalising two new tensors and multiplying them. *)
Lemma compute_pairwise_cosine_fresh (h : heap) (tr tc : tensor3) :
  compute_pairwise_cosine (length h) (S (length h)) (h ++ [tr; tc]) =
  match bmm_permute (div_norm tr) (div_norm tc) with
  | Ok pc => Ok (pc, h ++ [div_norm tr; div_norm tc])
  | Raise e => Raise e
  end.
Proof.
  rewrite compute_pairwise_cosine_eq. cbv zeta.
  rewrite read_app_0, write_app_0.
  destruct (read_write_two tr tc) as (-> & _ & -> & _).
  rewrite read_app_1, write_app_1.
  destruct (read_write_two (div_norm tr) tc) as (_ & -> & _ & ->).
  rewrite read_app_0, read_app_1.
  destruct (read_write_two (div_norm tr) (div_norm tc)) as (-> & -> & _ & _).
  reflexivity.
Qed.

(** The shape shared by [bert_score] and its variants: two forwardings,
    then [compute_RPF] on the two new tensors. *)
Lemma forward_then_RPF_eq m rids ratt cids catt idx wr wc orids ocids idf base (h : heap) :
  bind (bert_forwarding m rids ratt idx) (fun re =>
  bind (bert_forwarding m cids catt idx) (fun ce =>
  compute_RPF re ce wr wc orids ocids idf base)) h =
  match py_index (hidden_states m rids ratt) idx with
  | Raise e => Raise e
  | Ok tr =>
    match py_index (hidden_states m cids catt) idx with
    | Raise e => Raise e
    | Ok tc =>
      match bmm_permute (div_norm (lift3 tr)) (div_norm (lift3 tc)) with
      | Raise e => Raise e
      | Ok pc =>
        match RPF_of pc wr wc orids ocids idf base with
        | Raise e => Raise e
        | Ok v => Ok (v, h ++ [div_norm (lift3 tr); div_norm (lift3 tc)])
        end
      end
    end
  end.
Proof.
  unfold bind at 1, bert_forwarding at 1, bind at 1, lift at 1.
  destruct (py_index (hidden_states m rids ratt) idx) as [tr|e]; [|reflexivity].
  unfold alloc at 1.
  unfold bind at 1, bert_forwarding at 1, bind at 1, lift at 1.
  destruct (py_index (hidden_states m cids catt) idx) as [tc|e]; [|reflexivity].
  unfold alloc at 1.
  rewrite compute_RPF_eq.
  rewrite <- app_assoc. simpl app.
  rewrite length_app. simpl length.
  replace (length h + 1)%nat with (S (length h)) by lia.
  rewrite compute_pairwise_cosine_fresh.
  destruct (bmm_permute (div_norm (lift3 tr)) (div_norm (lift3 tc))); reflexivity.
Qed.

(** [sents_to_tensor] refuses the empty list and returns the padded
    tensors of any other. *)
Lemma sents_to_tensor_nonempty (tok : BertTokenizer) (sents : list string) :
  sents <> [] -> sents_to_tensor tok sents = Ok (tensors tok sents).
Proof. destruct sents; [congruence | reflexivity]. Qed.

Lemma sents_to_tensor_ok (tok : BertTokenizer) (sents : list string) t :
  sents_to_tensor tok sents = Ok t -> sents <> [] /\ t = tensors tok sents.
Proof.
  destruct sents; [discriminate|]. intros H. split; [discriminate|].
  rewrite sents_to_tensor_nonempty in H by discriminate. now inversion H.
Qed.

Lemma sents_to_tensor_raises (tok : BertTokenizer) (sents : list string) e :
  sents_to_tensor tok sents = Raise e -> sents = [] /\ e = ValueError.
Proof.
  destruct sents; [intros H; split; [reflexivity | now inversion H]|].
  rewrite sents_to_tensor_nonempty by discriminate. discriminate.
Qed.

Lemma bert_score_eq tok m refs cands idf idx base (h : heap) :
  bert_score tok m refs cands idf idx base h =
  match sents_to_tensor tok refs with
  | Raise e => Raise e
  | Ok rt =>
    match sents_to_tensor tok cands with
    | Raise e => Raise e
    | Ok ct =>
      match py_index (hidden_states m (fst (fst rt)) (snd (fst rt))) idx with
      | Raise e => Raise e
      | Ok tr =>
        match py_index (hidden_states m (fst (fst ct)) (snd (fst ct))) idx with
        | Raise e => Raise e
        | Ok tc =>
          match bmm_permute (div_norm (lift3 tr)) (div_norm (lift3 tc)) with
          | Raise e => Raise e
          | Ok pc =>
            match RPF_of pc (to_float (snd rt)) (to_float (snd (fst ct)))
                    (Some (fst (fst rt))) (Some (fst (fst ct))) idf base with
            | Raise e => Raise e
            | Ok v => Ok (v, h ++ [div_norm (lift3 tr); div_norm (lift3 tc)])
            end
          end
        end
      end
    end
  end.
Proof.
  unfold bert_score. unfold bind at 1, lift at 1.
  destruct (sents_to_tensor tok refs) as [[[rids ratt] rw]|e]; [|reflexivity].
  unfold bind at 1, lift at 1.
  destruct (sents_to_tensor tok cands) as [[[cids catt] cw]|e]; [|reflexivity].
  apply forward_then_RPF_eq.
Qed.

(** On two lists the tokenizer accepts. *)
Lemma bert_score_eq_nonempty tok m refs cands idf idx base (h : heap) :
  refs <> [] -> cands <> [] ->
  bert_score tok m refs cands idf idx base h =
  let rt := tensors tok refs in
  let ct := tensors tok cands in
  match py_index (hidden_states m (fst (fst rt)) (snd (fst rt))) idx with
  | Raise e => Raise e
  | Ok tr =>
    match py_index (hidden_states m (fst (fst ct)) (snd (fst ct))) idx with
    | Raise e => Raise e
    | Ok tc =>
      match bmm_permute (div_norm (lift3 tr)) (div_norm (lift3 tc)) with
      | Raise e => Raise e
      | Ok pc =>
        match RPF_of pc (to_float (snd rt)) (to_float (snd (fst ct)))
                (Some (fst (fst rt))) (Some (fst (fst ct))) idf base with
        | Raise e => Raise e
        | Ok v => Ok (v, h ++ [div_norm (lift3 tr); div_norm (lift3 tc)])
        end
      end
    end
  end.
Proof.
  intros Hr Hc.
  rewrite bert_score_eq, (sents_to_tensor_nonempty tok Hr), (sents_to_tensor_nonempty tok Hc).
  reflexivity.
Qed.


(** ** A constant IDF table *)


Lemma padded_ids_in_table (tok : BertTokenizer) (n : nat) (sents : list string) :
  Uniform.covers tok n sents ->
  Forall (Forall (Uniform.in_table n)) (fst (fst (tensors tok sents))).
Proof.
  intros [Hpad Hs]. unfold tensors, pad_batch. cbn [fst snd].
  rewrite map_map. apply Forall_map. eapply Forall_impl; [|exact Hs].
  intros s Hin. apply Forall_app. split; [exact Hin|].
  apply Forall_forall. intros x Hx. apply repeat_spec in Hx. now subst.
Qed.








(** ** The list reductions and their indexed readings *)

Lemma sum_over_ext (n : nat) (f g : nat -> scalar) :
  (forall i, (i < n)%nat -> f i = g i) ->
  Reference.sum_over n f = Reference.sum_over n g.
Proof.
  induction n as [|n IH]; intros H; simpl; [reflexivity|].
  rewrite IH by (intros; apply H; lia). rewrite H by lia. reflexivity.
Qed.

Lemma max_over_ext (n : nat) (f g : nat -> scalar) :
  (forall i, (i <= n)%nat -> f i = g i) ->
  Reference.max_over n f = Reference.max_over n g.
Proof.
  induction n as [|n IH]; intros H; simpl; [apply H; lia|].
  rewrite IH by (intros; apply H; lia). rewrite H by lia. reflexivity.
Qed.

Lemma ssum_sum_over (l : list scalar) :
  ssum l = Reference.sum_over (length l) (fun i => nth i l None).
Proof.
  induction l as [|x l IH] using rev_ind; [reflexivity|].
  rewrite ssum_app, length_app, Nat.add_comm. simpl.
  rewrite app_nth2, Nat.sub_diag by lia. simpl. f_equal.
  rewrite IH. apply sum_over_ext. intros i Hi. now rewrite app_nth1.
Qed.

Lemma fold_left_smax_max_over (l : vec) (x : scalar) :
  fold_left smax l x = Reference.max_over (length l) (fun i => nth i (x :: l) None).
Proof.
  induction l as [|a l IH] using rev_ind; [reflexivity|].
  rewrite fold_left_app, length_app, Nat.add_comm. simpl fold_left. simpl plus.
  cbn [Reference.max_over]. f_equal.
  - rewrite IH. apply max_over_ext. intros i Hi.
    destruct i; [reflexivity|]. simpl. rewrite app_nth1 by lia. reflexivity.
  - simpl. rewrite app_nth2, Nat.sub_diag by lia. reflexivity.
Qed.

Lemma vmax_max_over (v : vec) :
  v <> [] -> vmax v = Reference.max_over (length v - 1) (fun j => nth j v None).
Proof.
  destruct v as [|x v]; [congruence|]. intros _. simpl.
  rewrite Nat.sub_0_r. apply fold_left_smax_max_over.
Qed.

Lemma fold_left_map2_smax (K : nat) (m : mat) (r : vec) :
  length r = K -> Forall (fun r' => length r' = K) m ->
  length (fold_left (map2 smax) m r) = K /\
  forall j, nth j (fold_left (map2 smax) m r) None =
            fold_left smax (map (fun r' => nth j r' None) m) (nth j r None).
Proof.
  intros Hr Hm. revert r Hr. induction Hm as [|r' m Hr' Hm IH]; intros r Hr; simpl.
  - split; [exact Hr | reflexivity].
  - assert (Hl : length (map2 smax r r') = K) by (rewrite map2_length; lia).
    destruct (IH _ Hl) as [IH1 IH2]. split; [exact IH1|].
    intros j. rewrite IH2. f_equal.
    destruct (Nat.lt_ge_cases j K) as [Hj|Hj].
    + apply map2_nth; lia.
    + rewrite !nth_overflow by lia. reflexivity.
Qed.

Lemma cmax_max_over (K_i K_r : nat) (m : mat) :
  shape2 K_i K_r m -> (0 < K_i)%nat ->
  length (cmax m) = K_r /\
  forall j, nth j (cmax m) None =
            Reference.max_over (K_i - 1) (fun i => nth j (nth i m []) None).
Proof.
  intros [Hlen Hw] HK. destruct m as [|r m]; [simpl in Hlen; lia|].
  pose proof (Forall_inv Hw) as Hr. pose proof (Forall_inv_tail Hw) as Hm.
  simpl in Hr. simpl cmax.
  destruct (@fold_left_map2_smax K_r m r Hr Hm) as [H1 H2]. split; [exact H1|].
  intros j. rewrite H2, fold_left_smax_max_over, length_map.
  subst K_i. cbn [length]. rewrite Nat.sub_succ, Nat.sub_0_r.
  apply max_over_ext. intros i Hi. destruct i; [reflexivity|]. simpl.
  transitivity (nth i (map (fun r' : vec => nth j r' None) m)
                      ((fun r' : vec => nth j r' None) [])).
  - f_equal. destruct j; reflexivity.
  - exact (map_nth (fun r' : vec => nth j r' None) m [] i).
Qed.

Lemma length_lift1 (w : list R) : length (lift1 w) = length w.
Proof. apply length_map. Qed.

Lemma nth_lift1 (w : list R) (i : nat) :
  (i < length w)%nat -> nth i (lift1 w) None = Some (nth i w 0).
Proof.
  intros Hi. unfold lift1.
  rewrite (nth_indep _ None (Some 0)) by (rewrite length_map; lia).
  apply (map_nth (@Some R)).
Qed.

Lemma weighted_mean_sum_over (K : nat) (v : vec) (w : list R) :
  length v = K -> length w = K ->
  weighted_mean v w =
  sdiv (Reference.sum_over K (fun i => smul (nth i v None) (Some (nth i w 0))))
       (Reference.sum_over K (fun i => Some (nth i w 0))).
Proof.
  intros Hv Hw. unfold weighted_mean. rewrite !ssum_sum_over.
  rewrite map2_length, !length_lift1, Hv, Hw, Nat.min_id.
  f_equal.
  - apply sum_over_ext. intros i Hi.
    rewrite (map2_nth smul v (lift1 w) None None None)
      by (rewrite ?length_lift1; lia).
    f_equal. apply nth_lift1. lia.
  - apply sum_over_ext. intros i Hi. apply nth_lift1. lia.
Qed.

(** ** [compute_RPF] against the reference definition *)

Lemma max_dim2_ok (B K_i K_r : nat) (sim : tensor3) :
  shape3 B K_i K_r sim -> (0 < K_r)%nat ->
  max_dim2 sim = Ok (map (map vmax) sim).
Proof.
  intros [_ Hf] HK. unfold max_dim2. apply mapM_ok. intros m Hm.
  rewrite Forall_forall in Hf. destruct (Hf m Hm) as [_ Hw].
  apply mapM_ok. intros r Hr. rewrite Forall_forall in Hw. specialize (Hw r Hr).
  destruct r; [simpl in Hw; lia | reflexivity].
Qed.

Lemma max_dim1_ok (B K_i K_r : nat) (sim : tensor3) :
  shape3 B K_i K_r sim -> (0 < K_i)%nat ->
  max_dim1 sim = Ok (map cmax sim).
Proof.
  intros [_ Hf] HK. unfold max_dim1. apply mapM_ok. intros m Hm.
  rewrite Forall_forall in Hf. destruct (Hf m Hm) as [Hl _].
  destruct m; [simpl in Hl; lia | reflexivity].
Qed.

Lemma RPF_of_ok (B K_i K_r : nat) (sim : tensor3) wr wc rids cids idf base W_ref W_cand :
  shape3 B K_i K_r sim -> (0 < K_i)%nat -> (0 < K_r)%nat ->
  Reference.WeightMasks wr wc rids cids idf W_ref W_cand ->
  RPF_of sim wr wc rids cids idf base =
  let R := map2 weighted_mean (rescaling (map (map vmax) sim) base) W_ref in
  let P := map2 weighted_mean (rescaling (map cmax sim) base) W_cand in
  Ok (R, P, map2 f1 R P).
Proof.
  intros Hs Hi Hr Hw. unfold RPF_of.
  rewrite (max_dim2_ok Hs Hr), (max_dim1_ok Hs Hi). simpl rbind.
  unfold Reference.WeightMasks in Hw.
  destruct idf as [t|]; [destruct rids as [ri|]; [destruct cids as [ci|]|]|];
    destruct Hw as [H1 H2]; try (subst; reflexivity).
  rewrite H1, H2. reflexivity.
Qed.

Lemma smul_assoc (a b c : scalar) : smul a (smul b c) = smul (smul a b) c.
Proof. destruct a, b, c; simpl; try reflexivity. f_equal. lra. Qed.

Lemma f1_F1 (r p : scalar) : f1 r p = Reference.F1 r p.
Proof. unfold f1, Reference.F1. now rewrite smul_assoc. Qed.

(** Recall of one batch entry, read with indices. *)
Lemma entry_recall (K_i K_r : nat) (sim : tensor3) (W : list (list R)) (base : R) (b : nat) :
  shape2 K_i K_r (nth b sim []) -> (0 < K_r)%nat ->
  length (nth b W []) = K_i ->
  weighted_mean (map (Reference.rescaled base) (map vmax (nth b sim []))) (nth b W []) =
  Reference.Recall sim W base K_i K_r b.
Proof.
  intros [Hl Hw] HK HW. unfold Reference.Recall.
  rewrite (@weighted_mean_sum_over K_i) by (rewrite ?length_map; auto).
  f_equal. apply sum_over_ext. intros i Hi. f_equal.
  rewrite map_map.
  transitivity (Reference.rescaled base (vmax (nth i (nth b sim []) []))).
  - exact (map_nth (fun r => Reference.rescaled base (vmax r)) (nth b sim []) [] i).
  - f_equal. unfold Reference.RecallMax, Reference.at3.
    rewrite Forall_nth in Hw. specialize (Hw i [] ltac:(lia)).
    rewrite <- Hw. apply vmax_max_over.
    intros E. apply (f_equal (@length scalar)) in E. simpl in E.
    unfold tensor3, mat, vec in *. lia.
Qed.

(** Precision of one batch entry, read with indices. *)
Lemma entry_precision (K_i K_r : nat) (sim : tensor3) (W : list (list R)) (base : R) (b : nat) :
  shape2 K_i K_r (nth b sim []) -> (0 < K_i)%nat ->
  length (nth b W []) = K_r ->
  weighted_mean (map (Reference.rescaled base) (cmax (nth b sim []))) (nth b W []) =
  Reference.Precision sim W base K_i K_r b.
Proof.
  intros Hs HK HW. unfold Reference.Precision.
  destruct (cmax_max_over Hs HK) as [Hc1 Hc2].
  rewrite (@weighted_mean_sum_over K_r) by (rewrite ?length_map; auto).
  f_equal. apply sum_over_ext. intros j Hj. f_equal.
  transitivity (Reference.rescaled base (nth j (cmax (nth b sim [])) None)).
  - exact (map_nth (Reference.rescaled base) (cmax (nth b sim [])) None j).
  - f_equal. apply Hc2.
Qed.

Lemma nth_rescaling (X : mat -> vec) (sim : tensor3) (base : R) (b : nat) :
  X [] = [] ->
  nth b (rescaling (map X sim) base) [] = map (Reference.rescaled base) (X (nth b sim [])).
Proof.
  intros HX. unfold rescaling. rewrite map_map.
  transitivity (nth b (map (fun m => map (Reference.rescaled base) (X m)) sim)
                      ((fun m => map (Reference.rescaled base) (X m)) [])).
  - f_equal. now rewrite HX.
  - exact (map_nth (fun m => map (Reference.rescaled base) (X m)) sim [] b).
Qed.

(** The scores computed from a well-shaped pairwise tensor are those of
    the reference definition. *)
Lemma RPF_of_reference
  (sim : tensor3) (B K_i K_r : nat)
  (wr wc W_ref W_cand : list (list R)) (rids cids : option (list (list Z)))
  (idf : option (list R)) (base : R) :
  shape3 B K_i K_r sim -> (0 < K_i)%nat -> (0 < K_r)%nat ->
  Reference.WeightMasks wr wc rids cids idf W_ref W_cand ->
  shape2 B K_i W_ref -> shape2 B K_r W_cand ->
  exists Rc Pr F,
    RPF_of sim wr wc rids cids idf base = Ok (Rc, Pr, F) /\
    length Rc = B /\ length Pr = B /\ length F = B /\
    forall b, (b < B)%nat ->
      nth b Rc None = Reference.Recall sim W_ref base K_i K_r b /\
      nth b Pr None = Reference.Precision sim W_cand base K_i K_r b /\
      nth b F None = Reference.F1 (nth b Rc None) (nth b Pr None).
Proof.
  intros Hs HKi HKr Hw HWr HWc.
  rewrite (@RPF_of_ok B K_i K_r sim wr wc rids cids idf base W_ref W_cand Hs HKi HKr Hw).
  cbv zeta.
  set (Rc := map2 weighted_mean (rescaling (map (map vmax) sim) base) W_ref).
  set (Pr := map2 weighted_mean (rescaling (map cmax sim) base) W_cand).
  assert (Ls : length sim = B) by apply Hs.
  assert (LWr : length W_ref = B) by apply HWr.
  assert (LWc : length W_cand = B) by apply HWc.
  assert (LR : length Rc = B).
  { unfold Rc, rescaling. rewrite map2_length, !length_map.
    unfold tensor3, mat, vec in *. lia. }
  assert (LP : length Pr = B).
  { unfold Pr, rescaling. rewrite map2_length, !length_map.
    unfold tensor3, mat, vec in *. lia. }
  exists Rc, Pr, (map2 f1 Rc Pr). split; [reflexivity|].
  split; [exact LR|]. split; [exact LP|].
  split; [rewrite map2_length, LR, LP; apply Nat.min_id|].
  intros b Hb.
  assert (Hsb := shape3_nth Hs Hb).
  assert (ER : nth b Rc None = Reference.Recall sim W_ref base K_i K_r b).
  { unfold Rc.
    rewrite (map2_nth weighted_mean _ _ [] [] None).
    - rewrite (nth_rescaling (map vmax)) by reflexivity.
      apply entry_recall; auto. now apply (shape2_nth HWr).
    - unfold rescaling. rewrite !length_map. unfold tensor3, mat, vec in *. lia.
    - lia. }
  assert (EP : nth b Pr None = Reference.Precision sim W_cand base K_i K_r b).
  { unfold Pr.
    rewrite (map2_nth weighted_mean _ _ [] [] None).
    - rewrite (nth_rescaling cmax) by reflexivity.
      apply entry_precision; auto. now apply (shape2_nth HWc).
    - unfold rescaling. rewrite !length_map. unfold tensor3, mat, vec in *. lia.
    - lia. }
  split; [exact ER|]. split; [exact EP|].
  rewrite (map2_nth f1 Rc Pr None None None) by lia.
  apply f1_F1.
Qed.

(** C2.  On a (B, K_i, K_r) pairwise tensor with (B, K_i) and (B, K_r)
    weight masks, [compute_RPF] returns, entry by entry, the recall,
    precision and F1 of the reference definition: the maxima over the other
    side's positions, rescaled, averaged with the weight mask, and
    [2 R P / (R + P)]. *)
Theorem compute_RPF_implements_reference
  (h h' : heap) (re ce : loc) (sim : tensor3) (B K_i K_r : nat)
  (wr wc W_ref W_cand : list (list R)) (rids cids : option (list (list Z)))
  (idf : option (list R)) (base : R) :
  compute_pairwise_cosine re ce h = Ok (sim, h') ->
  shape3 B K_i K_r sim -> (0 < K_i)%nat -> (0 < K_r)%nat ->
  Reference.WeightMasks wr wc rids cids idf W_ref W_cand ->
  shape2 B K_i W_ref -> shape2 B K_r W_cand ->
  exists Rc Pr F,
    compute_RPF re ce wr wc rids cids idf base h = Ok ((Rc, Pr, F), h') /\
    length Rc = B /\ length Pr = B /\ length F = B /\
    forall b, (b < B)%nat ->
      nth b Rc None = Reference.Recall sim W_ref base K_i K_r b /\
      nth b Pr None = Reference.Precision sim W_cand base K_i K_r b /\
      nth b F None = Reference.F1 (nth b Rc None) (nth b Pr None).
Proof.
  intros Hrun Hs HKi HKr Hw HWr HWc.
  destruct (@RPF_of_reference sim B K_i K_r wr wc W_ref W_cand rids cids idf base
              Hs HKi HKr Hw HWr HWc) as (Rc & Pr & F & E & Hrest).
  exists Rc, Pr, F. split; [|exact Hrest].
  rewrite compute_RPF_eq, Hrun, E. reflexivity.
Qed.

Lemma pairwise_run_two_by_one :
  compute_pairwise_cosine 0%nat 1%nat
    [lift3 [[[0; 1]; [4/5; 3/5]]]; lift3 [[[0; 1]]]] =
  Ok ([[[Some 1]; [Some (3/5)]]],
      [lift3 [[[0; 1]; [4/5; 3/5]]]; lift3 [[[0; 1]]]]).
Proof. eval_model. Qed.

Lemma compute_RPF_implements_reference_witness :
  exists Rc Pr F,
    compute_RPF 0%nat 1%nat [[1; 1]] [[1]] None None None 0
      [lift3 [[[0; 1]; [4/5; 3/5]]]; lift3 [[[0; 1]]]] =
    Ok ((Rc, Pr, F), [lift3 [[[0; 1]; [4/5; 3/5]]]; lift3 [[[0; 1]]]]) /\
    length Rc = 1%nat /\ length Pr = 1%nat /\ length F = 1%nat /\
    forall b, (b < 1)%nat ->
      nth b Rc None =
        Reference.Recall [[[Some 1]; [Some (3/5)]]] [[1; 1]] 0 2 1 b /\
      nth b Pr None =
        Reference.Precision [[[Some 1]; [Some (3/5)]]] [[1]] 0 2 1 b /\
      nth b F None = Reference.F1 (nth b Rc None) (nth b Pr None).
Proof.
  apply (@compute_RPF_implements_reference
           [lift3 [[[0; 1]; [4/5; 3/5]]]; lift3 [[[0; 1]]]]
           [lift3 [[[0; 1]; [4/5; 3/5]]]; lift3 [[[0; 1]]]]
           0%nat 1%nat [[[Some 1]; [Some (3/5)]]] 1%nat 2%nat 1%nat
           [[1; 1]] [[1]] [[1; 1]] [[1]] None None None 0).
  - apply pairwise_run_two_by_one.
  - repeat (split || constructor).
  - lia.
  - lia.
  - split; reflexivity.
  - repeat (split || constructor).
  - repeat (split || constructor).
Defined.

(** ** Shapes of the tokenised batch *)

Lemma Forall_map2 {A B C} (P : C -> Prop) (f : A -> B -> C) l l' :
  (forall a b, In a l -> In b l' -> P (f a b)) -> Forall P (map2 f l l').
Proof.
  revert l'. induction l as [|x l IH]; intros [|y l'] H; simpl; try constructor.
  - apply H; simpl; auto.
  - apply IH. intros; apply H; simpl; auto.
Qed.

Lemma shape2_map {A B} (n K : nat) (f : A -> B) (w : list (list A)) :
  shape2 n K w -> shape2 n K (map (map f) w).
Proof.
  intros [Hl Hf]. split; [now rewrite length_map|].
  apply Forall_map. eapply Forall_impl; [|exact Hf].
  intros r Hr. now rewrite length_map.
Qed.

Lemma where_shape (n K : nat) cond x y :
  shape2 n K cond -> shape2 n K x -> shape2 n K y -> shape2 n K (where_ cond x y).
Proof.
  intros [Lc Fc] [Lx Fx] [Ly Fy]. unfold where_. split.
  - rewrite map2_length, length_combine. lia.
  - apply Forall_map2. intros c [xr yr] Hc Hxy.
    rewrite Forall_forall in Fc, Fx, Fy.
    pose proof (in_combine_l _ _ _ _ Hxy) as Hxr.
    pose proof (in_combine_r _ _ _ _ Hxy) as Hyr.
    rewrite map2_length, length_combine. cbn [fst snd].
    rewrite (Fc c Hc), (Fx xr Hxr), (Fy yr Hyr). lia.
Qed.

Lemma le_padded_length (tok : BertTokenizer) (sents : list string) (s : string) :
  In s sents -> (length (encode tok s) <= Shape.padded_length tok sents)%nat.
Proof.
  unfold Shape.padded_length. induction sents as [|s' sents IH]; intros H; [destruct H|].
  simpl. destruct H as [->|H]; [lia|]. specialize (IH H). lia.
Qed.

Lemma padded_length_pos (tok : BertTokenizer) (sents : list string) :
  Shape.tokenizer_ok tok -> sents <> [] -> (0 < Shape.padded_length tok sents)%nat.
Proof.
  intros Ht Hs. destruct sents as [|s sents]; [congruence|].
  pose proof (@le_padded_length tok (s :: sents) s (or_introl eq_refl)) as H.
  specialize (Ht s). destruct (encode tok s); [congruence|]. simpl in H. lia.
Qed.

(** The three tensors of [sents_to_tensor] are (B, K) matrices. *)
Lemma tensors_shape (tok : BertTokenizer) (sents : list string) :
  let K := Shape.padded_length tok sents in
  let t := tensors tok sents in
  shape2 (length sents) K (fst (fst t)) /\
  shape2 (length sents) K (snd (fst t)) /\
  shape2 (length sents) K (snd t).
Proof.
  intros K t.
  assert (Hi : shape2 (length sents) K (fst (pad_batch tok sents))).
  { unfold pad_batch. cbn [fst]. split; [now rewrite !length_map|].
    rewrite map_map. apply Forall_map, Forall_forall. intros s Hs.
    pose proof (le_padded_length tok sents s Hs).
    rewrite length_app, repeat_length. fold (Shape.padded_length tok sents). fold K. lia. }
  assert (Ha : shape2 (length sents) K (snd (pad_batch tok sents))).
  { unfold pad_batch. cbn [snd]. split; [now rewrite !length_map|].
    rewrite map_map. apply Forall_map, Forall_forall. intros s Hs.
    pose proof (le_padded_length tok sents s Hs).
    rewrite length_app, !repeat_length. fold (Shape.padded_length tok sents). fold K. lia. }
  unfold t, tensors, eq_id. cbn [fst snd].
  split; [exact Hi|]. split; [exact Ha|].
  apply where_shape;
    [ apply shape2_map; exact Hi | apply shape2_map; exact Ha | ].
  apply where_shape;
    [ apply shape2_map; exact Hi | apply shape2_map; exact Ha | exact Ha ].
Qed.

Lemma py_index_In {A} (l : list A) (i : Z) (x : A) : py_index l i = Ok x -> In x l.
Proof.
  unfold py_index. destruct (_ && _)%bool; [|discriminate].
  destruct (nth_error l _) eqn:E; [|discriminate].
  intros H. inversion H; subst. eapply nth_error_In; eauto.
Qed.

(** ** The token mask is the ContentMask *)

Lemma where_nth (n K : nat) cond x y (b i : nat) :
  shape2 n K cond -> shape2 n K x -> shape2 n K y ->
  (b < n)%nat -> (i < K)%nat ->
  nth i (nth b (where_ cond x y) []) 0%Z =
  if nth i (nth b cond []) false
  then nth i (nth b x []) 0%Z else nth i (nth b y []) 0%Z.
Proof.
  intros Sc Sx Sy Hb Hi. unfold where_.
  pose proof (shape2_nth Sc Hb) as Lc.
  pose proof (shape2_nth Sx Hb) as Lx.
  pose proof (shape2_nth Sy Hb) as Ly.
  destruct Sc as [Lc0 _], Sx as [Lx0 _], Sy as [Ly0 _].
  rewrite (map2_nth _ cond (combine x y) [] ([], []) [])
    by (rewrite ?length_combine; lia).
  rewrite combine_nth by lia. cbn [fst snd].
  rewrite (map2_nth _ (nth b cond []) (combine (nth b x []) (nth b y [])) false (0%Z, 0%Z) 0%Z)
    by (rewrite ?length_combine; lia).
  rewrite combine_nth by lia. reflexivity.
Qed.

Lemma attention_01 (tok : BertTokenizer) (sents : list string) (b i : nat) :
  let a := nth i (nth b (snd (pad_batch tok sents)) []) 0%Z in
  a = 0%Z \/ a = 1%Z.
Proof.
  unfold pad_batch. cbn [snd]. rewrite map_map.
  set (f := fun s : string => _).
  destruct (Nat.lt_ge_cases b (length sents)) as [Hb|Hb].
  - rewrite (nth_indep _ [] (f ""%string)) by (rewrite length_map; exact Hb).
    rewrite (map_nth f sents ""%string b). unfold f.
    set (k := length (encode tok (nth b sents ""%string))).
    destruct (Nat.lt_ge_cases i k) as [Hi|Hi].
    + rewrite app_nth1 by (rewrite repeat_length; exact Hi).
      right. apply nth_repeat_lt. exact Hi.
    + rewrite app_nth2 by (rewrite repeat_length; exact Hi).
      left. apply nth_repeat.
  - rewrite (nth_overflow (map f sents) []) by (rewrite length_map; exact Hb).
    left. now destruct i.
Qed.

Lemma tensors_token_mask (tok : BertTokenizer) (sents : list string) (b i : nat) :
  let t := tensors tok sents in
  (b < length sents)%nat -> (i < Shape.padded_length tok sents)%nat ->
  nth i (nth b (snd t) []) 0%Z = Reference.ContentMask tok (fst (fst t)) (snd (fst t)) b i.
Proof.
  intros t Hb Hi.
  destruct (tensors_shape tok sents) as (Si & Sa & _).
  unfold t, tensors in *. cbn [fst snd] in *.
  set (ids := fst (pad_batch tok sents)) in *.
  set (att := snd (pad_batch tok sents)) in *.
  set (zero := map (map (fun _ => 0%Z)) att).
  assert (Sz : shape2 (length sents) (Shape.padded_length tok sents) zero)
    by now apply shape2_map.
  assert (Sq : forall c, shape2 (length sents) (Shape.padded_length tok sents) (eq_id ids c))
    by (intros c; now apply shape2_map).
  rewrite (where_nth (Sq _) Sz (where_shape (Sq _) Sz Sa) Hb Hi).
  rewrite (where_nth (Sq _) Sz Sa Hb Hi).
  assert (Eq : forall c, nth i (nth b (eq_id ids c) []) false =
                         (nth i (nth b ids []) 0 =? c)%Z).
  { intros c. unfold eq_id. rewrite nth_map_map.
    rewrite (nth_indep _ false ((fun x => (x =? c)%Z) 0%Z))
      by (rewrite length_map, (shape2_nth Si Hb); exact Hi).
    exact (map_nth (fun x => (x =? c)%Z) (nth b ids []) 0%Z i). }
  assert (Ez : nth i (nth b zero []) 0%Z = 0%Z).
  { unfold zero. rewrite nth_map_map.
    exact (map_nth (fun _ : Z => 0%Z) (nth b att []) 0%Z i). }
  rewrite !Eq, Ez. unfold Reference.ContentMask.
  pose proof (attention_01 tok sents b i) as Ha. cbv zeta in Ha. fold att in Ha.
  destruct (Z.eqb_spec (nth i (nth b ids []) 0%Z) (sep_token_id tok));
    destruct (Z.eqb_spec (nth i (nth b ids []) 0%Z) (cls_token_id tok));
    rewrite ?andb_false_r; cbn [negb andb]; try reflexivity.
  rewrite !andb_true_r.
  destruct Ha as [-> | ->]; reflexivity.
Qed.

(** X29.  The third tensor [sents_to_tensor] returns is 1 exactly where
    the attention mask is 1 and the id is neither marker. *)
Lemma token_mask_is_ContentMask (tok : BertTokenizer) (sents : list string)
  (ids att token_mask : list (list Z)) (b i : nat) :
  sents_to_tensor tok sents = Ok (ids, att, token_mask) ->
  (b < length sents)%nat -> (i < Shape.padded_length tok sents)%nat ->
  nth i (nth b token_mask []) 0%Z = Reference.ContentMask tok ids att b i.
Proof.
  intros H Hb Hi. destruct (sents_to_tensor_ok _ _ H) as [_ E].
  pose proof (@tensors_token_mask tok sents b i Hb Hi) as Hm. cbv zeta in Hm.
  rewrite <- E in Hm. exact Hm.
Qed.

(** The padded rows of one sentence. *)
Lemma pad_batch_row (tok : BertTokenizer) (sents : list string) (b : nat) :
  (b < length sents)%nat ->
  let e := encode tok (nth b sents ""%string) in
  let K := Shape.padded_length tok sents in
  nth b (fst (pad_batch tok sents)) [] = e ++ repeat (pad_token_id tok) (K - length e) /\
  nth b (snd (pad_batch tok sents)) [] = repeat 1%Z (length e) ++ repeat 0%Z (K - length e).
Proof.
  intros Hb e K. unfold pad_batch. cbv zeta. cbn [fst snd].
  fold (Shape.padded_length tok sents). fold K. rewrite !map_map. split.
  - set (f := fun s : string => _).
    rewrite (nth_indep _ [] (f ""%string)) by (rewrite length_map; exact Hb).
    exact (map_nth f sents ""%string b).
  - set (f := fun s : string => _).
    rewrite (nth_indep _ [] (f ""%string)) by (rewrite length_map; exact Hb).
    exact (map_nth f sents ""%string b).
Qed.

Lemma nth_to_float (m : list (list Z)) (b i : nat) :
  nth i (nth b (to_float m) []) 0 = IZR (nth i (nth b m []) 0%Z).
Proof.
  unfold to_float. rewrite nth_map_map. exact (map_nth IZR (nth b m []) 0%Z i).
Qed.

(** Beyond the tokens of its sentence a row of the attention mask, and of
    the token mask, is zero. *)
Lemma attention_zero_on_padding (tok : BertTokenizer) (sents : list string) (b i : nat) :
  (b < length sents)%nat -> (length (encode tok (nth b sents ""%string)) <= i)%nat ->
  nth i (nth b (snd (fst (tensors tok sents))) []) 0%Z = 0%Z.
Proof.
  intros Hb Hi. unfold tensors. cbn [fst snd].
  destruct (pad_batch_row tok sents Hb) as [_ E]. rewrite E.
  rewrite app_nth2 by (rewrite repeat_length; lia). apply nth_repeat.
Qed.

Lemma token_mask_zero_on_padding (tok : BertTokenizer) (sents : list string) (b i : nat) :
  (b < length sents)%nat -> (length (encode tok (nth b sents ""%string)) <= i)%nat ->
  nth i (nth b (snd (tensors tok sents)) []) 0%Z = 0%Z.
Proof.
  intros Hb Hi.
  destruct (Nat.lt_ge_cases i (Shape.padded_length tok sents)) as [Hk|Hk].
  - pose proof (@tensors_token_mask tok sents b i Hb Hk) as Hm. cbv zeta in Hm.
    rewrite Hm. unfold Reference.ContentMask.
    rewrite (attention_zero_on_padding tok sents Hb Hi). reflexivity.
  - destruct (tensors_shape tok sents) as (_ & _ & Sw).
    apply nth_overflow. rewrite (shape2_nth Sw Hb). exact Hk.
Qed.

(** ** A sentence scored against itself *)

Lemma max_over_bounded (n : nat) (f : nat -> scalar) :
  (forall i, (i <= n)%nat -> exists r, f i = Some r /\ r <= 1) ->
  exists r, Reference.max_over n f = Some r /\ r <= 1.
Proof.
  induction n as [|n IH]; intros H; simpl.
  - apply H. lia.
  - destruct IH as [r [Er Hr]]; [intros; apply H; lia|].
    destruct (H (S n)) as [r' [Er' Hr']]; [lia|].
    rewrite Er, Er'. simpl. exists (Rmax r r'). split; [reflexivity|].
    now apply Rmax_lub.
Qed.

Lemma max_over_one (n : nat) (f : nat -> scalar) :
  (forall i, (i <= n)%nat -> exists r, f i = Some r /\ r <= 1) ->
  (exists i, (i <= n)%nat /\ f i = Some 1) ->
  Reference.max_over n f = Some 1.
Proof.
  induction n as [|n IH]; intros H [i [Hi E]]; simpl.
  - replace i with 0%nat in E by lia. exact E.
  - destruct (Nat.eq_dec i (S n)) as [->|Hne].
    + destruct (@max_over_bounded n f) as [r [Er Hr]]; [intros; apply H; lia|].
      rewrite Er, E. simpl. f_equal. now apply Rmax_right.
    + rewrite IH; [| intros; apply H; lia | exists i; split; [lia | exact E]].
      destruct (H (S n)) as [r' [Er' Hr']]; [lia|].
      rewrite Er'. simpl. f_equal. now apply Rmax_left.
Qed.

Lemma nth_matmul_t (a c : mat) (i j : nat) :
  (i < length a)%nat -> (j < length c)%nat ->
  nth j (nth i (matmul_t a c) []) None = dot (nth i a []) (nth j c []).
Proof.
  intros Hi Hj. unfold matmul_t.
  rewrite (nth_indep _ [] ((fun u => map (fun v => dot u v) c) []))
    by (rewrite length_map; exact Hi).
  rewrite (map_nth (fun u => map (fun v => dot u v) c) a [] i).
  rewrite (nth_indep _ None ((fun v => dot (nth i a []) v) []))
    by (rewrite length_map; exact Hj).
  exact (map_nth (fun v => dot (nth i a []) v) c [] j).
Qed.

Lemma nth_lift2 (us : list (list R)) (i : nat) : nth i (lift2 us) [] = lift1 (nth i us []).
Proof. exact (map_nth lift1 us [] i). Qed.

(** Normalising a matrix of non-zero rows gives its rows scaled to unit
    length. *)
Lemma div_norm_rows_unit (rows : list (list R)) :
  Forall nonzero rows ->
  map div_norm_row (lift2 rows) = lift2 (map unit_of rows) /\
  Forall (fun u => Rdot u u = 1) (map unit_of rows).
Proof.
  induction 1 as [|v rows Hv _ [IH1 IH2]]; simpl; [split; constructor|].
  split.
  - f_equal; [now apply div_norm_row_fin | exact IH1].
  - constructor; [now apply Rdot_normalised | exact IH2].
Qed.

Lemma rescaled_0_one : Reference.rescaled 0 (Some 1) = Some 1.
Proof.
  unfold Reference.rescaled, ssub. rewrite sdiv_fin by lra. f_equal. field.
Qed.

Lemma sum_over_weights (K : nat) (w : list R) :
  length w = K ->
  Reference.sum_over K (fun i => Some (nth i w 0)) = Some (Rsum w).
Proof.
  intros <-. rewrite <- ssum_lift1, ssum_sum_over, length_lift1.
  apply sum_over_ext. intros i Hi. symmetry. now apply nth_lift1.
Qed.

(** A weighted mean of values that are 1 wherever the weight is not
    zero, and finite elsewhere, is 1. *)
Lemma weighted_ones (K : nat) (w : list R) (f : nat -> scalar) :
  (forall i, (i < K)%nat ->
     f i = Some 1 \/ (nth i w 0 = 0 /\ exists r, f i = Some r)) ->
  length w = K -> Rsum w <> 0 ->
  sdiv (Reference.sum_over K (fun i => smul (Reference.rescaled 0 (f i)) (Some (nth i w 0))))
       (Reference.sum_over K (fun i => Some (nth i w 0))) = Some 1.
Proof.
  intros Hf Hw Hs.
  assert (E : Reference.sum_over K
                (fun i => smul (Reference.rescaled 0 (f i)) (Some (nth i w 0))) =
              Reference.sum_over K (fun i => Some (nth i w 0))).
  { apply sum_over_ext. intros i Hi. destruct (Hf i Hi) as [E1|[Hz [r E1]]]; rewrite E1.
    - rewrite rescaled_0_one. simpl. f_equal. lra.
    - rewrite Hz. unfold Reference.rescaled, ssub. rewrite sdiv_fin by lra.
      simpl. f_equal. unfold Rdiv. ring. }
  rewrite E, (@sum_over_weights K w Hw), sdiv_fin by exact Hs. f_equal. now field.
Qed.

Lemma F1_one : Reference.F1 (Some 1) (Some 1) = Some 1.
Proof.
  unfold Reference.F1, smul, sadd. rewrite sdiv_fin by lra. f_equal. field.
Qed.

(** The pairwise matrix of two lists of unit vectors that agree on their
    first [k] entries: every row maximum and every column maximum is a
    number not above 1, and it is 1 at the first [k] positions. *)
Lemma padded_similarity (sim : tensor3) (b K_i K_r k : nat) (us vs : list (list R)) :
  nth b sim [] = matmul_t (lift2 us) (lift2 vs) ->
  length us = K_i -> length vs = K_r ->
  (0 < K_i)%nat -> (0 < K_r)%nat -> (k <= K_i)%nat -> (k <= K_r)%nat ->
  Forall (fun u => Rdot u u = 1) us -> Forall (fun u => Rdot u u = 1) vs ->
  (forall i, (i < k)%nat -> nth i us [] = nth i vs []) ->
  (forall i, (i < K_i)%nat ->
     (exists r, Reference.RecallMax sim K_r b i = Some r) /\
     ((i < k)%nat -> Reference.RecallMax sim K_r b i = Some 1)) /\
  (forall j, (j < K_r)%nat ->
     (exists r, Reference.PrecisionMax sim K_i b j = Some r) /\
     ((j < k)%nat -> Reference.PrecisionMax sim K_i b j = Some 1)).
Proof.
  intros Hsim Lu Lv HKi HKr Hki Hkr Hu Hv Heq.
  assert (Hat : forall i j, (i < K_i)%nat -> (j < K_r)%nat ->
            Reference.at3 sim b i j = Some (Rdot (nth i us []) (nth j vs []))).
  { intros i j Hi Hj. unfold Reference.at3. rewrite Hsim.
    rewrite nth_matmul_t by (unfold lift2; rewrite length_map; lia).
    rewrite !nth_lift2. apply dot_lift1. }
  assert (Uu : forall i, (i < K_i)%nat -> Rdot (nth i us []) (nth i us []) = 1).
  { intros i Hi. rewrite Forall_nth in Hu. apply Hu. lia. }
  assert (Uv : forall j, (j < K_r)%nat -> Rdot (nth j vs []) (nth j vs []) = 1).
  { intros j Hj. rewrite Forall_nth in Hv. apply Hv. lia. }
  split.
  - intros i Hi.
    assert (Hb : forall j, (j <= K_r - 1)%nat ->
              exists r, Reference.at3 sim b i j = Some r /\ r <= 1).
    { intros j Hj. rewrite Hat by lia. eexists. split; [reflexivity|].
      apply Rdot_unit_le_1; [apply Uu | apply Uv]; lia. }
    split.
    + destruct (@max_over_bounded (K_r - 1) (fun j => Reference.at3 sim b i j) Hb)
        as [r [E _]]. exists r. exact E.
    + intros Hk. unfold Reference.RecallMax. apply max_over_one; [exact Hb|].
      exists i. split; [lia|]. rewrite Hat by lia. f_equal.
      rewrite <- (Heq i Hk). now apply Uu.
  - intros j Hj.
    assert (Hb : forall i, (i <= K_i - 1)%nat ->
              exists r, Reference.at3 sim b i j = Some r /\ r <= 1).
    { intros i Hi. rewrite Hat by lia. eexists. split; [reflexivity|].
      apply Rdot_unit_le_1; [apply Uu | apply Uv]; lia. }
    split.
    + destruct (@max_over_bounded (K_i - 1) (fun i => Reference.at3 sim b i j) Hb)
        as [r [E _]]. exists r. exact E.
    + intros Hk. unfold Reference.PrecisionMax. apply max_over_one; [exact Hb|].
      exists j. split; [lia|]. rewrite Hat by lia. f_equal.
      rewrite (Heq j Hk). now apply Uv.
Qed.

Lemma mapM_Forall {A B} (P : B -> Prop) (f : A -> res B) (l : list A) (l' : list B) :
  mapM f l = Ok l' ->
  (forall x y, In x l -> f x = Ok y -> P y) -> Forall P l'.
Proof.
  revert l'. induction l as [|x l IH]; intros l' H HP; simpl in H.
  - inversion H. constructor.
  - destruct (f x) as [y|] eqn:E; simpl in H; [|discriminate].
    destruct (mapM f l) as [ys|] eqn:E'; simpl in H; [|discriminate].
    inversion H; subst. constructor.
    + apply (HP x); simpl; auto.
    + apply IH; auto. intros x' y' Hin. apply HP. simpl; auto.
Qed.

Lemma apply_idf_shape (n K : nat) (ids : list (list Z)) (t : list R) (W : list (list R)) :
  apply_idf ids t = Ok W -> shape2 n K ids -> shape2 n K W.
Proof.
  intros H [Hl Hf]. split.
  - rewrite (mapM_length _ _ H). exact Hl.
  - eapply mapM_Forall; [exact H|]. intros row row' Hin E.
    rewrite (mapM_length _ _ E). rewrite Forall_forall in Hf. now apply Hf.
Qed.

(** The weight masks in use have the shapes of the two id tensors. *)
Lemma WeightMasks_shape (n K_i K_r : nat) (wr wc : list (list R))
  (rids cids : list (list Z)) (idf : option (list R)) (W_ref W_cand : list (list R)) :
  Reference.WeightMasks wr wc (Some rids) (Some cids) idf W_ref W_cand ->
  shape2 n K_i wr -> shape2 n K_r wc -> shape2 n K_i rids -> shape2 n K_r cids ->
  shape2 n K_i W_ref /\ shape2 n K_r W_cand.
Proof.
  unfold Reference.WeightMasks. intros H Hwr Hwc Hr Hc.
  destruct idf as [t|]; destruct H as [H1 H2].
  - split; eapply apply_idf_shape; eauto.
  - subst. split; assumption.
Qed.

Lemma length_div_norm_lift3 (t : list (list (list R))) :
  length (div_norm (lift3 t)) = length t.
Proof. unfold div_norm, lift3. now rewrite !length_map. Qed.

Lemma nth_div_norm_lift3 (t : list (list (list R))) (b : nat) :
  nth b (div_norm (lift3 t)) [] = map div_norm_row (lift2 (nth b t [])).
Proof.
  unfold div_norm, lift3. rewrite map_map.
  exact (map_nth (fun x => map div_norm_row (lift2 x)) t [] b).
Qed.

(** The pairwise tensor of two encoder outputs is a (B, K_i, K_r)
    tensor. *)
Lemma pairwise_shape (n K_i K_r : nat) (tr tc : list (list (list R))) :
  shape2 n K_i tr -> shape2 n K_r tc ->
  shape3 n K_i K_r (map2 matmul_t (div_norm (lift3 tr)) (div_norm (lift3 tc))).
Proof.
  intros [Lr Fr] [Lc Fc]. split.
  - rewrite map2_length, !length_div_norm_lift3. lia.
  - apply Forall_map2. intros a c Ha Hc.
    unfold div_norm, lift3 in Ha, Hc. rewrite map_map in Ha, Hc.
    apply in_map_iff in Ha. destruct Ha as [ta [<- Hta]].
    apply in_map_iff in Hc. destruct Hc as [tc' [<- Htc]].
    rewrite Forall_forall in Fr, Fc.
    unfold matmul_t. split.
    + rewrite length_map. unfold lift2. rewrite !length_map. now apply Fr.
    + apply Forall_map, Forall_forall. intros u _.
      rewrite length_map. unfold lift2. rewrite !length_map. now apply Fc.
Qed.

Lemma encoder_output_shape (m : BertModel) (ids mask : list (list Z)) (idx : Z)
  (t : list (list (list R))) (n K : nat) :
  Shape.encoder_ok m -> shape2 n K ids ->
  py_index (hidden_states m ids mask) idx = Ok t -> shape2 n K t.
Proof.
  intros Hm [Hl Hf] Hpy. apply py_index_In in Hpy.
  destruct (Hm _ _ _ _ Hpy) as [H1 H2]. split; [lia|].
  apply Forall_nth. intros b d Hb.
  rewrite (nth_indep _ d []) by exact Hb.
  rewrite H2 by lia. rewrite Forall_nth in Hf. apply Hf. lia.
Qed.

Lemma unit_rows (rows : list (list R)) :
  Forall in_range rows ->
  map div_norm_row (lift2 rows) = lift2 (map unit_of rows) /\
  Forall (fun u => Rdot u u = 1) (map unit_of rows).
Proof.
  intros H. apply div_norm_rows_unit.
  eapply Forall_impl; [|exact H]. intros v. apply in_range_nonzero.
Qed.

(** C6, as the code has it.  Given an encoder that returns one vector per
    position and embeds a token from the attended tokens of its own
    sentence only, take a pair whose two sentences have the same token
    sequence, whatever the padding the two batches give them.  If the
    embeddings of the pair (of its padding positions too) are in range,
    and the weight rows do not sum to zero and, when they come from an IDF
    table, are in range and zero on the padding, then [bert_score] with
    [rescale_base = 0] returns recall, precision and F1 equal to 1 for that
    pair.  Without a table the weights are 0 or 1, zero on the padding by
    themselves, and their sum is not zero when the sentence has a token
    that is not a marker. *)
Theorem identical_pair_scores_one
  (tok : BertTokenizer) (m : BertModel) (references candidates : list string)
  (idf : option (list R)) (output_layer_index : Z) (h : heap) (b : nat)
  (rt ct : list (list Z) * list (list Z) * list (list Z))
  (tr tc : list (list (list R))) (W_ref W_cand : list (list R)) :
  Shape.tokenizer_ok tok -> Shape.encoder_ok m -> Shape.encoder_ignores_padding m ->
  length references = length candidates -> (b < length references)%nat ->
  encode tok (nth b references ""%string) = encode tok (nth b candidates ""%string) ->
  sents_to_tensor tok references = Ok rt ->
  sents_to_tensor tok candidates = Ok ct ->
  py_index (hidden_states m (fst (fst rt)) (snd (fst rt))) output_layer_index = Ok tr ->
  py_index (hidden_states m (fst (fst ct)) (snd (fst ct))) output_layer_index = Ok tc ->
  Forall in_range (nth b tr []) -> Forall in_range (nth b tc []) ->
  Reference.WeightMasks (to_float (snd rt)) (to_float (snd (fst ct)))
    (Some (fst (fst rt))) (Some (fst (fst ct))) idf W_ref W_cand ->
  (idf <> None ->
     Forall weight_in_range (nth b W_ref []) /\
     Forall weight_in_range (nth b W_cand []) /\
     forall i, (length (encode tok (nth b references ""%string)) <= i)%nat ->
       nth i (nth b W_ref []) 0 = 0 /\ nth i (nth b W_cand []) 0 = 0) ->
  Rsum (nth b W_ref []) <> 0 -> Rsum (nth b W_cand []) <> 0 ->
  exists Rc Pr F h',
    bert_score tok m references candidates idf output_layer_index 0 h =
      Ok ((Rc, Pr, F), h') /\
    nth b Rc None = Some 1 /\ nth b Pr None = Some 1 /\ nth b F None = Some 1.
Proof.
  intros Htok Henc Hpad Hlen Hb Hsame Hrt Hct Hpr Hpc Hrr Hrc Hw Hw0 HsR HsC.
  destruct (sents_to_tensor_ok _ _ Hrt) as [Hne ->].
  destruct (sents_to_tensor_ok _ _ Hct) as [Hne' ->].
  set (rt := tensors tok references) in *. set (ct := tensors tok candidates) in *.
  set (n := length references) in *.
  set (K_i := Shape.padded_length tok references).
  set (K_r := Shape.padded_length tok candidates).
  set (e := encode tok (nth b references ""%string)) in *.
  set (k := length e) in *.
  assert (Hb' : (b < length candidates)%nat) by (rewrite <- Hlen; exact Hb).
  destruct (tensors_shape tok references) as (Sri & Sra & Srw).
  destruct (tensors_shape tok candidates) as (Sci & Sca & Scw).
  fold rt K_i n in Sri, Sra, Srw. fold ct K_r in Sci, Sca, Scw.
  rewrite <- Hlen in Sci, Sca, Scw. fold n in Sci, Sca, Scw.
  assert (HKi : (0 < K_i)%nat) by now apply padded_length_pos.
  assert (HKr : (0 < K_r)%nat) by now apply padded_length_pos.
  assert (Hki : (k <= K_i)%nat).
  { apply le_padded_length. apply nth_In. exact Hb. }
  assert (Hkr : (k <= K_r)%nat).
  { unfold k. rewrite Hsame. apply le_padded_length. apply nth_In. exact Hb'. }
  pose proof (@encoder_output_shape m _ _ _ tr n K_i Henc Sri Hpr) as Str.
  pose proof (@encoder_output_shape m _ _ _ tc n K_r Henc Sci Hpc) as Stc.
  set (sim := map2 matmul_t (div_norm (lift3 tr)) (div_norm (lift3 tc))).
  pose proof (pairwise_shape Str Stc) as Ssim. fold sim in Ssim.
  destruct (@WeightMasks_shape n K_i K_r _ _ _ _ idf W_ref W_cand Hw
              (shape2_map IZR Srw) (shape2_map IZR Sca) Sri Sci) as [SWr SWc].
  destruct (@RPF_of_reference sim n K_i K_r _ _ W_ref W_cand _ _ idf 0
              Ssim HKi HKr Hw SWr SWc) as (Rc & Pr & F & E & _ & _ & _ & Hval).
  rewrite bert_score_eq_nonempty by assumption. cbv zeta. fold rt ct. rewrite Hpr, Hpc.
  assert (Ltr : length tr = n) by apply Str.
  assert (Ltc : length tc = n) by apply Stc.
  unfold bmm_permute. rewrite !length_div_norm_lift3, Ltr, Ltc, Nat.eqb_refl.
  fold sim. rewrite E.
  exists Rc, Pr, F, (h ++ [div_norm (lift3 tr); div_norm (lift3 tc)]).
  split; [reflexivity|].
  destruct (Hval b Hb) as (ER & EP & EF).
  (* the embeddings of the tokens of the pair agree on the two sides *)
  assert (Erows : forall i, (i < k)%nat ->
            nth i (nth b tr []) [] = nth i (nth b tc []) []).
  { destruct (pad_batch_row tok references Hb) as [Ir Ar].
    destruct (pad_batch_row tok candidates Hb') as [Ic Ac].
    cbv zeta in Ir, Ar, Ic, Ac. rewrite <- Hsame in Ic, Ac.
    fold e k K_i in Ir, Ar. fold e k K_r in Ic, Ac.
    unfold hidden_states in Hpr, Hpc.
    apply (Hpad _ _ _ _ _ _ _ _ b b k Hpr Hpc).
    - destruct Sri as [-> _]. exact Hb.
    - destruct Sci as [-> _]. exact Hb.
    - unfold rt, ct, tensors. cbn [fst snd]. rewrite Ir, Ic.
      unfold k. rewrite !firstn_app, !firstn_all, Nat.sub_diag. reflexivity.
    - rewrite (shape2_nth Sri Hb). unfold rt, tensors. cbn [fst snd]. exact Ar.
    - rewrite (shape2_nth Sci Hb). unfold ct, tensors. cbn [fst snd]. exact Ac. }
  destruct (unit_rows Hrr) as [Eu Hu]. destruct (unit_rows Hrc) as [Ev Hv].
  set (us := map unit_of (nth b tr [])) in *.
  set (vs := map unit_of (nth b tc [])) in *.
  assert (Hsim : nth b sim [] = matmul_t (lift2 us) (lift2 vs)).
  { unfold sim.
    rewrite (map2_nth matmul_t _ _ [] [] [])
      by (rewrite length_div_norm_lift3; lia).
    rewrite !nth_div_norm_lift3, Eu, Ev. reflexivity. }
  assert (Lus : length us = K_i).
  { unfold us. rewrite length_map. apply (shape2_nth Str Hb). }
  assert (Lvs : length vs = K_r).
  { unfold vs. rewrite length_map. apply (shape2_nth Stc Hb). }
  assert (Huv : forall i, (i < k)%nat -> nth i us [] = nth i vs []).
  { intros i Hi. unfold us, vs.
    transitivity (unit_of (nth i (nth b tr []) [])).
    - exact (map_nth unit_of (nth b tr []) [] i).
    - rewrite (Erows i Hi). symmetry. exact (map_nth unit_of (nth b tc []) [] i). }
  destruct (@padded_similarity sim b K_i K_r k us vs Hsim Lus Lvs HKi HKr Hki Hkr
              Hu Hv Huv) as [HR HP].
  (* the weights beyond the tokens of the pair are zero *)
  assert (Hz : forall i, (k <= i)%nat ->
            nth i (nth b W_ref []) 0 = 0 /\ nth i (nth b W_cand []) 0 = 0).
  { intros i Hi. destruct idf as [t|].
    - apply Hw0; [discriminate | exact Hi].
    - destruct Hw as [-> ->]. rewrite !nth_to_float. split.
      + unfold rt. now rewrite token_mask_zero_on_padding.
      + unfold ct. rewrite attention_zero_on_padding; [reflexivity | exact Hb'|].
        rewrite <- Hsame. exact Hi. }
  assert (ER1 : nth b Rc None = Some 1).
  { rewrite ER. unfold Reference.Recall, Reference.at2.
    apply weighted_ones; auto; [|apply (shape2_nth SWr Hb)].
    intros i Hi. destruct (HR i Hi) as [Hfin Hone].
    destruct (Nat.lt_ge_cases i k) as [Hk|Hk]; [left; auto|].
    right. split; [apply (Hz i Hk) | exact Hfin]. }
  assert (EP1 : nth b Pr None = Some 1).
  { rewrite EP. unfold Reference.Precision, Reference.at2.
    apply weighted_ones; auto; [|apply (shape2_nth SWc Hb)].
    intros j Hj. destruct (HP j Hj) as [Hfin Hone].
    destruct (Nat.lt_ge_cases j k) as [Hk|Hk]; [left; auto|].
    right. split; [apply (Hz j Hk) | exact Hfin]. }
  split; [exact ER1|]. split; [exact EP1|].
  rewrite EF, ER1, EP1. apply F1_one.
Qed.

(** The small encoder meets the assumptions. *)
Lemma toy_hidden_state (n : nat) (ids mask : list (list Z)) (idx : Z) t :
  py_index (forward Toy.model n ids mask) idx = Ok t -> t = map (map Toy.emb) ids.
Proof.
  intros H. apply py_index_In in H. simpl in H. now apply repeat_spec in H.
Qed.

Lemma toy_tokenizer_ok : Shape.tokenizer_ok Toy.tok.
Proof. intros s. simpl. discriminate. Qed.

Lemma toy_encoder_ok : Shape.encoder_ok Toy.model.
Proof.
  intros n ids mask t H. simpl in H. apply repeat_spec in H. subst t.
  split; [now rewrite length_map|]. intros b _.
  rewrite nth_map_map. now rewrite length_map.
Qed.

Lemma toy_encoder_ignores_padding : Shape.encoder_ignores_padding Toy.model.
Proof.
  intros n idx ids mask ids' mask' t t' b b' k Ht Ht' _ _ Hids _ _ i Hi.
  apply toy_hidden_state in Ht, Ht'. subst t t'.
  rewrite !nth_map_map.
  assert (E : forall l : list Z,
            nth i (map Toy.emb l) [] = nth i (map Toy.emb (firstn k l)) []).
  { intros l. rewrite <- firstn_map, nth_firstn.
    destruct (Nat.ltb_spec i k); [reflexivity | lia]. }
  rewrite (E (nth b ids [])), (E (nth b' ids' [])), Hids. reflexivity.
Qed.

Lemma identical_pair_scores_one_witness :
  exists Rc Pr F h',
    bert_score Toy.tok Toy.model ["a"; "ccc"]%string ["a"; "c"]%string
      (Some [0; 0; 0; 1; 2]) (-1) 0 [] = Ok ((Rc, Pr, F), h') /\
    nth 0 Rc None = Some 1 /\ nth 0 Pr None = Some 1 /\ nth 0 F None = Some 1.
Proof.
  apply (@identical_pair_scores_one Toy.tok Toy.model ["a"; "ccc"]%string ["a"; "c"]%string
           (Some [0; 0; 0; 1; 2]) (-1)%Z [] 0%nat
           (tensors Toy.tok ["a"; "ccc"]%string) (tensors Toy.tok ["a"; "c"]%string)
           [[[0; 1]; [4/5; 3/5]; [0; 1]; [1; 0]; [1; 0]];
            [[0; 1]; [0; 1]; [0; 1]; [0; 1]; [0; 1]]]
           [[[0; 1]; [4/5; 3/5]; [0; 1]]; [[0; 1]; [0; 1]; [0; 1]]]
           [[0; 1; 0; 0; 0]; [0; 2; 2; 2; 0]] [[0; 1; 0]; [0; 2; 0]]).
  - apply toy_tokenizer_ok.
  - apply toy_encoder_ok.
  - apply toy_encoder_ignores_padding.
  - reflexivity.
  - simpl. lia.
  - reflexivity.
  - reflexivity.
  - reflexivity.
  - reflexivity.
  - reflexivity.
  - simpl. repeat (apply Forall_cons || apply Forall_nil);
      apply in_range_unit; unfold Rdot, Rsum; simpl; lra.
  - simpl. repeat (apply Forall_cons || apply Forall_nil);
      apply in_range_unit; unfold Rdot, Rsum; simpl; lra.
  - split; reflexivity.
  - intros _. simpl. split; [|split].
    + repeat (apply Forall_cons || apply Forall_nil);
        first [ now left | apply weight_in_range_between; lra ].
    + repeat (apply Forall_cons || apply Forall_nil);
        first [ now left | apply weight_in_range_between; lra ].
    + intros i Hi. do 3 (destruct i as [|i]; [lia|]).
      split; [repeat (destruct i as [|i]; try reflexivity) | now destruct i].
  - unfold Rsum. simpl. lra.
  - unfold Rsum. simpl. lra.
Defined.

(** ** The constructor and the size of the IDF table *)

Lemma init_size_mismatch (w : World) (name path : string) (best_layer : Z) (base : R)
  (tok : BertTokenizer) (enc : BertModel) (idf : list R) :
  load_model w name best_layer = Ok (tok, enc) ->
  load_idf w path = Ok idf ->
  len tok <> length idf ->
  BERTScore.__init__ w name best_layer (Some path) base = Raise NameError.
Proof.
  intros Hm Hi Hne. unfold BERTScore.__init__. rewrite Hm. simpl. rewrite Hi. simpl.
  destruct (Nat.eqb_spec (len tok) (length idf)); [contradiction | reflexivity].
Qed.

Lemma init_size_match (w : World) (name path : string) (best_layer : Z) (base : R)
  (tok : BertTokenizer) (enc : BertModel) (idf : list R) :
  load_model w name best_layer = Ok (tok, enc) ->
  load_idf w path = Ok idf ->
  len tok = length idf ->
  BERTScore.__init__ w name best_layer (Some path) base =
  Ok {| BERTScore.tokenizer := tok; BERTScore.encoder := enc;
        BERTScore.rescale_base := base; BERTScore.idf := Some idf |}.
Proof.
  intros Hm Hi He. unfold BERTScore.__init__. rewrite Hm. simpl. rewrite Hi. simpl.
  destruct (Nat.eqb_spec (len tok) (length idf)); [reflexivity | contradiction].
Qed.

(** * Further properties of the module *)

(** ** [rescaling] *)

(** X1.  Rescaling with base 0 changes no score, finite or not. *)
Theorem rescaling_base_0 (scores : mat) : rescaling scores 0 = scores.
Proof.
  unfold rescaling. rewrite <- (map_id scores) at 2. apply map_ext. intros row.
  rewrite <- (map_id row) at 2. apply map_ext. intros [x|]; [|reflexivity].
  unfold ssub. rewrite sdiv_fin by lra. f_equal. field.
Qed.

Lemma nth_rescaling_entry (scores : mat) (base : R) (b i : nat) :
  nth i (nth b (rescaling scores base) []) None =
  Reference.rescaled base (nth i (nth b scores []) None).
Proof.
  unfold rescaling.
  transitivity (nth i (map (Reference.rescaled base) (nth b scores [])) None).
  - f_equal. exact (map_nth (map (Reference.rescaled base)) scores [] b).
  - exact (map_nth (Reference.rescaled base) (nth b scores []) None i).
Qed.

(** X2.  For a base below 1 rescaling keeps finite scores finite, keeps
    their order and leaves a score of 1 at 1. *)
Theorem rescaling_keeps_order (scores : mat) (base : R) (b i b' i' : nat) (x y : R) :
  base < 1 ->
  nth i (nth b scores []) None = Some x ->
  nth i' (nth b' scores []) None = Some y ->
  x <= y ->
  exists x' y',
    nth i (nth b (rescaling scores base) []) None = Some x' /\
    nth i' (nth b' (rescaling scores base) []) None = Some y' /\
    x' <= y' /\ (x = 1 -> x' = 1).
Proof.
  intros Hb Hx Hy Hxy. rewrite !nth_rescaling_entry, Hx, Hy.
  unfold Reference.rescaled, ssub. rewrite !sdiv_fin by lra.
  exists ((x - base) / (1 - base)), ((y - base) / (1 - base)).
  repeat split.
  - unfold Rdiv. apply Rmult_le_compat_r; [|lra].
    apply Rlt_le, Rinv_0_lt_compat. lra.
  - intros ->. field. lra.
Qed.

Lemma rescaling_keeps_order_witness :
  exists x' y',
    nth 1 (nth 0 (rescaling [[Some 1; Some (1/2)]] (1/2)) []) None = Some x' /\
    nth 0 (nth 0 (rescaling [[Some 1; Some (1/2)]] (1/2)) []) None = Some y' /\
    x' <= y' /\ (1/2 = 1 -> x' = 1).
Proof.
  apply (@rescaling_keeps_order [[Some 1; Some (1/2)]] (1/2) 0 1 0 0 (1/2) 1);
    simpl; try reflexivity; lra.
Defined.

(** X3.  With base 1 the divisor is zero.  On a tensor nothing is raised
    and no rescaled score is a finite number.  On a Python float the
    division raises [ZeroDivisionError], and base 1 is the only base for
    which it does; for any other base the float is rescaled as an entry of
    a tensor is. *)
Theorem rescaling_base_1 (scores : mat) (score : scalar) (base : R) :
  rescaling scores 1 = map (map (fun _ => None)) scores /\
  (rescaling_float score base = Raise ZeroDivisionError <-> base = 1) /\
  (forall x, rescaling_float score base = Ok x <->
             base <> 1 /\ rescaling [[score]] base = [[x]]).
Proof.
  split; [|split].
  - unfold rescaling. apply map_ext. intros row. apply map_ext. intros s.
    replace (1 - 1) with 0 by lra. apply sdiv_zero.
  - unfold rescaling_float. destruct (Req_dec_T (1 - base) 0) as [E|E].
    + split; [intros _; lra | reflexivity].
    + split; [discriminate | intros ->; exfalso; apply E; lra].
  - intros x. unfold rescaling_float, rescaling. cbn [map].
    destruct (Req_dec_T (1 - base) 0) as [E|E].
    + split; [discriminate | intros [H _]; exfalso; apply H; lra].
    + split.
      * intros H. inversion H; subst. split; [intros ->; apply E; lra | reflexivity].
      * intros [_ H]. inversion H. reflexivity.
Qed.

(** ** The harmonic mean *)



(** ** [apply_idf] *)

Lemma mapM_nth {A B} (f : A -> res B) (l : list A) (l' : list B) (b : nat) da db :
  mapM f l = Ok l' -> (b < length l)%nat -> f (nth b l da) = Ok (nth b l' db).
Proof.
  revert l' b. induction l as [|x l IH]; intros l' b H Hb; simpl in *; [lia|].
  destruct (f x) as [y|] eqn:E; simpl in H; [|discriminate].
  destruct (mapM f l) as [ys|] eqn:E'; simpl in H; [|discriminate].
  inversion H; subst. destruct b; simpl; [exact E|]. apply IH; [reflexivity | lia].
Qed.

Lemma mapM_raise {A B} (f : A -> res B) (e : exn) (l : list A) :
  (forall x e', f x = Raise e' -> e' = e) ->
  Exists (fun x => exists e', f x = Raise e') l -> mapM f l = Raise e.
Proof.
  intros Hu. induction 1 as [x l [e' Hx] | x l _ IH]; simpl.
  - rewrite Hx. simpl. now rewrite (Hu _ _ Hx).
  - destruct (f x) as [y|e'] eqn:E; simpl; [|now rewrite (Hu _ _ E)].
    rewrite IH. reflexivity.
Qed.

(** X5.  When [apply_idf] returns, the weights have the shape of the ids
    and every weight is the table entry of its id. *)
Theorem apply_idf_lookup (ids : list (list Z)) (idf_embed : list R) (W : list (list R))
  (b i : nat) :
  apply_idf ids idf_embed = Ok W ->
  (b < length ids)%nat -> (i < length (nth b ids []))%nat ->
  length W = length ids /\
  length (nth b W []) = length (nth b ids []) /\
  (0 <= nth i (nth b ids []) 0)%Z /\
  nth_error idf_embed (Z.to_nat (nth i (nth b ids []) 0%Z)) = Some (nth i (nth b W []) 0).
Proof.
  intros H Hb Hi. unfold apply_idf in H.
  pose proof (mapM_length _ _ H) as HL.
  pose proof (@mapM_nth _ _ _ ids W b [] [] H Hb) as Hrow.
  pose proof (mapM_length _ _ Hrow) as HLrow.
  pose proof (@mapM_nth _ _ _ (nth b ids []) (nth b W []) i 0%Z 0 Hrow Hi) as He.
  cbv beta in He. repeat split; auto.
  - destruct (Z.ltb_spec (nth i (nth b ids []) 0%Z) 0); [discriminate | lia].
  - destruct (Z.ltb_spec (nth i (nth b ids []) 0%Z) 0); [discriminate|].
    destruct (nth_error idf_embed _); [now inversion He | discriminate].
Qed.

Lemma apply_idf_lookup_witness :
  length [[0.5; 0.25]] = length [[1; 2]%Z] /\
  length (nth 0 [[0.5; 0.25]] []) = length (nth 0 [[1; 2]%Z] []) /\
  (0 <= nth 1 (nth 0 [[1; 2]%Z] []) 0)%Z /\
  nth_error [0; 0.5; 0.25] (Z.to_nat (nth 1 (nth 0 [[1; 2]%Z] []) 0%Z)) =
    Some (nth 1 (nth 0 [[0.5; 0.25]] []) 0).
Proof.
  apply (@apply_idf_lookup [[1; 2]%Z] [0; 0.5; 0.25] [[0.5; 0.25]] 0 1);
    simpl; try reflexivity; lia.
Defined.

(** X6.  An id below zero or beyond the table makes [apply_idf] raise
    [IndexError], wherever in the batch it stands. *)
Theorem apply_idf_out_of_table (ids : list (list Z)) (idf_embed : list R) :
  Exists (Exists (fun id => ~ Uniform.in_table (length idf_embed) id)) ids ->
  apply_idf ids idf_embed = Raise IndexError.
Proof.
  intros H. unfold apply_idf.
  set (f := fun id : Z => _).
  assert (Hf : forall x e', f x = Raise e' -> e' = IndexError).
  { intros x e'. unfold f. destruct (x <? 0)%Z; [now inversion 1|].
    destruct (nth_error idf_embed _); [discriminate | now inversion 1]. }
  assert (Hrow : forall (l0 : list Z) e', mapM f l0 = Raise e' -> e' = IndexError).
  { induction l0 as [|x l0 IH]; intros e'; simpl; [discriminate|].
    destruct (f x) eqn:E; simpl.
    - destruct (mapM f l0); simpl; [discriminate|]. intros H'. inversion H'; subst.
      now apply IH.
    - intros H'. inversion H'; subst. now apply (Hf x). }
  apply mapM_raise; [exact Hrow|].
  eapply Exists_impl; [|exact H]. intros l0 Hex. exists IndexError.
  apply mapM_raise; [exact Hf|].
  eapply Exists_impl; [|exact Hex]. intros id Hid. exists IndexError. unfold f.
  unfold Uniform.in_table in Hid.
  destruct (Z.ltb_spec id 0); [reflexivity|].
  destruct (nth_error idf_embed (Z.to_nat id)) eqn:E; [|reflexivity].
  exfalso. apply Hid. split; [lia|].
  assert (Z.to_nat id < length idf_embed)%nat by (apply nth_error_Some; congruence).
  lia.
Qed.

Lemma apply_idf_out_of_table_witness :
  apply_idf [[1; 2]; [7; 0]]%Z [0; 0.5; 0.25] = Raise IndexError.
Proof.
  apply (@apply_idf_out_of_table [[1; 2]; [7; 0]]%Z [0; 0.5; 0.25]).
  apply Exists_cons_tl, Exists_cons_hd, Exists_cons_hd.
  unfold Uniform.in_table. simpl. lia.
Defined.

(** ** [load_idf], [load_model] and the constructor *)

(** X7.  [load_idf] returns one weight per line of the file, line [i]
    parsed as a float giving weight [i]. *)
Theorem load_idf_one_weight_per_line (w : World) (path : string)
  (lines : list string) (idf : list R) (i : nat) :
  open_lines w path = Ok lines ->
  load_idf w path = Ok idf ->
  (i < length lines)%nat ->
  length idf = length lines /\
  py_float w (nth i lines ""%string) = Ok (nth i idf 0).
Proof.
  intros Ho Hl Hi. unfold load_idf in Hl. rewrite Ho in Hl. simpl in Hl.
  split; [exact (mapM_length _ _ Hl)|].
  exact (@mapM_nth _ _ _ lines idf i ""%string 0 Hl Hi).
Qed.

Lemma load_idf_one_weight_per_line_witness :
  length [1; 2] = length ["1.0"; "2.0"]%string /\
  py_float Toy.world (nth 1 ["1.0"; "2.0"]%string ""%string) = Ok (nth 1 [1; 2] 0).
Proof.
  apply (@load_idf_one_weight_per_line Toy.world "idf.txt" ["1.0"; "2.0"]%string
           [1; 2] 1%nat); simpl; try reflexivity; lia.
Defined.

(** X8.  A line that is not a float stops [load_idf] with the error
    [float] raises on it. *)
Theorem load_idf_unparsable_line (w : World) (path : string) (lines : list string)
  (e : exn) :
  open_lines w path = Ok lines ->
  (forall s e', py_float w s = Raise e' -> e' = e) ->
  Exists (fun s => exists e', py_float w s = Raise e') lines ->
  load_idf w path = Raise e.
Proof.
  unfold load_idf. intros -> Hu Hex. simpl. now apply mapM_raise.
Qed.

Lemma load_idf_unparsable_line_witness :
  load_idf Toy2.world "bad.txt"%string = Raise ValueError.
Proof.
  apply (@load_idf_unparsable_line Toy2.world "bad.txt"%string ["1.0"; "x"]%string
           ValueError).
  - reflexivity.
  - intros s e'. simpl.
    destruct (String.eqb s "1.0"); [discriminate|].
    destruct (String.eqb s "2.0"); [discriminate|]. now inversion 1.
  - apply Exists_cons_tl, Exists_cons_hd. exists ValueError. reflexivity.
Defined.

(** X9.  Truncating twice keeps the smaller number of layers: the order of
    two truncations does not matter. *)
Theorem truncate_bert_layers_twice (encoder : BertModel) (a b : Z) :
  (0 <= a)%Z -> (0 <= b)%Z ->
  truncate_bert_layers (truncate_bert_layers encoder a) b =
  truncate_bert_layers encoder (Z.min a b).
Proof.
  intros Ha Hb. unfold truncate_bert_layers, slice_to. cbn [n_layer forward].
  destruct (Z.ltb_spec a 0); [lia|]. destruct (Z.ltb_spec b 0); [lia|].
  destruct (Z.ltb_spec (Z.min a b) 0); [lia|].
  f_equal. lia.
Qed.

Lemma truncate_bert_layers_twice_witness :
  truncate_bert_layers (truncate_bert_layers Toy.model 3) 1 =
  truncate_bert_layers Toy.model (Z.min 3 1).
Proof. apply (@truncate_bert_layers_twice Toy.model 3%Z 1%Z); lia. Defined.

(** X10.  [load_model] hands back the loaded tokenizer, and the loaded
    encoder with its layers cut to [best_layer] when that is positive; for
    [best_layer <= 0], the default -1 included, the encoder is untouched.
    It never has more layers than the loaded one. *)
Theorem load_model_layers (w : World) (name : string) (best_layer : Z)
  (tok : BertTokenizer) (enc : BertModel) :
  load_model w name best_layer = Ok (tok, enc) ->
  exists enc0,
    tokenizer_from_pretrained w name = Ok tok /\
    model_from_pretrained w name = Ok enc0 /\
    forward enc = forward enc0 /\
    (n_layer enc <= n_layer enc0)%nat /\
    ((best_layer <= 0)%Z -> enc = enc0) /\
    ((0 < best_layer)%Z -> n_layer enc = Nat.min (Z.to_nat best_layer) (n_layer enc0)).
Proof.
  unfold load_model. intros H.
  destruct (tokenizer_from_pretrained w name) as [t|]; simpl in H; [|discriminate].
  destruct (model_from_pretrained w name) as [enc0|]; simpl in H; [|discriminate].
  inversion H; subst. exists enc0.
  destruct (Z.ltb_spec 0 best_layer) as [Hp|Hp].
  - unfold truncate_bert_layers, slice_to. cbn [n_layer forward].
    destruct (Z.ltb_spec best_layer 0); [lia|].
    repeat split; auto; lia.
  - repeat split; auto; lia.
Qed.

Lemma load_model_layers_witness :
  exists enc0,
    tokenizer_from_pretrained Toy.world "bert"%string = Ok Toy.tok /\
    model_from_pretrained Toy.world "bert"%string = Ok enc0 /\
    forward Toy.model = forward enc0 /\
    (n_layer Toy.model <= n_layer enc0)%nat /\
    ((-1 <= 0)%Z -> Toy.model = enc0) /\
    ((0 < -1)%Z -> n_layer Toy.model = Nat.min (Z.to_nat (-1)) (n_layer enc0)).
Proof.
  apply (@load_model_layers Toy.world "bert"%string (-1)%Z Toy.tok Toy.model).
  reflexivity.
Defined.

(** X11.  When the model loads and the file has exactly [len(tokenizer)]
    lines that parse, the constructor succeeds and keeps the table. *)
Theorem init_with_matching_table (w : World) (name path : string) (best_layer : Z)
  (base : R) (tok : BertTokenizer) (enc : BertModel) (idf : list R) :
  load_model w name best_layer = Ok (tok, enc) ->
  load_idf w path = Ok idf ->
  len tok = length idf ->
  BERTScore.__init__ w name best_layer (Some path) base =
  Ok {| BERTScore.tokenizer := tok; BERTScore.encoder := enc;
        BERTScore.rescale_base := base; BERTScore.idf := Some idf |}.
Proof. apply init_size_match. Qed.

Lemma init_with_matching_table_witness :
  BERTScore.__init__ Toy2.world "bert"%string (-1) (Some "idf.txt"%string) 0 =
  Ok {| BERTScore.tokenizer := Toy2.tok; BERTScore.encoder := Toy.model;
        BERTScore.rescale_base := 0; BERTScore.idf := Some [1; 2] |}.
Proof.
  apply (@init_with_matching_table Toy2.world "bert"%string "idf.txt"%string (-1)%Z 0
           Toy2.tok Toy.model [1; 2]); reflexivity.
Defined.

(** X12.  When the model loads and the file parses, a table whose size
    differs from [len(tokenizer)] always ends the constructor with
    [NameError]; the [ValueError] it means to raise is never reached. *)
Theorem init_with_mismatching_table (w : World) (name path : string) (best_layer : Z)
  (base : R) (tok : BertTokenizer) (enc : BertModel) (idf : list R) :
  load_model w name best_layer = Ok (tok, enc) ->
  load_idf w path = Ok idf ->
  len tok <> length idf ->
  BERTScore.__init__ w name best_layer (Some path) base = Raise NameError.
Proof. apply init_size_mismatch. Qed.

Lemma init_with_mismatching_table_witness :
  BERTScore.__init__ Toy.world "bert"%string (-1) (Some "idf.txt"%string) (1/2) =
  Raise NameError.
Proof.
  apply (@init_with_mismatching_table Toy.world "bert"%string "idf.txt"%string (-1)%Z
           (1/2) Toy.tok Toy.model [1; 2]); simpl; try reflexivity; lia.
Defined.

(** ** The pairwise cosines *)

Lemma compute_pairwise_cosine_distinct (h : heap) (re ce : loc) :
  (re < length h)%nat -> (ce < length h)%nat -> re <> ce ->
  compute_pairwise_cosine re ce h =
  match bmm_permute (div_norm (read re h)) (div_norm (read ce h)) with
  | Ok pc => Ok (pc, write ce (div_norm (read ce h)) (write re (div_norm (read re h)) h))
  | Raise e => Raise e
  end.
Proof.
  intros Hre Hce Hne. rewrite compute_pairwise_cosine_eq. cbv zeta.
  set (h1 := write re (div_norm (read re h)) h).
  assert (E1 : read ce h1 = read ce h) by (apply read_write_other; auto).
  rewrite E1.
  set (h2 := write ce (div_norm (read ce h)) h1).
  assert (Er : read re h2 = div_norm (read re h)).
  { unfold h2. rewrite read_write_other by auto. now apply read_write_same. }
  assert (Ec : read ce h2 = div_norm (read ce h)).
  { unfold h2. apply read_write_same. unfold h1. now rewrite write_length. }
  rewrite Er, Ec. reflexivity.
Qed.

(** X15.  Two embedding tensors of different batch sizes make
    [compute_RPF] raise [RuntimeError], whatever the masks and the table. *)
Theorem compute_RPF_batch_mismatch (h : heap) (re ce : loc)
  (wr wc : list (list R)) (rids cids : option (list (list Z)))
  (idf : option (list R)) (base : R) :
  (re < length h)%nat -> (ce < length h)%nat -> re <> ce ->
  length (read re h) <> length (read ce h) ->
  compute_RPF re ce wr wc rids cids idf base h = Raise RuntimeError.
Proof.
  intros Hre Hce Hne Hl.
  rewrite compute_RPF_eq, (compute_pairwise_cosine_distinct h Hre Hce Hne).
  unfold bmm_permute. rewrite !div_norm_length.
  destruct (Nat.eqb_spec (length (read re h)) (length (read ce h)));
    [contradiction | reflexivity].
Qed.

Lemma compute_RPF_batch_mismatch_witness :
  compute_RPF 0%nat 1%nat [[1]] [[1]] None None None 0
    [lift3 [[[0; 1]]; [[1; 0]]]; lift3 [[[0; 1]]]] = Raise RuntimeError.
Proof.
  apply (@compute_RPF_batch_mismatch
           [lift3 [[[0; 1]]; [[1; 0]]]; lift3 [[[0; 1]]]] 0%nat 1%nat
           [[1]] [[1]] None None None 0);
    [ simpl; lia | simpl; lia | discriminate | simpl; discriminate ].
Defined.

(** ** Swapping the two sides *)

Ltac tlia := unfold tensor3, mat, vec, scalar in *; lia.

Lemma smul_comm (a b : scalar) : smul a b = smul b a.
Proof. destruct a, b; simpl; try reflexivity. f_equal. lra. Qed.

Lemma sadd_comm (a b : scalar) : sadd a b = sadd b a.
Proof. destruct a, b; simpl; try reflexivity. f_equal. lra. Qed.

Lemma dot_comm (u v : vec) : dot u v = dot v u.
Proof.
  unfold dot, ssum. revert v. induction u as [|x u IH]; intros [|y v]; simpl;
    try reflexivity.
  now rewrite IH, smul_comm.
Qed.

Lemma F1_comm (r p : scalar) : Reference.F1 r p = Reference.F1 p r.
Proof.
  unfold Reference.F1. rewrite (sadd_comm r p). f_equal.
  rewrite <- !smul_assoc. f_equal. apply smul_comm.
Qed.

Lemma div_norm_shape (n K : nat) (t : tensor3) :
  shape2 n K t -> shape2 n K (div_norm t).
Proof.
  intros [Hl Hf]. unfold div_norm. split; [now rewrite length_map|].
  apply Forall_map. eapply Forall_impl; [|exact Hf].
  intros m Hm. now rewrite length_map.
Qed.

Lemma matmul_shape (n K_i K_r : nat) (A C : tensor3) :
  shape2 n K_i A -> shape2 n K_r C -> shape3 n K_i K_r (map2 matmul_t A C).
Proof.
  intros [La Fa] [Lc Fc]. split.
  - rewrite map2_length. unfold tensor3, mat, vec in *. lia.
  - apply Forall_map2. intros a c Ha Hc.
    rewrite Forall_forall in Fa, Fc. unfold matmul_t. split.
    + rewrite length_map. now apply Fa.
    + apply Forall_map, Forall_forall. intros u _. rewrite length_map. now apply Fc.
Qed.

Lemma matmul_transposed (n K_i K_r : nat) (A C : tensor3) (b i j : nat) :
  shape2 n K_i A -> shape2 n K_r C ->
  (b < n)%nat -> (i < K_i)%nat -> (j < K_r)%nat ->
  Reference.at3 (map2 matmul_t C A) b j i = Reference.at3 (map2 matmul_t A C) b i j.
Proof.
  intros SA SC Hb Hi Hj. unfold Reference.at3.
  pose proof (shape2_nth SA Hb) as LA. pose proof (shape2_nth SC Hb) as LC.
  destruct SA as [La _], SC as [Lc _].
  rewrite (map2_nth matmul_t C A [] [] []) by tlia.
  rewrite (map2_nth matmul_t A C [] [] []) by tlia.
  rewrite (nth_matmul_t (nth b C []) (nth b A [])) by tlia.
  rewrite (nth_matmul_t (nth b A []) (nth b C [])) by tlia.
  apply dot_comm.
Qed.

Lemma WeightMasks_swap wr wc wr' wc' rids cids idf W_ref W_cand :
  idf <> None ->
  Reference.WeightMasks wr wc (Some rids) (Some cids) idf W_ref W_cand ->
  Reference.WeightMasks wc' wr' (Some cids) (Some rids) idf W_cand W_ref.
Proof.
  unfold Reference.WeightMasks. destruct idf as [t|]; [|congruence].
  intros _ [H1 H2]. split; assumption.
Qed.

Lemma Recall_swapped (n K_i K_r : nat) (sim sim' : tensor3) (W : list (list R))
  (W' : list (list R)) (base : R) (b : nat) :
  (0 < K_i)%nat -> (0 < K_r)%nat ->
  (forall i j, (i < K_i)%nat -> (j < K_r)%nat ->
     Reference.at3 sim' b j i = Reference.at3 sim b i j) ->
  Reference.Recall sim' W base K_r K_i b = Reference.Precision sim W base K_i K_r b /\
  Reference.Precision sim' W' base K_r K_i b = Reference.Recall sim W' base K_i K_r b.
Proof.
  intros HK HK' Hat. unfold Reference.Recall, Reference.Precision. split.
  - f_equal. apply sum_over_ext. intros j Hj. f_equal. f_equal.
    unfold Reference.RecallMax, Reference.PrecisionMax.
    apply max_over_ext. intros i Hi. apply Hat; lia.
  - f_equal. apply sum_over_ext. intros i Hi. f_equal. f_equal.
    unfold Reference.RecallMax, Reference.PrecisionMax.
    apply max_over_ext. intros j Hj. apply Hat; lia.
Qed.

Lemma WeightMasks_swapped wr wc rids cids idf W_ref W_cand :
  Reference.WeightMasks wr wc rids cids idf W_ref W_cand ->
  Reference.WeightMasks wc wr cids rids idf W_cand W_ref.
Proof.
  unfold Reference.WeightMasks.
  destruct idf as [t|]; [destruct rids as [ri|]; destruct cids as [ci|]|];
    intros [H1 H2]; split; assumption.
Qed.

Lemma RPF_of_swap (sim sim' : tensor3) (B K_i K_r : nat)
  (wr wc wr' wc' W_ref W_cand : list (list R)) (rids cids : option (list (list Z)))
  (idf : option (list R)) (base : R) :
  shape3 B K_i K_r sim -> shape3 B K_r K_i sim' ->
  (0 < K_i)%nat -> (0 < K_r)%nat ->
  (forall b i j, (b < B)%nat -> (i < K_i)%nat -> (j < K_r)%nat ->
     Reference.at3 sim' b j i = Reference.at3 sim b i j) ->
  Reference.WeightMasks wr wc rids cids idf W_ref W_cand ->
  Reference.WeightMasks wc' wr' cids rids idf W_cand W_ref ->
  shape2 B K_i W_ref -> shape2 B K_r W_cand ->
  exists Rc Pr F,
    RPF_of sim wr wc rids cids idf base = Ok (Rc, Pr, F) /\
    RPF_of sim' wc' wr' cids rids idf base = Ok (Pr, Rc, F).
Proof.
  intros Hs Hs' HKi HKr Hat Hw Hw' SWr SWc.
  destruct (@RPF_of_reference sim B K_i K_r wr wc W_ref W_cand rids cids idf base
              Hs HKi HKr Hw SWr SWc) as (Rc & Pr & F & E & LR & LP & LF & Hv).
  destruct (@RPF_of_reference sim' B K_r K_i wc' wr' W_cand W_ref cids rids idf base
              Hs' HKr HKi Hw' SWc SWr) as (Rc' & Pr' & F' & E' & LR' & LP' & LF' & Hv').
  assert (Hsw : forall b, (b < B)%nat ->
            Reference.Recall sim' W_cand base K_r K_i b =
              Reference.Precision sim W_cand base K_i K_r b /\
            Reference.Precision sim' W_ref base K_r K_i b =
              Reference.Recall sim W_ref base K_i K_r b).
  { intros b Hb.
    apply (@Recall_swapped B K_i K_r sim sim' W_cand W_ref base b HKi HKr).
    intros i j; now apply Hat. }
  assert (ER : Rc' = Pr).
  { apply (@nth_ext scalar Rc' Pr None None); [lia|]. intros b Hb0.
    assert (Hb : (b < B)%nat) by lia. clear Hb0.
    destruct (Hv b Hb) as (_ & HP & _). destruct (Hv' b Hb) as (HR' & _).
    rewrite HR', HP. apply (Hsw b Hb). }
  assert (EP : Pr' = Rc).
  { apply (@nth_ext scalar Pr' Rc None None); [lia|]. intros b Hb0.
    assert (Hb : (b < B)%nat) by lia. clear Hb0.
    destruct (Hv b Hb) as (HR & _). destruct (Hv' b Hb) as (_ & HP' & _).
    rewrite HP', HR. apply (Hsw b Hb). }
  assert (EF : F' = F).
  { apply (@nth_ext scalar F' F None None); [lia|]. intros b Hb0.
    assert (Hb : (b < B)%nat) by lia. clear Hb0.
    destruct (Hv b Hb) as (_ & _ & HF). destruct (Hv' b Hb) as (_ & _ & HF').
    rewrite HF', HF, ER, EP. apply F1_comm. }
  exists Rc, Pr, F. split; [exact E|]. now rewrite E', ER, EP, EF.
Qed.

(** X16.  [compute_RPF] treats its two sides alike: called with the two
    embedding tensors, the two weight masks and the two id tensors
    exchanged, it returns the former precision as recall, the former recall
    as precision, and the same F1. *)
Theorem compute_RPF_swap (h : heap) (re ce : loc) (B K_i K_r : nat)
  (wr wc W_ref W_cand : list (list R)) (rids cids : option (list (list Z)))
  (idf : option (list R)) (base : R) :
  (re < length h)%nat -> (ce < length h)%nat -> re <> ce ->
  shape2 B K_i (read re h) -> shape2 B K_r (read ce h) ->
  (0 < K_i)%nat -> (0 < K_r)%nat ->
  Reference.WeightMasks wr wc rids cids idf W_ref W_cand ->
  shape2 B K_i W_ref -> shape2 B K_r W_cand ->
  exists Rc Pr F h1 h2,
    compute_RPF re ce wr wc rids cids idf base h = Ok ((Rc, Pr, F), h1) /\
    compute_RPF ce re wc wr cids rids idf base h = Ok ((Pr, Rc, F), h2).
Proof.
  intros Hre Hce Hne Sr Sc HKi HKr Hw SWr SWc.
  assert (Lr : length (read re h) = B) by apply Sr.
  assert (Lc : length (read ce h) = B) by apply Sc.
  pose proof (div_norm_shape Sr) as SA. pose proof (div_norm_shape Sc) as SC.
  set (A := div_norm (read re h)) in *. set (C := div_norm (read ce h)) in *.
  destruct (@RPF_of_swap (map2 matmul_t A C) (map2 matmul_t C A) B K_i K_r
              wr wc wr wc W_ref W_cand rids cids idf base
              (matmul_shape SA SC) (matmul_shape SC SA) HKi HKr)
    as (Rc & Pr & F & E & E'); auto.
  - intros b i j Hb Hi Hj. now apply (matmul_transposed SA SC).
  - now apply WeightMasks_swapped.
  - rewrite !compute_RPF_eq.
    rewrite (compute_pairwise_cosine_distinct h Hre Hce Hne).
    rewrite (@compute_pairwise_cosine_distinct h ce re Hce Hre) by auto.
    fold A C. unfold bmm_permute.
    assert (LA : length A = B) by apply SA. assert (LC : length C = B) by apply SC.
    rewrite LA, LC, Nat.eqb_refl, E, E'.
    eexists Rc, Pr, F, _, _. split; reflexivity.
Qed.

Lemma compute_RPF_swap_witness :
  exists Rc Pr F h1 h2,
    compute_RPF 0%nat 1%nat [[1; 1]] [[1]] None None None 0
      [lift3 [[[0; 1]; [4/5; 3/5]]]; lift3 [[[0; 1]]]] = Ok ((Rc, Pr, F), h1) /\
    compute_RPF 1%nat 0%nat [[1]] [[1; 1]] None None None 0
      [lift3 [[[0; 1]; [4/5; 3/5]]]; lift3 [[[0; 1]]]] = Ok ((Pr, Rc, F), h2).
Proof.
  apply (@compute_RPF_swap [lift3 [[[0; 1]; [4/5; 3/5]]]; lift3 [[[0; 1]]]]
           0%nat 1%nat 1%nat 2%nat 1%nat [[1; 1]] [[1]] [[1; 1]] [[1]]
           None None None 0);
    [ simpl; lia | simpl; lia | discriminate
    | repeat (split || constructor) | repeat (split || constructor)
    | lia | lia | split; reflexivity
    | repeat (split || constructor) | repeat (split || constructor) ].
Defined.

(** ** [bert_score] on well-formed input *)

Lemma lift3_shape (n K : nat) (t : list (list (list R))) :
  shape2 n K t -> shape2 n K (lift3 t).
Proof.
  intros [Hl Hf]. unfold lift3, lift2. split; [now rewrite length_map|].
  apply Forall_map. eapply Forall_impl; [|exact Hf].
  intros m Hm. now rewrite length_map.
Qed.

Lemma bert_score_reference
  (tok : BertTokenizer) (m : BertModel) (references candidates : list string)
  (idf : option (list R)) (output_layer_index : Z) (base : R) (h : heap)
  (tr tc : list (list (list R))) (W_ref W_cand : list (list R)) :
  let rt := tensors tok references in
  let ct := tensors tok candidates in
  let sim := map2 matmul_t (div_norm (lift3 tr)) (div_norm (lift3 tc)) in
  let K_i := Shape.padded_length tok references in
  let K_r := Shape.padded_length tok candidates in
  Shape.tokenizer_ok tok -> Shape.encoder_ok m ->
  length references = length candidates -> references <> [] ->
  py_index (hidden_states m (fst (fst rt)) (snd (fst rt))) output_layer_index = Ok tr ->
  py_index (hidden_states m (fst (fst ct)) (snd (fst ct))) output_layer_index = Ok tc ->
  Reference.WeightMasks (to_float (snd rt)) (to_float (snd (fst ct)))
    (Some (fst (fst rt))) (Some (fst (fst ct))) idf W_ref W_cand ->
  exists Rc Pr F,
    bert_score tok m references candidates idf output_layer_index base h =
      Ok ((Rc, Pr, F), h ++ [div_norm (lift3 tr); div_norm (lift3 tc)]) /\
    length Rc = length references /\ length Pr = length references /\
    length F = length references /\
    forall b, (b < length references)%nat ->
      nth b Rc None = Reference.Recall sim W_ref base K_i K_r b /\
      nth b Pr None = Reference.Precision sim W_cand base K_i K_r b /\
      nth b F None = Reference.F1 (nth b Rc None) (nth b Pr None).
Proof.
  intros rt ct sim K_i K_r Htok Henc Hlen Hne Hpr Hpc Hw.
  set (n := length references) in *.
  destruct (tensors_shape tok references) as (Sri & Sra & Srw).
  destruct (tensors_shape tok candidates) as (Sci & Sca & Scw).
  fold rt K_i n in Sri, Sra, Srw. fold ct K_r in Sci, Sca, Scw.
  rewrite <- Hlen in Sci, Sca, Scw. fold n in Sci, Sca, Scw.
  assert (Hne' : candidates <> []).
  { intros E. apply Hne. destruct references; [reflexivity|].
    unfold n in Hlen. rewrite E in Hlen. discriminate. }
  assert (HKi : (0 < K_i)%nat) by now apply padded_length_pos.
  assert (HKr : (0 < K_r)%nat) by now apply padded_length_pos.
  pose proof (@encoder_output_shape m _ _ _ tr n K_i Henc Sri Hpr) as Str.
  pose proof (@encoder_output_shape m _ _ _ tc n K_r Henc Sci Hpc) as Stc.
  pose proof (pairwise_shape Str Stc) as Ssim. fold sim in Ssim.
  destruct (@WeightMasks_shape n K_i K_r _ _ _ _ idf W_ref W_cand Hw
              (shape2_map IZR Srw) (shape2_map IZR Sca) Sri Sci) as [SWr SWc].
  destruct (@RPF_of_reference sim n K_i K_r _ _ W_ref W_cand _ _ idf base
              Ssim HKi HKr Hw SWr SWc) as (Rc & Pr & F & E & Hrest).
  exists Rc, Pr, F. split; [|exact Hrest].
  rewrite bert_score_eq_nonempty by assumption. cbv zeta. fold rt ct. rewrite Hpr, Hpc.
  assert (Ltr : length tr = n) by apply Str.
  assert (Ltc : length tc = n) by apply Stc.
  unfold bmm_permute. rewrite !length_div_norm_lift3, Ltr, Ltc, Nat.eqb_refl.
  fold sim. rewrite E. reflexivity.
Qed.

(** X17.  With a tokenizer that gives every sentence a token and an
    encoder that returns one vector per position, [bert_score] on two
    non-empty lists of equal length returns one recall, precision and F1
    per pair: those of the reference definition on the pairwise tensor of
    the two normalised hidden states, with the weight masks in use (without
    a table: the token mask for the references, the attention mask for the
    candidates). *)
Theorem bert_score_scores
  (tok : BertTokenizer) (m : BertModel) (references candidates : list string)
  (idf : option (list R)) (output_layer_index : Z) (base : R) (h : heap)
  (rt ct : list (list Z) * list (list Z) * list (list Z))
  (tr tc : list (list (list R))) (W_ref W_cand : list (list R)) :
  let sim := map2 matmul_t (div_norm (lift3 tr)) (div_norm (lift3 tc)) in
  let K_i := Shape.padded_length tok references in
  let K_r := Shape.padded_length tok candidates in
  Shape.tokenizer_ok tok -> Shape.encoder_ok m ->
  length references = length candidates -> references <> [] ->
  sents_to_tensor tok references = Ok rt ->
  sents_to_tensor tok candidates = Ok ct ->
  py_index (hidden_states m (fst (fst rt)) (snd (fst rt))) output_layer_index = Ok tr ->
  py_index (hidden_states m (fst (fst ct)) (snd (fst ct))) output_layer_index = Ok tc ->
  Reference.WeightMasks (to_float (snd rt)) (to_float (snd (fst ct)))
    (Some (fst (fst rt))) (Some (fst (fst ct))) idf W_ref W_cand ->
  exists Rc Pr F,
    bert_score tok m references candidates idf output_layer_index base h =
      Ok ((Rc, Pr, F), h ++ [div_norm (lift3 tr); div_norm (lift3 tc)]) /\
    length Rc = length references /\ length Pr = length references /\
    length F = length references /\
    forall b, (b < length references)%nat ->
      nth b Rc None = Reference.Recall sim W_ref base K_i K_r b /\
      nth b Pr None = Reference.Precision sim W_cand base K_i K_r b /\
      nth b F None = Reference.F1 (nth b Rc None) (nth b Pr None).
Proof.
  intros sim K_i K_r Htok Henc Hlen Hne Hrt Hct Hpr Hpc Hw.
  destruct (sents_to_tensor_ok _ _ Hrt) as [_ ->].
  destruct (sents_to_tensor_ok _ _ Hct) as [_ ->].
  destruct (@bert_score_reference tok m references candidates idf output_layer_index
              base h tr tc W_ref W_cand Htok Henc Hlen Hne Hpr Hpc Hw)
    as (Rc & Pr & F & Hrun & Hrest).
  exists Rc, Pr, F. split; [exact Hrun | exact Hrest].
Qed.

Lemma bert_score_scores_witness :
  exists Rc Pr F h',
    bert_score Toy.tok Toy.model ["a"%string] ["c"%string] None (-1) (1/2) [] =
      Ok ((Rc, Pr, F), h') /\
    length Rc = 1%nat /\ length Pr = 1%nat /\ length F = 1%nat.
Proof.
  destruct (@bert_score_scores Toy.tok Toy.model ["a"%string] ["c"%string]
              None (-1)%Z (1/2) []
              (tensors Toy.tok ["a"%string]) (tensors Toy.tok ["c"%string])
              [[[0; 1]; [4/5; 3/5]; [0; 1]]] [[[0; 1]; [0; 1]; [0; 1]]]
              (to_float (snd (tensors Toy.tok ["a"%string])))
              (to_float (snd (fst (tensors Toy.tok ["c"%string])))))
    as (Rc & Pr & F & H1 & H2 & H3 & H4 & _).
  - apply toy_tokenizer_ok.
  - apply toy_encoder_ok.
  - reflexivity.
  - discriminate.
  - reflexivity.
  - reflexivity.
  - reflexivity.
  - reflexivity.
  - split; reflexivity.
  - exists Rc, Pr, F. eexists. repeat split; eauto.
Defined.

Lemma apply_idf_in_table (ids : list (list Z)) (t : list R) :
  Forall (Forall (Uniform.in_table (length t))) ids ->
  apply_idf ids t = Ok (map (map (fun id => nth (Z.to_nat id) t 0)) ids).
Proof.
  intros H. unfold apply_idf. apply mapM_ok. intros l0 Hl0.
  apply mapM_ok. intros id Hid.
  rewrite Forall_forall in H. specialize (H l0 Hl0).
  rewrite Forall_forall in H. specialize (H id Hid). unfold Uniform.in_table in H.
  destruct (Z.ltb_spec id 0); [lia|].
  rewrite (nth_error_nth' t 0) by lia. reflexivity.
Qed.

(** X18.  [bert_score] returns a result, one score triple per pair,
    whenever the two lists are non-empty and equally long, the layer index
    selects a hidden state on both sides, and, if a table is given, every
    token id and the padding id has an entry in it. *)
Theorem bert_score_returns
  (tok : BertTokenizer) (m : BertModel) (references candidates : list string)
  (idf : option (list R)) (output_layer_index : Z) (base : R) (h : heap)
  (rt ct : list (list Z) * list (list Z) * list (list Z))
  (tr tc : list (list (list R))) :
  Shape.tokenizer_ok tok -> Shape.encoder_ok m ->
  length references = length candidates -> references <> [] ->
  sents_to_tensor tok references = Ok rt ->
  sents_to_tensor tok candidates = Ok ct ->
  py_index (hidden_states m (fst (fst rt)) (snd (fst rt))) output_layer_index = Ok tr ->
  py_index (hidden_states m (fst (fst ct)) (snd (fst ct))) output_layer_index = Ok tc ->
  (forall t, idf = Some t ->
     Uniform.covers tok (length t) references /\
     Uniform.covers tok (length t) candidates) ->
  exists Rc Pr F h',
    bert_score tok m references candidates idf output_layer_index base h =
      Ok ((Rc, Pr, F), h') /\
    length Rc = length references /\ length Pr = length references /\
    length F = length references.
Proof.
  intros Htok Henc Hlen Hne Hrt Hct Hpr Hpc Hidf.
  destruct (sents_to_tensor_ok _ _ Hrt) as [_ ->].
  destruct (sents_to_tensor_ok _ _ Hct) as [_ ->].
  set (rt := tensors tok references) in *. set (ct := tensors tok candidates) in *.
  assert (Hw : exists W_ref W_cand,
            Reference.WeightMasks (to_float (snd rt)) (to_float (snd (fst ct)))
              (Some (fst (fst rt))) (Some (fst (fst ct))) idf W_ref W_cand).
  { unfold Reference.WeightMasks. destruct idf as [t|].
    - destruct (Hidf t eq_refl) as [Hr Hc].
      eexists _, _. split; apply apply_idf_in_table; now apply padded_ids_in_table.
    - eexists _, _. split; reflexivity. }
  destruct Hw as (W_ref & W_cand & Hw).
  destruct (@bert_score_reference tok m references candidates idf output_layer_index
              base h tr tc W_ref W_cand Htok Henc Hlen Hne Hpr Hpc Hw)
    as (Rc & Pr & F & H1 & H2 & H3 & H4 & _).
  exists Rc, Pr, F. eexists. repeat split; eauto.
Qed.

Lemma bert_score_returns_witness :
  exists Rc Pr F h',
    bert_score Toy.tok Toy.model ["a"%string] ["c"%string]
      (Some [0; 0; 0; 1; 2]) (-1) 0 [] = Ok ((Rc, Pr, F), h') /\
    length Rc = 1%nat /\ length Pr = 1%nat /\ length F = 1%nat.
Proof.
  apply (@bert_score_returns Toy.tok Toy.model ["a"%string] ["c"%string]
           (Some [0; 0; 0; 1; 2]) (-1)%Z 0 []
           (tensors Toy.tok ["a"%string]) (tensors Toy.tok ["c"%string])
           [[[0; 1]; [4/5; 3/5]; [0; 1]]] [[[0; 1]; [0; 1]; [0; 1]]]).
  - apply toy_tokenizer_ok.
  - apply toy_encoder_ok.
  - reflexivity.
  - discriminate.
  - reflexivity.
  - reflexivity.
  - reflexivity.
  - reflexivity.
  - intros t Ht. inversion Ht; subst t. split.
    + split; [unfold Uniform.in_table; simpl; lia|]. simpl.
      repeat (apply Forall_cons || apply Forall_nil);
        unfold Uniform.in_table; cbv [Toy.char_id Ascii.eqb Bool.eqb]; simpl; lia.
    + split; [unfold Uniform.in_table; simpl; lia|]. simpl.
      repeat (apply Forall_cons || apply Forall_nil);
        unfold Uniform.in_table; cbv [Toy.char_id Ascii.eqb Bool.eqb]; simpl; lia.
Defined.

(** X19.  With an IDF table [bert_score] is symmetric: on well-formed
    input, exchanging the reference and candidate lists exchanges recall
    and precision and keeps F1.  (Without a table it is not: the two sides
    get different masks.) *)
Theorem bert_score_with_table_swap
  (tok : BertTokenizer) (m : BertModel) (references candidates : list string)
  (t : list R) (output_layer_index : Z) (base : R) (h : heap)
  (rt ct : list (list Z) * list (list Z) * list (list Z))
  (tr tc : list (list (list R))) :
  Shape.tokenizer_ok tok -> Shape.encoder_ok m ->
  length references = length candidates -> references <> [] ->
  sents_to_tensor tok references = Ok rt ->
  sents_to_tensor tok candidates = Ok ct ->
  py_index (hidden_states m (fst (fst rt)) (snd (fst rt))) output_layer_index = Ok tr ->
  py_index (hidden_states m (fst (fst ct)) (snd (fst ct))) output_layer_index = Ok tc ->
  Uniform.covers tok (length t) references ->
  Uniform.covers tok (length t) candidates ->
  exists Rc Pr F h1 h2,
    bert_score tok m references candidates (Some t) output_layer_index base h =
      Ok ((Rc, Pr, F), h1) /\
    bert_score tok m candidates references (Some t) output_layer_index base h =
      Ok ((Pr, Rc, F), h2).
Proof.
  intros Htok Henc Hlen Hne Hrt Hct Hpr Hpc Hcr Hcc.
  destruct (sents_to_tensor_ok _ _ Hrt) as [_ ->].
  destruct (sents_to_tensor_ok _ _ Hct) as [_ ->].
  set (rt := tensors tok references) in *. set (ct := tensors tok candidates) in *.
  set (n := length references) in *.
  set (K_i := Shape.padded_length tok references).
  set (K_r := Shape.padded_length tok candidates).
  destruct (tensors_shape tok references) as (Sri & Sra & Srw).
  destruct (tensors_shape tok candidates) as (Sci & Sca & Scw).
  fold rt K_i n in Sri, Sra, Srw. fold ct K_r in Sci, Sca, Scw.
  rewrite <- Hlen in Sci, Sca, Scw. fold n in Sci, Sca, Scw.
  assert (Hne' : candidates <> []).
  { intros E. apply Hne. destruct references; [reflexivity|].
    unfold n in Hlen. rewrite E in Hlen. discriminate. }
  assert (HKi : (0 < K_i)%nat) by now apply padded_length_pos.
  assert (HKr : (0 < K_r)%nat) by now apply padded_length_pos.
  pose proof (@encoder_output_shape m _ _ _ tr n K_i Henc Sri Hpr) as Str.
  pose proof (@encoder_output_shape m _ _ _ tc n K_r Henc Sci Hpc) as Stc.
  pose proof (div_norm_shape (lift3_shape Str)) as SA.
  pose proof (div_norm_shape (lift3_shape Stc)) as SC.
  set (A := div_norm (lift3 tr)) in *. set (C := div_norm (lift3 tc)) in *.
  pose proof (@apply_idf_in_table _ t (padded_ids_in_table Hcr)) as Er. fold rt in Er.
  pose proof (@apply_idf_in_table _ t (padded_ids_in_table Hcc)) as Ec. fold ct in Ec.
  destruct (@RPF_of_swap (map2 matmul_t A C) (map2 matmul_t C A) n K_i K_r
              (to_float (snd rt)) (to_float (snd (fst ct)))
              (to_float (snd (fst rt))) (to_float (snd ct))
              (map (map (fun id : Z => nth (Z.to_nat id) t 0)) (fst (fst rt)))
              (map (map (fun id : Z => nth (Z.to_nat id) t 0)) (fst (fst ct)))
              (Some (fst (fst rt))) (Some (fst (fst ct))) (Some t) base
              (matmul_shape SA SC) (matmul_shape SC SA) HKi HKr)
    as (Rc & Pr & F & E & E').
  - intros b i j Hb Hi Hj. now apply (matmul_transposed SA SC).
  - split; [exact Er | exact Ec].
  - split; [exact Ec | exact Er].
  - apply (@apply_idf_shape n K_i _ _ _ Er Sri).
  - apply (@apply_idf_shape n K_r _ _ _ Ec Sci).
  - assert (LA : length A = n) by apply SA. assert (LC : length C = n) by apply SC.
    exists Rc, Pr, F. eexists _, _. split.
    + rewrite bert_score_eq_nonempty by assumption. cbv zeta. fold rt ct.
      rewrite Hpr, Hpc. fold A C.
      unfold bmm_permute. rewrite LA, LC, Nat.eqb_refl, E. reflexivity.
    + rewrite bert_score_eq_nonempty by assumption. cbv zeta. fold rt ct.
      rewrite Hpr, Hpc. fold A C.
      unfold bmm_permute. rewrite LA, LC, Nat.eqb_refl, E'. reflexivity.
Qed.

Lemma bert_score_with_table_swap_witness :
  exists Rc Pr F h1 h2,
    bert_score Toy.tok Toy.model ["a"%string] ["c"%string]
      (Some [0; 0; 0; 1; 2]) (-1) 0 [] = Ok ((Rc, Pr, F), h1) /\
    bert_score Toy.tok Toy.model ["c"%string] ["a"%string]
      (Some [0; 0; 0; 1; 2]) (-1) 0 [] = Ok ((Pr, Rc, F), h2).
Proof.
  apply (@bert_score_with_table_swap Toy.tok Toy.model ["a"%string] ["c"%string]
           [0; 0; 0; 1; 2] (-1)%Z 0 []
           (tensors Toy.tok ["a"%string]) (tensors Toy.tok ["c"%string])
           [[[0; 1]; [4/5; 3/5]; [0; 1]]] [[[0; 1]; [0; 1]; [0; 1]]]).
  - apply toy_tokenizer_ok.
  - apply toy_encoder_ok.
  - reflexivity.
  - discriminate.
  - reflexivity.
  - reflexivity.
  - reflexivity.
  - reflexivity.
  - split; [unfold Uniform.in_table; simpl; lia|]. simpl.
    repeat (apply Forall_cons || apply Forall_nil);
      unfold Uniform.in_table; cbv [Toy.char_id Ascii.eqb Bool.eqb]; simpl; lia.
  - split; [unfold Uniform.in_table; simpl; lia|]. simpl.
    repeat (apply Forall_cons || apply Forall_nil);
      unfold Uniform.in_table; cbv [Toy.char_id Ascii.eqb Bool.eqb]; simpl; lia.
Defined.

(** ** Scaling the IDF table *)








(** ** [bert_score] and the store *)

(** X21.  What [bert_score] returns does not depend on the tensors that
    already exist, and it touches none of them: on success the store has
    grown by exactly the two hidden states, normalised. *)
Theorem bert_score_store
  (tok : BertTokenizer) (m : BertModel) (references candidates : list string)
  (idf : option (list R)) (output_layer_index : Z) (base : R) (h h2 : heap) :
  run (bert_score tok m references candidates idf output_layer_index base) h =
  run (bert_score tok m references candidates idf output_layer_index base) h2 /\
  forall v h',
    bert_score tok m references candidates idf output_layer_index base h = Ok (v, h') ->
    exists a c, h' = h ++ [a; c] /\
      forall l, (l < length h)%nat -> read l h' = read l h.
Proof.
  unfold run. rewrite !bert_score_eq.
  destruct (sents_to_tensor tok references) as [rt|]; [|split; [reflexivity|discriminate]].
  destruct (sents_to_tensor tok candidates) as [ct|]; [|split; [reflexivity|discriminate]].
  destruct (py_index _ output_layer_index) as [tr|]; [|split; [reflexivity|discriminate]].
  destruct (py_index _ output_layer_index) as [tc|]; [|split; [reflexivity|discriminate]].
  destruct (bmm_permute _ _) as [pc|]; [|split; [reflexivity|discriminate]].
  destruct (RPF_of _ _ _ _ _ _ _) as [v0|]; [|split; [reflexivity|discriminate]].
  split; [reflexivity|].
  intros v h' H. inversion H; subst. eexists _, _. split; [reflexivity|].
  intros l Hl. unfold read. now rewrite app_nth1.
Qed.

Lemma py_index_raises {A} (l : list A) (i : Z) (e : exn) :
  py_index l i = Raise e -> e = IndexError.
Proof.
  unfold py_index. destruct (_ && _)%bool; [|now inversion 1].
  destruct (nth_error l _); [discriminate | now inversion 1].
Qed.

Lemma bert_score_empty_list
  (tok : BertTokenizer) (m : BertModel) (references candidates : list string)
  (idf : option (list R)) (output_layer_index : Z) (base : R) (h : heap) :
  references = [] \/ candidates = [] ->
  bert_score tok m references candidates idf output_layer_index base h = Raise ValueError.
Proof.
  intros H. rewrite bert_score_eq.
  destruct references as [|r references]; [reflexivity|].
  destruct H as [H|H]; [discriminate|]. subst candidates.
  rewrite sents_to_tensor_nonempty by discriminate. reflexivity.
Qed.

Lemma bert_score_mismatch_raises
  (tok : BertTokenizer) (m : BertModel) (references candidates : list string)
  (idf : option (list R)) (output_layer_index : Z) (base : R) (h : heap) :
  Shape.encoder_ok m ->
  length references <> length candidates ->
  references <> [] -> candidates <> [] ->
  bert_score tok m references candidates idf output_layer_index base h = Raise IndexError \/
  bert_score tok m references candidates idf output_layer_index base h = Raise RuntimeError.
Proof.
  intros Henc Hlen Hr Hc. rewrite bert_score_eq_nonempty by assumption. cbv zeta.
  destruct (tensors_shape tok references) as ([Lr _] & _).
  destruct (tensors_shape tok candidates) as ([Lc _] & _).
  destruct (py_index (hidden_states m (fst (fst (tensors tok references))) _) _)
    as [tr|e] eqn:Er; [|left; now rewrite (py_index_raises _ _ Er)].
  destruct (py_index (hidden_states m (fst (fst (tensors tok candidates))) _) _)
    as [tc|e] eqn:Ec; [|left; now rewrite (py_index_raises _ _ Ec)].
  right. apply py_index_In in Er, Ec.
  destruct (Henc _ _ _ _ Er) as [Ltr _]. destruct (Henc _ _ _ _ Ec) as [Ltc _].
  unfold bmm_permute. rewrite !length_div_norm_lift3.
  destruct (Nat.eqb_spec (length tr) (length tc)); [lia | reflexivity].
Qed.

Lemma bert_score_mismatch_error
  (tok : BertTokenizer) (m : BertModel) (references candidates : list string)
  (idf : option (list R)) (output_layer_index : Z) (base : R) (h : heap) :
  Shape.encoder_ok m ->
  length references <> length candidates ->
  exists e,
    bert_score tok m references candidates idf output_layer_index base h = Raise e.
Proof.
  intros Henc Hlen.
  destruct references as [|r references].
  - exists ValueError. apply bert_score_empty_list. now left.
  - destruct candidates as [|c candidates].
    + exists ValueError. apply bert_score_empty_list. now right.
    + destruct (@bert_score_mismatch_raises tok m (r :: references) (c :: candidates)
                  idf output_layer_index base h Henc Hlen) as [E|E];
        try discriminate; eexists; exact E.
Qed.

(** X22.  [bert_score] never returns on lists of different lengths.  If
    one of the two lists is empty the tokenizer refuses it with
    [ValueError]; otherwise both lists are tokenised and embedded, and the
    call raises [IndexError] if the layer index selects no hidden state and
    [RuntimeError], from the batched product, if it does. *)
Theorem bert_score_unequal_lengths
  (tok : BertTokenizer) (m : BertModel) (references candidates : list string)
  (idf : option (list R)) (output_layer_index : Z) (base : R) (h : heap) :
  Shape.encoder_ok m ->
  length references <> length candidates ->
  (references = [] \/ candidates = [] ->
     bert_score tok m references candidates idf output_layer_index base h =
       Raise ValueError) /\
  (references <> [] -> candidates <> [] ->
     bert_score tok m references candidates idf output_layer_index base h =
       Raise IndexError \/
     bert_score tok m references candidates idf output_layer_index base h =
       Raise RuntimeError).
Proof.
  intros Henc Hlen. split.
  - apply bert_score_empty_list.
  - intros Hr Hc.
    exact (@bert_score_mismatch_raises tok m references candidates idf
             output_layer_index base h Henc Hlen Hr Hc).
Qed.

Lemma bert_score_unequal_lengths_witness :
  (["a"%string; "c"%string] = [] \/ ["c"%string] = [] ->
     bert_score Toy.tok Toy.model ["a"%string; "c"%string] ["c"%string] None (-1) 0 [] =
       Raise ValueError) /\
  (["a"%string; "c"%string] <> [] -> ["c"%string] <> [] ->
     bert_score Toy.tok Toy.model ["a"%string; "c"%string] ["c"%string] None (-1) 0 [] =
       Raise IndexError \/
     bert_score Toy.tok Toy.model ["a"%string; "c"%string] ["c"%string] None (-1) 0 [] =
       Raise RuntimeError).
Proof.
  apply (@bert_score_unequal_lengths Toy.tok Toy.model
           ["a"%string; "c"%string] ["c"%string] None (-1)%Z 0 []).
  - apply toy_encoder_ok.
  - simpl. lia.
Defined.

(** ** [BERTScore.score] *)

(** X23.  The degenerate calls of [score]: a batch size of 0 raises
    [ZeroDivisionError]; a negative batch size gives no batch at all, so
    the result is the empty list whatever the sentences; and an empty
    reference list gives the empty list, the candidates never read. *)
Theorem score_degenerate (s : BERTScore.self) (references candidates : list string)
  (batch_size : Z) (verbose : bool) (h : heap) :
  BERTScore.score s references candidates 0 verbose h = Raise ZeroDivisionError /\
  ((batch_size < 0)%Z ->
     BERTScore.score s references candidates batch_size verbose h = Ok ([], h)) /\
  ((batch_size <> 0)%Z ->
     BERTScore.score s [] candidates batch_size verbose h = Ok ([], h)).
Proof.
  split; [reflexivity|]. split.
  - intros Hb. unfold BERTScore.score, BERTScore.n_batch, bind, lift.
    destruct (Z.eqb_spec batch_size 0); [lia|].
    assert (E : Z.to_nat (- (- Z.of_nat (length references) / batch_size)) = 0%nat).
    { assert (0 <= - Z.of_nat (length references) / batch_size)%Z; [|lia].
      rewrite <- (Z.opp_involutive batch_size), Z.div_opp_opp by lia.
      apply Z.div_pos; lia. }
    rewrite E. reflexivity.
  - intros Hb. unfold BERTScore.score, BERTScore.n_batch, bind, lift.
    destruct (Z.eqb_spec batch_size 0); [lia|]. reflexivity.
Qed.

Lemma RPF_of_lengths (n : nat) pc wr wc rids cids idf base (Rc Pr F : vec) :
  RPF_of pc wr wc (Some rids) (Some cids) idf base = Ok (Rc, Pr, F) ->
  length pc = n -> length wr = n -> length wc = n ->
  length rids = n -> length cids = n ->
  length Rc = n /\ length Pr = n /\ length F = n.
Proof.
  unfold RPF_of. intros H Lpc Lwr Lwc Lri Lci.
  destruct (max_dim2 pc) as [Rm|] eqn:ER; simpl in H; [|discriminate].
  destruct (max_dim1 pc) as [Pm|] eqn:EP; simpl in H; [|discriminate].
  pose proof (mapM_length _ _ ER) as LRm. pose proof (mapM_length _ _ EP) as LPm.
  assert (Hm : exists Wr Wc, length Wr = n /\ length Wc = n /\
             Ok (Rc, Pr, F) =
             Ok (map2 weighted_mean (rescaling Rm base) Wr,
                 map2 weighted_mean (rescaling Pm base) Wc,
                 map2 f1 (map2 weighted_mean (rescaling Rm base) Wr)
                         (map2 weighted_mean (rescaling Pm base) Wc))).
  { destruct idf as [t|].
    - destruct (apply_idf rids t) as [Wr|] eqn:E1; simpl in H; [|discriminate].
      destruct (apply_idf cids t) as [Wc|] eqn:E2; simpl in H; [|discriminate].
      exists Wr, Wc. unfold apply_idf in E1, E2.
      rewrite (mapM_length _ _ E1), (mapM_length _ _ E2). now rewrite <- H.
    - simpl in H. exists wr, wc. now rewrite <- H. }
  destruct Hm as (Wr & Wc & LWr & LWc & E). inversion E; subst Rc Pr F.
  unfold rescaling. rewrite !map2_length, !length_map. tlia.
Qed.

Lemma bert_score_lengths (tok : BertTokenizer) (m : BertModel)
  (references candidates : list string) (idf : option (list R)) (idx : Z) (base : R)
  (h h' : heap) (Rc Pr F : vec) :
  Shape.encoder_ok m ->
  bert_score tok m references candidates idf idx base h = Ok ((Rc, Pr, F), h') ->
  length candidates = length references /\
  length Rc = length references /\ length Pr = length references /\
  length F = length references.
Proof.
  intros Henc H. rewrite bert_score_eq in H.
  destruct (sents_to_tensor tok references) as [rt|] eqn:Hrt; [|discriminate].
  destruct (sents_to_tensor tok candidates) as [ct|] eqn:Hct; [|discriminate].
  destruct (sents_to_tensor_ok _ _ Hrt) as [_ ->].
  destruct (sents_to_tensor_ok _ _ Hct) as [_ ->].
  destruct (tensors_shape tok references) as ([Lri _] & [Lra _] & [Lrw _]).
  destruct (tensors_shape tok candidates) as ([Lci _] & [Lca _] & [Lcw _]).
  destruct (py_index (hidden_states m (fst (fst (tensors tok references))) _) _)
    as [tr|] eqn:Er; [|discriminate].
  destruct (py_index (hidden_states m (fst (fst (tensors tok candidates))) _) _)
    as [tc|] eqn:Ec; [|discriminate].
  apply py_index_In in Er, Ec.
  destruct (Henc _ _ _ _ Er) as [Ltr _]. destruct (Henc _ _ _ _ Ec) as [Ltc _].
  unfold bmm_permute in H. rewrite !length_div_norm_lift3 in H.
  destruct (Nat.eqb_spec (length tr) (length tc)) as [El|]; [|discriminate].
  destruct (RPF_of _ _ _ _ _ _ _) as [[[Rc0 Pr0] F0]|] eqn:E; [|discriminate].
  inversion H; subst Rc0 Pr0 F0.
  split; [lia|].
  apply (@RPF_of_lengths (length references) _ _ _ _ _ _ _ Rc Pr F E).
  - rewrite map2_length, !length_div_norm_lift3. lia.
  - unfold to_float. rewrite length_map. exact Lrw.
  - unfold to_float. rewrite length_map. lia.
  - exact Lri.
  - lia.
Qed.

Lemma py_slice_length {A} (l : list A) (b e : nat) :
  length (py_slice l b e) = Nat.min (e - b) (length l - b).
Proof. unfold py_slice. now rewrite length_firstn, length_skipn. Qed.

Lemma score_loop_length (s : BERTScore.self) (references candidates : list string)
  (bs : nat) (j k : nat) (F F' : vec) (h h' : heap) :
  Shape.encoder_ok (BERTScore.encoder s) ->
  length F = Nat.min (k * bs) (length references) ->
  BERTScore.score_loop s references candidates bs (length references) (seq k j) F h =
    Ok (F', h') ->
  length F' = Nat.min ((k + j) * bs) (length references).
Proof.
  intros Henc. revert k F h. induction j as [|j IH]; intros k F h HF H.
  - simpl in H. inversion H; subst. now rewrite Nat.add_0_r.
  - cbn [seq] in H. rewrite score_loop_cons in H.
    destruct (bert_score _ _ _ _ _ _ _ h) as [[[[Rc Pr] Fb] h1]|] eqn:E; [|discriminate].
    destruct (BERTScore.requires_grad s); [discriminate|].
    destruct (bert_score_lengths _ _ _ _ _ _ _ Henc E) as (_ & _ & _ & LF).
    rewrite py_slice_length in LF. cbn [snd] in H.
    apply IH in H.
    + rewrite H. f_equal. lia.
    + rewrite length_app, HF, LF. tlia.
Qed.

Lemma n_batch_covers (n : nat) (bs : Z) :
  (0 < bs)%Z ->
  (n <= Z.to_nat (- (- Z.of_nat n / bs)) * Z.to_nat bs)%nat.
Proof.
  intros Hb.
  pose proof (Z.div_mod (- Z.of_nat n) bs ltac:(lia)) as Hd.
  pose proof (Z.mod_pos_bound (- Z.of_nat n) bs Hb) as Hm.
  set (q := (- Z.of_nat n / bs)%Z) in *.
  assert (Hq : (q <= 0)%Z) by nia.
  assert (E : (Z.of_nat n <= (- q) * bs)%Z) by nia.
  apply Nat2Z.inj_le. rewrite Nat2Z.inj_mul, !Z2Nat.id by lia. exact E.
Qed.

(** X24.  With an encoder that returns one vector per position and a
    positive batch size, a call of [score] that returns gives exactly one
    F1 per reference, whatever the batch size. *)
Theorem score_one_value_per_reference (s : BERTScore.self)
  (references candidates : list string) (batch_size : Z) (verbose : bool)
  (h h' : heap) (F : vec) :
  Shape.encoder_ok (BERTScore.encoder s) -> (0 < batch_size)%Z ->
  BERTScore.score s references candidates batch_size verbose h = Ok (F, h') ->
  length F = length references.
Proof.
  intros Henc Hb H. unfold BERTScore.score, BERTScore.n_batch, bind, lift in H.
  destruct (Z.eqb_spec batch_size 0); [lia|].
  apply (@score_loop_length s references candidates (Z.to_nat batch_size)
           _ 0%nat [] F h h' Henc) in H; [|simpl; lia].
  rewrite H. pose proof (n_batch_covers (length references) Hb). simpl. lia.
Qed.

Lemma score_batch_of_two_run :
  exists h',
    BERTScore.score Toy.scorer ["a"%string; "a"%string] ["c"%string; "cc"%string]
      2 true [] = Ok ([Some (8/9); Some (3/4)], h').
Proof.
  eexists. unfold_model. repeat eval_step.
  apply f_equal. apply f_equal2; [same_value | reflexivity].
Qed.

Lemma score_one_value_per_reference_witness :
  length [Some (8/9); Some (3/4)] = length ["a"%string; "a"%string].
Proof.
  destruct score_batch_of_two_run as [h' H].
  apply (@score_one_value_per_reference Toy.scorer ["a"%string; "a"%string]
           ["c"%string; "cc"%string] 2%Z true [] h' _ toy_encoder_ok ltac:(lia) H).
Defined.

Lemma score_loop_raises (s : BERTScore.self) (references candidates : list string)
  (bs n : nat) (steps : list nat) (j : nat) :
  In j steps ->
  (forall h0, exists e,
      bert_score (BERTScore.tokenizer s) (BERTScore.encoder s)
        (py_slice references (j * bs) (Nat.min ((j + 1) * bs) n))
        (py_slice candidates (j * bs) (Nat.min ((j + 1) * bs) n))
        (BERTScore.idf s) (-1) (BERTScore.rescale_base s) h0 = Raise e) ->
  forall F h, exists e,
    BERTScore.score_loop s references candidates bs n steps F h = Raise e.
Proof.
  intros Hin Hj. induction steps as [|k steps IH]; [destruct Hin|].
  intros F h. rewrite score_loop_cons.
  destruct (bert_score _ _ _ _ _ _ _ h) as [[rpf h1]|e] eqn:E; [|now exists e].
  destruct Hin as [->|Hin].
  - destruct (Hj h) as [e He]. rewrite He in E. discriminate.
  - destruct (BERTScore.requires_grad s); [now exists RuntimeError|].
    apply IH. exact Hin.
Qed.

(** X25.  With fewer candidates than references and a positive batch
    size, [score] never returns: the batch in which the candidates run out
    has lists of different lengths, and [bert_score] raises on it (if no
    earlier batch has raised). *)
Theorem score_fewer_candidates_raises (s : BERTScore.self)
  (references candidates : list string) (batch_size : Z) (verbose : bool) (h : heap) :
  Shape.encoder_ok (BERTScore.encoder s) -> (0 < batch_size)%Z ->
  (length candidates < length references)%nat ->
  exists e, BERTScore.score s references candidates batch_size verbose h = Raise e.
Proof.
  intros Henc Hb Hlen. unfold BERTScore.score, BERTScore.n_batch, bind, lift.
  destruct (Z.eqb_spec batch_size 0) as [|Hnz]; [lia|].
  set (bs := Z.to_nat batch_size). set (n := length references) in *.
  set (lc := length candidates) in *.
  set (nb := Z.to_nat (- (- Z.of_nat n / batch_size))).
  assert (Hbs : (0 < bs)%nat) by (unfold bs; lia).
  assert (Hnb : (n <= nb * bs)%nat) by (apply n_batch_covers; exact Hb).
  set (j := (lc / bs)%nat).
  assert (Hj1 : (j * bs <= lc)%nat).
  { unfold j. rewrite Nat.mul_comm. apply Nat.Div0.mul_div_le. }
  assert (Hj2 : (lc < (j + 1) * bs)%nat).
  { unfold j. rewrite Nat.add_1_r, Nat.mul_comm. apply Nat.mul_succ_div_gt. lia. }
  assert (Hjn : (j < nb)%nat).
  { destruct (Nat.lt_ge_cases j nb) as [|Hge]; [assumption|].
    assert (nb * bs <= j * bs)%nat by (apply Nat.mul_le_mono_r; exact Hge). lia. }
  apply (@score_loop_raises s references candidates bs n (seq 0 nb) j).
  - apply in_seq. lia.
  - intros h0.
    apply (@bert_score_mismatch_error (BERTScore.tokenizer s) (BERTScore.encoder s)
             (py_slice references (j * bs) (Nat.min ((j + 1) * bs) n))
             (py_slice candidates (j * bs) (Nat.min ((j + 1) * bs) n))
             (BERTScore.idf s) (-1)%Z (BERTScore.rescale_base s) h0 Henc).
    rewrite !py_slice_length. fold n lc. lia.
Qed.

Lemma score_fewer_candidates_raises_witness :
  exists e,
    BERTScore.score Toy.scorer ["a"%string; "c"%string] ["c"%string] 128 true [] =
    Raise e.
Proof.
  apply (@score_fewer_candidates_raises Toy.scorer ["a"%string; "c"%string]
           ["c"%string] 128%Z true []).
  - apply toy_encoder_ok.
  - lia.
  - simpl. lia.
Defined.

Lemma bert_score_run_any_store
  (tok : BertTokenizer) (m : BertModel) (references candidates : list string)
  (idf : option (list R)) (idx : Z) (base : R) (h h2 : heap) :
  run (bert_score tok m references candidates idf idx base) h =
  run (bert_score tok m references candidates idf idx base) h2.
Proof.
  unfold run. rewrite !bert_score_eq.
  destruct (sents_to_tensor tok references) as [rt|]; [|reflexivity].
  destruct (sents_to_tensor tok candidates) as [ct|]; [|reflexivity].
  destruct (py_index _ idx) as [tr|]; [|reflexivity].
  destruct (py_index _ idx) as [tc|]; [|reflexivity].
  destruct (bmm_permute _ _) as [pc|]; [|reflexivity].
  destruct (RPF_of _ _ _ _ _ _ _) as [v0|]; reflexivity.
Qed.

Lemma score_loop_run_any_store (s : BERTScore.self) (references candidates : list string)
  (bs n : nat) (steps : list nat) (F : vec) (h h2 : heap) :
  run (BERTScore.score_loop s references candidates bs n steps F) h =
  run (BERTScore.score_loop s references candidates bs n steps F) h2.
Proof.
  revert F h h2. induction steps as [|k steps IH]; intros F h h2; [reflexivity|].
  unfold run. rewrite !score_loop_cons.
  match goal with
  | |- context [bert_score ?a ?b ?c ?d ?e ?f ?g h] =>
      pose proof (@bert_score_run_any_store a b c d e f g h h2) as Hrun
  end.
  unfold run in Hrun.
  destruct (bert_score _ _ _ _ _ _ _ h) as [[v h1]|e];
    destruct (bert_score _ _ _ _ _ _ _ h2) as [[v2 h3]|e2];
    try discriminate; [|congruence].
  inversion Hrun; subst v2.
  destruct (BERTScore.requires_grad s); [reflexivity|]. apply (IH _ h1 h3).
Qed.

Lemma py_slice_first {A} (r1 r2 : list A) (bs : nat) :
  length r1 = bs ->
  py_slice (r1 ++ r2) (0 * bs) (Nat.min ((0 + 1) * bs) (bs + length r2)) = r1.
Proof.
  intros H. unfold py_slice. simpl. rewrite Nat.add_0_r.
  replace (Nat.min bs (bs + length r2) - 0)%nat with (length r1 + 0)%nat by lia.
  rewrite firstn_app_2. simpl. apply app_nil_r.
Qed.

Lemma py_slice_shift {A} (r1 r2 : list A) (bs k : nat) :
  length r1 = bs ->
  py_slice (r1 ++ r2) (S k * bs) (Nat.min ((S k + 1) * bs) (bs + length r2)) =
  py_slice r2 (k * bs) (Nat.min ((k + 1) * bs) (length r2)).
Proof.
  intros H. unfold py_slice.
  rewrite skipn_app, (skipn_all2 r1) by (simpl; lia). simpl app.
  f_equal; [|f_equal]; simpl; rewrite ?H; nia.
Qed.

Lemma score_loop_shift (s : BERTScore.self) (r1 r2 c1 c2 : list string) (bs : nat)
  (steps : list nat) (F0 F : vec) (h : heap) :
  length r1 = bs -> length c1 = bs ->
  run (BERTScore.score_loop s (r1 ++ r2) (c1 ++ c2) bs (bs + length r2)
         (map S steps) (F0 ++ F)) h =
  match run (BERTScore.score_loop s r2 c2 bs (length r2) steps F) h with
  | Ok F' => Ok (F0 ++ F')
  | Raise e => Raise e
  end.
Proof.
  intros Hr Hc. revert F h. induction steps as [|k steps IH]; intros F h.
  - reflexivity.
  - cbn [map]. unfold run. rewrite !score_loop_cons.
    rewrite (py_slice_shift r1 r2 k Hr).
    assert (Ec : py_slice (c1 ++ c2) (S k * bs) (Nat.min ((S k + 1) * bs) (bs + length r2)) =
                 py_slice c2 (k * bs) (Nat.min ((k + 1) * bs) (length r2))).
    { unfold py_slice. rewrite skipn_app, (skipn_all2 c1) by (simpl; lia). simpl app.
      f_equal; [|f_equal]; simpl; rewrite ?Hc; nia. }
    rewrite Ec.
    destruct (bert_score _ _ _ _ _ _ _ h) as [[v h1]|e]; [|reflexivity].
    destruct (BERTScore.requires_grad s); [reflexivity|].
    rewrite <- app_assoc. apply (IH (F ++ snd v) h1).
Qed.

Lemma n_batch_succ (n2 : nat) (bs : Z) :
  (0 < bs)%Z ->
  Z.to_nat (- (- Z.of_nat (Z.to_nat bs + n2) / bs)) =
  S (Z.to_nat (- (- Z.of_nat n2 / bs))).
Proof.
  intros Hb.
  replace (- Z.of_nat (Z.to_nat bs + n2))%Z with (- Z.of_nat n2 + (-1) * bs)%Z by lia.
  rewrite Z.div_add by lia.
  assert (- Z.of_nat n2 / bs <= 0)%Z.
  { pose proof (Z.div_mod (- Z.of_nat n2) bs ltac:(lia)).
    pose proof (Z.mod_pos_bound (- Z.of_nat n2) bs Hb). nia. }
  lia.
Qed.

(** X26.  [score] peels off one batch at a time, in order: when the two
    lists begin with a full batch, the result is the F1 values
    [bert_score] gives for that batch, converted by [numpy()], followed by
    what [score] gives for the rest of the two lists; an error in the first
    batch, in its conversion, or else in the rest, is the error of the
    whole call. *)
Theorem score_first_batch (s : BERTScore.self) (r1 r2 c1 c2 : list string)
  (batch_size : Z) (verbose : bool) (h : heap) :
  (0 < batch_size)%Z ->
  length r1 = Z.to_nat batch_size -> length c1 = Z.to_nat batch_size ->
  run (BERTScore.score s (r1 ++ r2) (c1 ++ c2) batch_size verbose) h =
  match run (bert_score (BERTScore.tokenizer s) (BERTScore.encoder s) r1 c1
               (BERTScore.idf s) (-1) (BERTScore.rescale_base s)) h with
  | Raise e => Raise e
  | Ok rpf =>
      match BERTScore.numpy (BERTScore.requires_grad s) (snd rpf) with
      | Raise e => Raise e
      | Ok F1 =>
          match run (BERTScore.score s r2 c2 batch_size verbose) h with
          | Ok F2 => Ok (F1 ++ F2)
          | Raise e => Raise e
          end
      end
  end.
Proof.
  intros Hb Hr Hc.
  set (bs := Z.to_nat batch_size) in *.
  set (nb := Z.to_nat (- (- Z.of_nat (length r2) / batch_size))).
  assert (E2 : run (BERTScore.score s r2 c2 batch_size verbose) h =
               run (BERTScore.score_loop s r2 c2 bs (length r2) (seq 0 nb) []) h).
  { unfold BERTScore.score, BERTScore.n_batch, run, bind, lift.
    destruct (Z.eqb_spec batch_size 0) as [|Hnz]; [lia | reflexivity]. }
  assert (E1 : run (BERTScore.score s (r1 ++ r2) (c1 ++ c2) batch_size verbose) h =
               run (BERTScore.score_loop s (r1 ++ r2) (c1 ++ c2) bs (bs + length r2)
                      (0%nat :: map S (seq 0 nb)) []) h).
  { unfold BERTScore.score, BERTScore.n_batch, run, bind, lift.
    destruct (Z.eqb_spec batch_size 0) as [|Hnz]; [lia|].
    rewrite length_app, Hr. unfold bs. rewrite (n_batch_succ (length r2) Hb).
    fold nb. cbn [seq]. rewrite <- seq_shift. reflexivity. }
  rewrite E1, E2. clear E1 E2.
  assert (Ec : py_slice (c1 ++ c2) (0 * bs) (Nat.min ((0 + 1) * bs) (bs + length r2)) = c1).
  { unfold py_slice. simpl. rewrite Nat.add_0_r, Nat.sub_0_r.
    replace (Nat.min bs (bs + length r2)) with (length c1 + 0)%nat by lia.
    rewrite firstn_app_2. simpl. apply app_nil_r. }
  unfold run. rewrite score_loop_cons, (py_slice_first r1 r2 Hr), Ec.
  destruct (bert_score _ _ r1 c1 _ _ _ h) as [[v h1]|e]; [|reflexivity].
  unfold BERTScore.numpy. destruct (BERTScore.requires_grad s); [reflexivity|].
  pose proof (@score_loop_shift s r1 r2 c1 c2 bs (seq 0 nb) (snd v) [] h1 Hr Hc) as Hs.
  rewrite app_nil_r in Hs. cbn [app]. unfold run in Hs. rewrite Hs.
  pose proof (@score_loop_run_any_store s r2 c2 bs (length r2) (seq 0 nb) [] h1 h) as Hi.
  unfold run in Hi. rewrite Hi. reflexivity.
Qed.

Lemma score_first_batch_witness :
  run (BERTScore.score Toy.scorer (["a"%string] ++ ["a"%string])
         (["c"%string] ++ ["cc"%string]) 1 true) [] =
  match run (bert_score (BERTScore.tokenizer Toy.scorer) (BERTScore.encoder Toy.scorer)
               ["a"%string] ["c"%string]
               (BERTScore.idf Toy.scorer) (-1) (BERTScore.rescale_base Toy.scorer)) [] with
  | Raise e => Raise e
  | Ok rpf =>
      match BERTScore.numpy (BERTScore.requires_grad Toy.scorer) (snd rpf) with
      | Raise e => Raise e
      | Ok F1 =>
          match run (BERTScore.score Toy.scorer ["a"%string] ["cc"%string] 1 true) [] with
          | Ok F2 => Ok (F1 ++ F2)
          | Raise e => Raise e
          end
      end
  end.
Proof.
  apply (@score_first_batch Toy.scorer ["a"%string] ["a"%string]
           ["c"%string] ["cc"%string] 1%Z true []); [lia | reflexivity | reflexivity].
Defined.

(** ** [sents_to_tensor] *)

(** X27.  On a list that is not empty [sents_to_tensor] returns: the
    ids, the attention mask and the token mask have one row per sentence,
    all rows as long as the longest tokenised sentence of the batch.  On
    the empty list it raises the [ValueError] of the tokenizer. *)
Theorem sents_to_tensor_same_shape (tok : BertTokenizer) (sents : list string) :
  sents_to_tensor tok [] = Raise ValueError /\
  (sents <> [] ->
   exists ids att token_mask,
     sents_to_tensor tok sents = Ok (ids, att, token_mask) /\
     let K := Shape.padded_length tok sents in
     shape2 (length sents) K ids /\
     shape2 (length sents) K att /\
     shape2 (length sents) K token_mask /\
     forall s, In s sents -> (length (encode tok s) <= K)%nat).
Proof.
  split; [reflexivity|]. intros Hne.
  destruct (tensors_shape tok sents) as (H1 & H2 & H3).
  destruct (tensors tok sents) as [[ids att] token_mask] eqn:E.
  exists ids, att, token_mask. split.
  - rewrite (sents_to_tensor_nonempty tok Hne). now rewrite E.
  - cbn [fst snd] in H1, H2, H3. repeat split; try apply H1; try apply H2; try apply H3.
    intros s Hs. now apply le_padded_length.
Qed.

Lemma token_mask_is_ContentMask_witness :
  nth 1 (nth 0 (snd (tensors Toy.tok ["a"%string; "cc"%string])) []) 0%Z =
  Reference.ContentMask Toy.tok
    (fst (fst (tensors Toy.tok ["a"%string; "cc"%string])))
    (snd (fst (tensors Toy.tok ["a"%string; "cc"%string]))) 0 1.
Proof.
  apply (@token_mask_is_ContentMask Toy.tok ["a"%string; "cc"%string]
           (fst (fst (tensors Toy.tok ["a"%string; "cc"%string])))
           (snd (fst (tensors Toy.tok ["a"%string; "cc"%string])))
           (snd (tensors Toy.tok ["a"%string; "cc"%string])) 0%nat 1%nat);
    [reflexivity | simpl; lia | vm_compute; lia].
Defined.

(** ** A sentence without weight *)

Lemma bert_score_weight_shapes
  (tok : BertTokenizer) (references candidates : list string)
  (idf : option (list R)) (W_ref W_cand : list (list R)) :
  let rt := tensors tok references in
  let ct := tensors tok candidates in
  length references = length candidates ->
  Reference.WeightMasks (to_float (snd rt)) (to_float (snd (fst ct)))
    (Some (fst (fst rt))) (Some (fst (fst ct))) idf W_ref W_cand ->
  shape2 (length references) (Shape.padded_length tok references) W_ref /\
  shape2 (length references) (Shape.padded_length tok candidates) W_cand.
Proof.
  intros rt ct Hlen Hw.
  destruct (tensors_shape tok references) as (Sri & Sra & Srw).
  destruct (tensors_shape tok candidates) as (Sci & Sca & Scw).
  fold rt in Sri, Sra, Srw. fold ct in Sci, Sca, Scw.
  rewrite <- Hlen in Sci, Sca, Scw.
  exact (@WeightMasks_shape _ _ _ _ _ _ _ idf W_ref W_cand Hw
           (shape2_map IZR Srw) (shape2_map IZR Sca) Sri Sci).
Qed.

(** X28.  A reference whose weights sum to zero (without a table: a
    sentence with no token besides the markers, such as the empty string)
    raises nothing: its recall and its F1 come back as not-a-number, while
    the other pairs of the batch are scored as usual. *)
Theorem bert_score_zero_weight_is_nan
  (tok : BertTokenizer) (m : BertModel) (references candidates : list string)
  (idf : option (list R)) (output_layer_index : Z) (base : R) (h : heap) (b : nat)
  (rt ct : list (list Z) * list (list Z) * list (list Z))
  (tr tc : list (list (list R))) (W_ref W_cand : list (list R)) :
  Shape.tokenizer_ok tok -> Shape.encoder_ok m ->
  length references = length candidates -> (b < length references)%nat ->
  sents_to_tensor tok references = Ok rt ->
  sents_to_tensor tok candidates = Ok ct ->
  py_index (hidden_states m (fst (fst rt)) (snd (fst rt))) output_layer_index = Ok tr ->
  py_index (hidden_states m (fst (fst ct)) (snd (fst ct))) output_layer_index = Ok tc ->
  Reference.WeightMasks (to_float (snd rt)) (to_float (snd (fst ct)))
    (Some (fst (fst rt))) (Some (fst (fst ct))) idf W_ref W_cand ->
  Rsum (nth b W_ref []) = 0 ->
  exists Rc Pr F h',
    bert_score tok m references candidates idf output_layer_index base h =
      Ok ((Rc, Pr, F), h') /\
    nth b Rc None = None /\ nth b F None = None.
Proof.
  intros Htok Henc Hlen Hb Hrt Hct Hpr Hpc Hw Hz.
  destruct (sents_to_tensor_ok _ _ Hrt) as [Hne ->].
  destruct (sents_to_tensor_ok _ _ Hct) as [_ ->].
  destruct (@bert_score_reference tok m references candidates idf output_layer_index
              base h tr tc W_ref W_cand Htok Henc Hlen Hne Hpr Hpc Hw)
    as (Rc & Pr & F & Hrun & _ & _ & _ & Hval).
  destruct (@bert_score_weight_shapes tok references candidates idf W_ref W_cand Hlen Hw)
    as [SWr _].
  destruct (Hval b Hb) as (ER & _ & EF).
  assert (E0 : nth b Rc None = None).
  { rewrite ER. unfold Reference.Recall, Reference.at2.
    rewrite (@sum_over_weights _ (nth b W_ref []) (shape2_nth SWr Hb)), Hz.
    apply sdiv_zero. }
  exists Rc, Pr, F. eexists. split; [exact Hrun|]. split; [exact E0|].
  rewrite EF, E0. reflexivity.
Qed.

Lemma bert_score_zero_weight_is_nan_witness :
  exists Rc Pr F h',
    bert_score Toy.tok Toy.model [""%string] [""%string] None (-1) 0 [] =
      Ok ((Rc, Pr, F), h') /\
    nth 0 Rc None = None /\ nth 0 F None = None.
Proof.
  apply (@bert_score_zero_weight_is_nan Toy.tok Toy.model [""%string] [""%string]
           None (-1)%Z 0 [] 0%nat
           (tensors Toy.tok [""%string]) (tensors Toy.tok [""%string])
           [[[0; 1]; [0; 1]]] [[[0; 1]; [0; 1]]]
           (to_float (snd (tensors Toy.tok [""%string])))
           (to_float (snd (fst (tensors Toy.tok [""%string]))))).
  - apply toy_tokenizer_ok.
  - apply toy_encoder_ok.
  - reflexivity.
  - simpl. lia.
  - reflexivity.
  - reflexivity.
  - reflexivity.
  - reflexivity.
  - split; reflexivity.
  - unfold_model. lra.
Defined.

(** ** The shape of the pairwise tensor *)

Lemma shape3_shape2 {A} (B K D : nat) (t : list (list (list A))) :
  shape3 B K D t -> shape2 B K t.
Proof.
  intros [Hl Hf]. split; [exact Hl|].
  eapply Forall_impl; [|exact Hf]. intros m [Hm _]. exact Hm.
Qed.

Lemma div_norm_shape3 (B K D : nat) (t : tensor3) :
  shape3 B K D t -> shape3 B K D (div_norm t).
Proof.
  intros [Hl Hf]. unfold div_norm. split; [now rewrite length_map|].
  apply Forall_map. eapply Forall_impl; [|exact Hf]. intros m [Hm Hr].
  split; [now rewrite length_map|].
  apply Forall_map. eapply Forall_impl; [|exact Hr]. intros r Hlen.
  now rewrite length_div_norm_row.
Qed.

(** X30.  The sizes of the docstring: on two distinct tensors of shapes
    (B, K_i, D) and (B, K_r, D), whatever their entries,
    [compute_pairwise_cosine] returns a tensor of shape (B, K_i, K_r), and
    the two tensors it has normalised in place keep their shapes. *)
Theorem compute_pairwise_cosine_shape (h : heap) (re ce : loc) (B K_i K_r D : nat) :
  (re < length h)%nat -> (ce < length h)%nat -> re <> ce ->
  shape3 B K_i D (read re h) -> shape3 B K_r D (read ce h) ->
  exists pc h',
    compute_pairwise_cosine re ce h = Ok (pc, h') /\
    shape3 B K_i K_r pc /\
    shape3 B K_i D (read re h') /\ shape3 B K_r D (read ce h').
Proof.
  intros Hre Hce Hne Sr Sc.
  assert (Lr : length (read re h) = B) by apply Sr.
  assert (Lc : length (read ce h) = B) by apply Sc.
  assert (Hl : length (read re h) = length (read ce h)) by tlia.
  destruct (compute_pairwise_cosine_store h Hre Hce Hne Hl)
    as (pc & h' & Hrun & Epc & Er & Ec & _).
  exists pc, h'. split; [exact Hrun|]. rewrite Epc, Er, Ec.
  split; [|split]; try now apply div_norm_shape3.
  apply matmul_shape; apply div_norm_shape; now apply (@shape3_shape2 _ B _ D).
Qed.

Lemma compute_pairwise_cosine_shape_witness :
  exists pc h',
    compute_pairwise_cosine 0%nat 1%nat
      [lift3 [[[0; 1]; [4/5; 3/5]]]; lift3 [[[0; 1]]]] = Ok (pc, h') /\
    shape3 1 2 1 pc /\
    shape3 1 2 2 (read 0%nat h') /\ shape3 1 1 2 (read 1%nat h').
Proof.
  apply (@compute_pairwise_cosine_shape
           [lift3 [[[0; 1]; [4/5; 3/5]]]; lift3 [[[0; 1]]]] 0%nat 1%nat 1%nat 2%nat 1%nat 2%nat);
    [ simpl; lia | simpl; lia | discriminate
    | repeat (split || constructor) | repeat (split || constructor) ].
Defined.

(** ** [BERTScore.score] with an IDF table *)

(** X31.  With an IDF table [score] never returns a result for a list of
    references that is not empty (and a positive batch size): either
    [bert_score] raises on the first batch, and that is the error of the
    call, or it returns scores that require grad, and [numpy()] refuses
    them with [RuntimeError]. *)
Theorem score_with_table_raises (s : BERTScore.self)
  (references candidates : list string) (batch_size : Z) (verbose : bool) (h : heap) :
  BERTScore.idf s <> None -> (0 < batch_size)%Z -> references <> [] ->
  let e := Nat.min (Z.to_nat batch_size) (length references) in
  BERTScore.score s references candidates batch_size verbose h =
  match bert_score (BERTScore.tokenizer s) (BERTScore.encoder s)
          (py_slice references 0 e) (py_slice candidates 0 e)
          (BERTScore.idf s) (-1) (BERTScore.rescale_base s) h with
  | Ok _ => Raise RuntimeError
  | Raise err => Raise err
  end.
Proof.
  intros Hidf Hb Hne e. unfold BERTScore.score, BERTScore.n_batch, bind, lift.
  destruct (Z.eqb_spec batch_size 0) as [|Hnz]; [lia|].
  set (n := length references) in *.
  assert (Hn : (0 < n)%nat).
  { unfold n. destruct references; [congruence | simpl; lia]. }
  assert (Hq : (- Z.of_nat n / batch_size < 0)%Z).
  { apply Z.div_lt_upper_bound; lia. }
  destruct (Z.to_nat (- (- Z.of_nat n / batch_size))) as [|nb] eqn:E; [lia|].
  cbn [seq]. rewrite score_loop_cons.
  replace (0 * Z.to_nat batch_size)%nat with 0%nat by lia.
  replace ((0 + 1) * Z.to_nat batch_size)%nat with (Z.to_nat batch_size) by lia.
  fold e.
  destruct (bert_score _ _ _ _ _ _ _ h) as [[rpf h1]|err]; [|reflexivity].
  unfold BERTScore.requires_grad. destruct (BERTScore.idf s); [reflexivity | congruence].
Qed.

Lemma score_with_table_raises_witness :
  BERTScore.score Toy.scorer_idf ["a"%string] ["c"%string] 128 true [] =
  match bert_score Toy.tok Toy.model
          (py_slice ["a"%string] 0 (Nat.min (Z.to_nat 128) 1))
          (py_slice ["c"%string] 0 (Nat.min (Z.to_nat 128) 1))
          (Some [0; 0; 0; 1; 2]) (-1) 0 [] with
  | Ok _ => Raise RuntimeError
  | Raise err => Raise err
  end.
Proof.
  apply (@score_with_table_raises Toy.scorer_idf ["a"%string] ["c"%string] 128%Z true []);
    [discriminate | lia | discriminate].
Defined.
